(** * A shallow embedding of the falling-block game core

    The development follows the JavaScript sources: [pieces.js] (module
    [Piece]), [board.js] (module [GameBoard]) and [tetris.js] (module
    [TetrisGame]).  Integer-valued JavaScript numbers are modelled by [Z],
    millisecond timers by IEEE binary64 floats, arrays by lists, [null] piece
    references by [option], and a thrown [TypeError] by an explicit
    outcome. *)

From Stdlib Require Import ZArith List String Ascii Bool Lia Sorted.
From Stdlib Require Import Numbers.DecimalString.
From Stdlib Require Import Floats.PrimFloat Numbers.Cyclic.Int63.Uint63.
Import ListNotations.
Open Scope Z_scope.

(** ** Outcomes of a call

    [Ok a] is a normal return, [TypeError] the exception JavaScript throws
    when a property of [undefined] or [null] is read, and [OutOfFuel] marks a
    [while] loop that did not finish within the iteration budget given to the
    model. *)

Inductive outcome (A : Type) : Type :=
| Ok (a : A)
| TypeError
| OutOfFuel.

Arguments Ok {A} a.
Arguments TypeError {A}.
Arguments OutOfFuel {A}.

Definition bind {A B : Type} (m : outcome A) (k : A -> outcome B) : outcome B :=
  match m with
  | Ok a => k a
  | TypeError => TypeError
  | OutOfFuel => OutOfFuel
  end.

Notation "x <- m ;; k" := (bind m (fun x => k))
  (at level 61, m at next level, right associativity).
Notation "' p <- m ;; k" := (bind m (fun p => k))
  (at level 61, p pattern, m at next level, right associativity).

(** ** JavaScript arrays as lists *)

Module JsArray.

(** [a[i] = v] for an index that is inside the array. *)
Fixpoint update {A : Type} (l : list A) (i : nat) (v : A) : list A :=
  match l, i with
  | [], _ => []
  | _ :: t, O => v :: t
  | h :: t, S i' => h :: update t i' v
  end.

(** [a[i] = v] in general: a write past the end extends the array and
    leaves holes, represented by [hole], in between. *)
Fixpoint assign {A : Type} (hole : A) (l : list A) (i : nat) (v : A) : list A :=
  match l, i with
  | [], O => [v]
  | [], S i' => hole :: assign hole [] i' v
  | _ :: t, O => v :: t
  | h :: t, S i' => h :: assign hole t i' v
  end.

(** [a.splice(i, 1)] for [i >= 0]: the element at index [i] is removed when
    there is one. *)
Fixpoint splice1 {A : Type} (l : list A) (i : nat) : list A :=
  match l, i with
  | [], _ => []
  | _ :: t, O => t
  | h :: t, S i' => h :: splice1 t i'
  end.

(** [a.unshift(v)]. *)
Definition unshift {A : Type} (l : list A) (v : A) : list A := v :: l.

End JsArray.

(** ** pieces.js *)

Inductive PieceType : Type :=
| TypeI | TypeO | TypeT | TypeS | TypeZ | TypeJ | TypeL.

Definition PieceType_eqb (a b : PieceType) : bool :=
  match a, b with
  | TypeI, TypeI | TypeO, TypeO | TypeT, TypeT | TypeS, TypeS
  | TypeZ, TypeZ | TypeJ, TypeJ | TypeL, TypeL => true
  | _, _ => false
  end.

Record PieceData : Type := mkPieceData {
  pd_shape : list (list Z);
  pd_color : string;
  pd_spawn : Z * Z
}.

Definition PIECES (t : PieceType) : PieceData :=
  match t with
  | TypeI => mkPieceData
      [[0; 0; 0; 0];
       [1; 1; 1; 1];
       [0; 0; 0; 0];
       [0; 0; 0; 0]] "#00ffff" (3, 0)
  | TypeO => mkPieceData
      [[0; 1; 1; 0];
       [0; 1; 1; 0];
       [0; 0; 0; 0];
       [0; 0; 0; 0]] "#ffff00" (4, 0)
  | TypeT => mkPieceData
      [[0; 1; 0; 0];
       [1; 1; 1; 0];
       [0; 0; 0; 0];
       [0; 0; 0; 0]] "#aa00ff" (3, 0)
  | TypeS => mkPieceData
      [[0; 1; 1; 0];
       [1; 1; 0; 0];
       [0; 0; 0; 0];
       [0; 0; 0; 0]] "#00ff00" (3, 0)
  | TypeZ => mkPieceData
      [[1; 1; 0; 0];
       [0; 1; 1; 0];
       [0; 0; 0; 0];
       [0; 0; 0; 0]] "#ff0000" (3, 0)
  | TypeJ => mkPieceData
      [[1; 0; 0; 0];
       [1; 1; 1; 0];
       [0; 0; 0; 0];
       [0; 0; 0; 0]] "#0000ff" (3, 0)
  | TypeL => mkPieceData
      [[0; 0; 1; 0];
       [1; 1; 1; 0];
       [0; 0; 0; 0];
       [0; 0; 0; 0]] "#ff7f00" (3, 0)
  end.

Definition PIECE_TYPES : list PieceType :=
  [TypeI; TypeO; TypeT; TypeS; TypeZ; TypeJ; TypeL].

Module Piece.

Record t : Type := mk {
  type : PieceType;
  shape : list (list Z);
  color : string;
  x : Z;
  y : Z;
  rotation : Z
}.

(** [new Piece(type, x, y)]; an omitted coordinate ([None]) falls back to the
    spawn position of the type. *)
Definition new (ty : PieceType) (ox oy : option Z) : t :=
  let pieceData := PIECES ty in
  {| type := ty;
     shape := pd_shape pieceData;
     color := pd_color pieceData;
     x := match ox with Some v => v | None => fst (pd_spawn pieceData) end;
     y := match oy with Some v => v | None => snd (pd_spawn pieceData) end;
     rotation := 0 |}.

(** [m[r][c]] on a matrix of numbers; a missing entry reads as [0], which
    like [undefined] is falsy. *)
Definition at_ (m : list (list Z)) (r c : nat) : Z :=
  nth c (nth r m []) 0.

(** [m[r][c] = v] for indices inside the matrix. *)
Definition set_at (m : list (list Z)) (r c : nat) (v : Z) : list (list Z) :=
  JsArray.update m r (JsArray.update (nth r m []) c v).

(** The two nested [for] loops of [rotate]: every [shape[y][x]] is written
    to [rotated[x][size - 1 - y]]; both target indices are below [size]. *)
Definition rotate_shape (sh : list (list Z)) : list (list Z) :=
  let size := List.length sh in
  let rotated := repeat (repeat 0 size) size in
  fold_left
    (fun acc yy =>
       fold_left
         (fun acc' xx => set_at acc' xx (size - 1 - yy)%nat (at_ sh yy xx))
         (seq 0 size) acc)
    (seq 0 size) rotated.

(** [rotate()]: the mask is rotated and the rotation state advanced;
    [Z.rem] is JavaScript's [%]. *)
Definition rotate (p : t) : t :=
  {| type := type p;
     shape := rotate_shape (shape p);
     color := color p;
     x := x p;
     y := y p;
     rotation := Z.rem (rotation p + 1) 4 |}.

(** The template literal [`${from}->${to}`]. *)
Definition kickKey (from to : Z) : string :=
  (NilZero.string_of_int (Z.to_int from) ++ "->"
     ++ NilZero.string_of_int (Z.to_int to))%string.

Definition wallKickData_I : list (string * list (Z * Z)) :=
  [ ("0->1", [(-2, 0); (1, 0); (-2, -1); (1, 2)]);
    ("1->0", [(2, 0); (-1, 0); (2, 1); (-1, -2)]);
    ("1->2", [(-1, 0); (2, 0); (-1, 2); (2, -1)]);
    ("2->1", [(1, 0); (-2, 0); (1, -2); (-2, 1)]);
    ("2->3", [(2, 0); (-1, 0); (2, 1); (-1, -2)]);
    ("3->2", [(-2, 0); (1, 0); (-2, -1); (1, 2)]);
    ("3->0", [(1, 0); (-2, 0); (1, -2); (-2, 1)]);
    ("0->3", [(-1, 0); (2, 0); (-1, 2); (2, -1)]) ]%string.

Definition wallKickData_JLSTZ : list (string * list (Z * Z)) :=
  [ ("0->1", [(-1, 0); (-1, 1); (0, -2); (-1, -2)]);
    ("1->0", [(1, 0); (1, -1); (0, 2); (1, 2)]);
    ("1->2", [(1, 0); (1, -1); (0, 2); (1, 2)]);
    ("2->1", [(-1, 0); (-1, 1); (0, -2); (-1, -2)]);
    ("2->3", [(1, 0); (1, 1); (0, -2); (1, -2)]);
    ("3->2", [(-1, 0); (-1, -1); (0, 2); (-1, 2)]);
    ("3->0", [(-1, 0); (-1, -1); (0, 2); (-1, 2)]);
    ("0->3", [(1, 0); (1, 1); (0, -2); (1, -2)]) ]%string.

(** Property lookup [table[key]]: the first entry under the key. *)
Fixpoint lookup (key : string) (table : list (string * list (Z * Z)))
  : option (list (Z * Z)) :=
  match table with
  | [] => None
  | (k, v) :: rest => if String.eqb k key then Some v else lookup key rest
  end.

(** [getWallKickOffsets(from, to)]; [table[key] || [[0, 0]]] falls back to
    the single null offset when the key is absent. *)
Definition getWallKickOffsets (p : t) (from to : Z) : list (Z * Z) :=
  let key := kickKey from to in
  if PieceType_eqb (type p) TypeI then
    match lookup key wallKickData_I with Some l => l | None => [(0, 0)] end
  else if negb (PieceType_eqb (type p) TypeO) then
    match lookup key wallKickData_JLSTZ with Some l => l | None => [(0, 0)] end
  else [(0, 0)].

(** [copy()]: a fresh piece of the same type at the same place, with a copy
    of the mask and the same rotation state. *)
Definition copy (p : t) : t :=
  let c := new (type p) (Some (x p)) (Some (y p)) in
  {| type := type c;
     shape := shape p;
     color := color c;
     x := x c;
     y := y c;
     rotation := rotation p |}.

(** The inner loop of [getOccupiedPositions] over the cells of row [yy],
    starting at column [xx]. *)
Fixpoint rowPositions (p : t) (yy : Z) (xx : Z) (row : list Z) : list (Z * Z) :=
  match row with
  | [] => []
  | v :: rest =>
      if negb (v =? 0)
      then (x p + xx, y p + yy) :: rowPositions p yy (xx + 1) rest
      else rowPositions p yy (xx + 1) rest
  end.

(** The outer loop over the rows of the mask, starting at row [yy]. *)
Fixpoint shapePositions (p : t) (yy : Z) (rows : list (list Z)) : list (Z * Z) :=
  match rows with
  | [] => []
  | row :: rest => rowPositions p yy 0 row ++ shapePositions p (yy + 1) rest
  end.

(** [getOccupiedPositions()]: the absolute [(x, y)] of every set mask cell,
    row by row. *)
Definition getOccupiedPositions (p : t) : list (Z * Z) :=
  shapePositions p 0 (shape p).

(** The result of [getBounds()]. *)
Record Bounds : Type := mkBounds {
  minX : Z;
  maxX : Z;
  minY : Z;
  maxY : Z
}.

(** The body of the loops of [getBounds] for a set cell at local column
    [xx] and row [yy]. *)
Definition extend (acc : Bounds) (xx yy : Z) : Bounds :=
  {| minX := Z.min (minX acc) xx;
     maxX := Z.max (maxX acc) xx;
     minY := Z.min (minY acc) yy;
     maxY := Z.max (maxY acc) yy |}.

(** The inner loop of [getBounds] over the cells of row [yy], from column
    [xx] on. *)
Fixpoint boundsRow (yy xx : Z) (row : list Z) (acc : Bounds) : Bounds :=
  match row with
  | [] => acc
  | v :: rest =>
      boundsRow yy (xx + 1) rest (if negb (v =? 0) then extend acc xx yy else acc)
  end.

(** The outer loop of [getBounds] over the rows, from row [yy] on. *)
Fixpoint boundsRows (yy : Z) (rows : list (list Z)) (acc : Bounds) : Bounds :=
  match rows with
  | [] => acc
  | row :: rest => boundsRows (yy + 1) rest (boundsRow yy 0 row acc)
  end.

(** [getBounds()]: the loops start from [minX = 4, maxX = -1, minY = 4,
    maxY = -1]. *)
Definition getBounds (p : t) : Bounds :=
  boundsRows 0 (shape p) {| minX := 4; maxX := -1; minY := 4; maxY := -1 |}.

End Piece.

(** ** board.js *)

(** A grid cell holds [null] or a colour string.  [Hole] is the missing
    element a write past the end of a row would leave behind; no operation
    creates one on a grid whose rows have [width] cells. *)
Inductive Cell : Type :=
| Null
| Hole
| Color (c : string).

Module GameBoard.

Record t : Type := mk {
  width : Z;
  height : Z;
  grid : list (list Cell);
  linesToFlash : list Z
}.

(** [Array(width).fill(null)]. *)
Definition emptyRow (w : Z) : list Cell := repeat Null (Z.to_nat w).

(** [Array(height).fill().map(() => Array(width).fill(null))]. *)
Definition emptyGrid (w h : Z) : list (list Cell) :=
  repeat (emptyRow w) (Z.to_nat h).

(** [new GameBoard(width, height)]; the game calls it with the defaults
    [10] and [20]. *)
Definition new (w h : Z) : t :=
  {| width := w; height := h; grid := emptyGrid w h; linesToFlash := [] |}.

(** Truthiness of [row[i]]: [undefined] (index outside the row, or a hole),
    [null] and the empty string are falsy. *)
Definition truthy (c : option Cell) : bool :=
  match c with
  | Some (Color s) => negb (String.eqb s "")
  | _ => false
  end.

(** The callback [cell => cell !== null]. *)
Definition notNull (c : Cell) : bool :=
  match c with
  | Null => false
  | _ => true
  end.

(** [row.every(cell => cell !== null)]; [every] does not visit holes. *)
Definition rowComplete (row : list Cell) : bool := forallb notNull row.

(** [row.some(cell => cell !== null)]; [some] does not visit holes. *)
Definition rowSome (row : list Cell) : bool :=
  existsb (fun c => match c with Color _ => true | _ => false end) row.

(** The [for ... of] loop of [canPlacePiece] with its two early returns.
    Reading [grid[newY][newX]] throws when row [newY] is missing. *)
Fixpoint canPlaceLoop (b : t) (positions : list (Z * Z)) (offsetX offsetY : Z)
  : outcome bool :=
  match positions with
  | [] => Ok true
  | pos :: rest =>
      let newX := fst pos + offsetX in
      let newY := snd pos + offsetY in
      if (newX <? 0) || (newX >=? width b) || (newY >=? height b) then Ok false
      else if newY >=? 0 then
        match nth_error (grid b) (Z.to_nat newY) with
        | None => TypeError
        | Some row =>
            if truthy (nth_error row (Z.to_nat newX)) then Ok false
            else canPlaceLoop b rest offsetX offsetY
        end
      else canPlaceLoop b rest offsetX offsetY
  end.

Definition canPlacePiece (b : t) (piece : Piece.t) (offsetX offsetY : Z)
  : outcome bool :=
  canPlaceLoop b (Piece.getOccupiedPositions piece) offsetX offsetY.

(** The loop of [placePiece]: positions outside the grid are skipped. *)
Fixpoint placeLoop (w h : Z) (col : string) (positions : list (Z * Z))
  (g : list (list Cell)) : outcome (list (list Cell)) :=
  match positions with
  | [] => Ok g
  | pos :: rest =>
      let px := fst pos in
      let py := snd pos in
      if (py >=? 0) && (py <? h) && (px >=? 0) && (px <? w) then
        match nth_error g (Z.to_nat py) with
        | None => TypeError
        | Some row =>
            placeLoop w h col rest
              (JsArray.update g (Z.to_nat py)
                 (JsArray.assign Hole row (Z.to_nat px) (Color col)))
        end
      else placeLoop w h col rest g
  end.

Definition placePiece (b : t) (piece : Piece.t) : outcome t :=
  g <- placeLoop (width b) (height b) (Piece.color piece)
         (Piece.getOccupiedPositions piece) (grid b) ;;
  Ok {| width := width b; height := height b; grid := g;
        linesToFlash := linesToFlash b |}.

(** The first loop of [clearLines] over the row indices [ys]: the indices
    of the complete rows, in the order visited. *)
Fixpoint findCompleted (g : list (list Cell)) (ys : list nat) : outcome (list Z) :=
  match ys with
  | [] => Ok []
  | yy :: rest =>
      match nth_error g yy with
      | None => TypeError
      | Some row =>
          tl <- findCompleted g rest ;;
          Ok (if rowComplete row then Z.of_nat yy :: tl else tl)
      end
  end.

(** The [forEach] of [clearLines]: for each recorded index, in order, the
    row at that index is spliced out and an empty row is unshifted. *)
Definition removeLines (w : Z) (completedLines : list Z) (g : list (list Cell))
  : list (list Cell) :=
  fold_left
    (fun acc lineY =>
       JsArray.unshift (JsArray.splice1 acc (Z.to_nat lineY)) (emptyRow w))
    completedLines g.

(** [clearLines()]: the number of cleared rows and the board afterwards. *)
Definition clearLines (b : t) : outcome (Z * t) :=
  completedLines <- findCompleted (grid b) (seq 0 (Z.to_nat (height b))) ;;
  if (Z.of_nat (List.length completedLines) =? 0) then Ok (0, b)
  else
    Ok (Z.of_nat (List.length completedLines),
        {| width := width b; height := height b;
           grid := removeLines (width b) completedLines (grid b);
           linesToFlash := completedLines |}).

Definition clearFlashingLines (b : t) : t :=
  {| width := width b; height := height b; grid := grid b; linesToFlash := [] |}.

(** [isGameOver()]: reading [grid[0]] of an empty grid throws. *)
Definition isGameOver (b : t) : outcome bool :=
  match grid b with
  | [] => TypeError
  | row0 :: _ => Ok (rowSome row0)
  end.

(** The [while] loop of [getDropPosition], with an iteration budget. *)
Fixpoint dropLoop (fuel : nat) (b : t) (piece : Piece.t) (dropY : Z) : outcome Z :=
  match fuel with
  | O => OutOfFuel
  | S fuel' =>
      ok <- canPlacePiece b piece 0 (dropY - Piece.y piece + 1) ;;
      if ok then dropLoop fuel' b piece (dropY + 1) else Ok dropY
  end.

Definition getDropPosition (fuel : nat) (b : t) (piece : Piece.t) : outcome Z :=
  dropLoop fuel b piece (Piece.y piece).

Definition reset (b : t) : t :=
  {| width := width b; height := height b;
     grid := emptyGrid (width b) (height b); linesToFlash := [] |}.

Definition getFlashingLines (b : t) : list Z := linesToFlash b.

(** The methods of the class that assign to the board. *)
Inductive Method : Type :=
| PlacePiece (piece : Piece.t)
| ClearLines
| ClearFlashingLines
| Reset.

Definition call (m : Method) (b : t) : outcome t :=
  match m with
  | PlacePiece piece => placePiece b piece
  | ClearLines => ' (_, b') <- clearLines b ;; Ok b'
  | ClearFlashingLines => Ok (clearFlashingLines b)
  | Reset => Ok (reset b)
  end.

(** [isValidPosition(x, y)]: the bounds are tested before the grid is read. *)
Definition isValidPosition (b : t) (px py : Z) : outcome bool :=
  if (px >=? 0) && (px <? width b) && (py >=? 0) && (py <? height b) then
    match nth_error (grid b) (Z.to_nat py) with
    | None => TypeError
    | Some row => Ok (negb (truthy (nth_error row (Z.to_nat px))))
    end
  else Ok false.

(** [row[x]] for an integer [x]: a negative index reads [undefined], like an
    index past the end. *)
Definition readCell (row : list Cell) (px : Z) : option Cell :=
  if px <? 0 then None else nth_error row (Z.to_nat px).

(** [row[x] !== null]: [undefined] is not [null]. *)
Definition notNullAt (row : list Cell) (px : Z) : bool :=
  match readCell row px with
  | Some Null => false
  | _ => true
  end.

(** The loop of [getColumnHeight] over the row indices [ys]. *)
Fixpoint columnScan (h : Z) (g : list (list Cell)) (ys : list nat) (px : Z)
  : outcome Z :=
  match ys with
  | [] => Ok 0
  | yy :: rest =>
      match nth_error g yy with
      | None => TypeError
      | Some row =>
          if notNullAt row px then Ok (h - Z.of_nat yy)
          else columnScan h g rest px
      end
  end.

Definition getColumnHeight (b : t) (px : Z) : outcome Z :=
  columnScan (height b) (grid b) (seq 0 (Z.to_nat (height b))) px.

(** The inner loop of [getHoleCount] down column [px]. *)
Fixpoint holeScan (g : list (list Cell)) (ys : list nat) (px : Z)
  (foundBlock : bool) (holes : Z) : outcome Z :=
  match ys with
  | [] => Ok holes
  | yy :: rest =>
      match nth_error g yy with
      | None => TypeError
      | Some row =>
          if notNullAt row px then holeScan g rest px true holes
          else if foundBlock then holeScan g rest px foundBlock (holes + 1)
          else holeScan g rest px foundBlock holes
      end
  end.

(** The outer loop of [getHoleCount] over the columns [xs]. *)
Fixpoint holeColumns (g : list (list Cell)) (ys : list nat) (xs : list nat)
  (holes : Z) : outcome Z :=
  match xs with
  | [] => Ok holes
  | xx :: rest =>
      holes' <- holeScan g ys (Z.of_nat xx) false holes ;;
      holeColumns g ys rest holes'
  end.

Definition getHoleCount (b : t) : outcome Z :=
  holeColumns (grid b) (seq 0 (Z.to_nat (height b))) (seq 0 (Z.to_nat (width b))) 0.

(** The loop of [getAggregateHeight] over the columns [xs]. *)
Fixpoint heightSum (b : t) (xs : list nat) (totalHeight : Z) : outcome Z :=
  match xs with
  | [] => Ok totalHeight
  | xx :: rest =>
      hh <- getColumnHeight b (Z.of_nat xx) ;;
      heightSum b rest (totalHeight + hh)
  end.

Definition getAggregateHeight (b : t) : outcome Z :=
  heightSum b (seq 0 (Z.to_nat (width b))) 0.

(** The loop of [getBumpiness] over the columns [xs]; the height of the
    left column is read before the height of the right one. *)
Fixpoint bumpSum (b : t) (xs : list nat) (bumpiness : Z) : outcome Z :=
  match xs with
  | [] => Ok bumpiness
  | xx :: rest =>
      hl <- getColumnHeight b (Z.of_nat xx) ;;
      hr <- getColumnHeight b (Z.of_nat xx + 1) ;;
      bumpSum b rest (bumpiness + Z.abs (hl - hr))
  end.

Definition getBumpiness (b : t) : outcome Z :=
  bumpSum b (seq 0 (Z.to_nat (width b - 1))) 0.

End GameBoard.

(** ** tetris.js *)

(** The score is the one number of the session that can leave the integers:
    [baseScores[n]] is [undefined] for [n > 4], and [undefined * level] is
    [NaN], which every later addition keeps. *)
Inductive Num : Type :=
| Number (z : Z)
| NaN.

Definition Num_add (a : Num) (b : Num) : Num :=
  match a, b with
  | Number u, Number v => Number (u + v)
  | _, _ => NaN
  end.

Definition Num_mul (a : Num) (b : Num) : Num :=
  match a, b with
  | Number u, Number v => Number (u * v)
  | _, _ => NaN
  end.

Module TetrisGame.

(** The session state.  The renderer, the input handler, the page elements
    and the animation-frame handle are outside the model. *)
Record t : Type := mk {
  board : GameBoard.t;
  currentPiece : option Piece.t;
  nextPiece : option Piece.t;
  isRunning : bool;
  isPaused : bool;
  isGameOver : bool;
  score : Num;
  lines : Z;
  level : Z;
  combo : Z;
  dropTimer : float;
  lastTime : float;
  dropInterval : float;
  lockTimer : float;
  lockDelay : float;
  isLocking : bool;
  lineFlashTimer : float;
  lineFlashDuration : float
}.

(** Field assignments [this.f = v]. *)

Definition set_board (v : GameBoard.t) (g : t) : t :=
  mk v (currentPiece g) (nextPiece g) (isRunning g) (isPaused g)
     (isGameOver g) (score g) (lines g) (level g) (combo g) (dropTimer g)
     (lastTime g) (dropInterval g) (lockTimer g) (lockDelay g) (isLocking
     g) (lineFlashTimer g) (lineFlashDuration g).

Definition set_currentPiece (v : option Piece.t) (g : t) : t :=
  mk (board g) v (nextPiece g) (isRunning g) (isPaused g) (isGameOver g)
     (score g) (lines g) (level g) (combo g) (dropTimer g) (lastTime g)
     (dropInterval g) (lockTimer g) (lockDelay g) (isLocking g)
     (lineFlashTimer g) (lineFlashDuration g).

Definition set_nextPiece (v : option Piece.t) (g : t) : t :=
  mk (board g) (currentPiece g) v (isRunning g) (isPaused g) (isGameOver
     g) (score g) (lines g) (level g) (combo g) (dropTimer g) (lastTime g)
     (dropInterval g) (lockTimer g) (lockDelay g) (isLocking g)
     (lineFlashTimer g) (lineFlashDuration g).

Definition set_isRunning (v : bool) (g : t) : t :=
  mk (board g) (currentPiece g) (nextPiece g) v (isPaused g) (isGameOver
     g) (score g) (lines g) (level g) (combo g) (dropTimer g) (lastTime g)
     (dropInterval g) (lockTimer g) (lockDelay g) (isLocking g)
     (lineFlashTimer g) (lineFlashDuration g).

Definition set_isPaused (v : bool) (g : t) : t :=
  mk (board g) (currentPiece g) (nextPiece g) (isRunning g) v (isGameOver
     g) (score g) (lines g) (level g) (combo g) (dropTimer g) (lastTime g)
     (dropInterval g) (lockTimer g) (lockDelay g) (isLocking g)
     (lineFlashTimer g) (lineFlashDuration g).

Definition set_isGameOver (v : bool) (g : t) : t :=
  mk (board g) (currentPiece g) (nextPiece g) (isRunning g) (isPaused g) v
     (score g) (lines g) (level g) (combo g) (dropTimer g) (lastTime g)
     (dropInterval g) (lockTimer g) (lockDelay g) (isLocking g)
     (lineFlashTimer g) (lineFlashDuration g).

Definition set_score (v : Num) (g : t) : t :=
  mk (board g) (currentPiece g) (nextPiece g) (isRunning g) (isPaused g)
     (isGameOver g) v (lines g) (level g) (combo g) (dropTimer g)
     (lastTime g) (dropInterval g) (lockTimer g) (lockDelay g) (isLocking
     g) (lineFlashTimer g) (lineFlashDuration g).

Definition set_lines (v : Z) (g : t) : t :=
  mk (board g) (currentPiece g) (nextPiece g) (isRunning g) (isPaused g)
     (isGameOver g) (score g) v (level g) (combo g) (dropTimer g)
     (lastTime g) (dropInterval g) (lockTimer g) (lockDelay g) (isLocking
     g) (lineFlashTimer g) (lineFlashDuration g).

Definition set_level (v : Z) (g : t) : t :=
  mk (board g) (currentPiece g) (nextPiece g) (isRunning g) (isPaused g)
     (isGameOver g) (score g) (lines g) v (combo g) (dropTimer g)
     (lastTime g) (dropInterval g) (lockTimer g) (lockDelay g) (isLocking
     g) (lineFlashTimer g) (lineFlashDuration g).

Definition set_combo (v : Z) (g : t) : t :=
  mk (board g) (currentPiece g) (nextPiece g) (isRunning g) (isPaused g)
     (isGameOver g) (score g) (lines g) (level g) v (dropTimer g)
     (lastTime g) (dropInterval g) (lockTimer g) (lockDelay g) (isLocking
     g) (lineFlashTimer g) (lineFlashDuration g).

Definition set_dropTimer (v : float) (g : t) : t :=
  mk (board g) (currentPiece g) (nextPiece g) (isRunning g) (isPaused g)
     (isGameOver g) (score g) (lines g) (level g) (combo g) v (lastTime g)
     (dropInterval g) (lockTimer g) (lockDelay g) (isLocking g)
     (lineFlashTimer g) (lineFlashDuration g).

Definition set_lastTime (v : float) (g : t) : t :=
  mk (board g) (currentPiece g) (nextPiece g) (isRunning g) (isPaused g)
     (isGameOver g) (score g) (lines g) (level g) (combo g) (dropTimer g)
     v (dropInterval g) (lockTimer g) (lockDelay g) (isLocking g)
     (lineFlashTimer g) (lineFlashDuration g).

Definition set_dropInterval (v : float) (g : t) : t :=
  mk (board g) (currentPiece g) (nextPiece g) (isRunning g) (isPaused g)
     (isGameOver g) (score g) (lines g) (level g) (combo g) (dropTimer g)
     (lastTime g) v (lockTimer g) (lockDelay g) (isLocking g)
     (lineFlashTimer g) (lineFlashDuration g).

Definition set_lockTimer (v : float) (g : t) : t :=
  mk (board g) (currentPiece g) (nextPiece g) (isRunning g) (isPaused g)
     (isGameOver g) (score g) (lines g) (level g) (combo g) (dropTimer g)
     (lastTime g) (dropInterval g) v (lockDelay g) (isLocking g)
     (lineFlashTimer g) (lineFlashDuration g).

Definition set_isLocking (v : bool) (g : t) : t :=
  mk (board g) (currentPiece g) (nextPiece g) (isRunning g) (isPaused g)
     (isGameOver g) (score g) (lines g) (level g) (combo g) (dropTimer g)
     (lastTime g) (dropInterval g) (lockTimer g) (lockDelay g) v
     (lineFlashTimer g) (lineFlashDuration g).

Definition set_lineFlashTimer (v : float) (g : t) : t :=
  mk (board g) (currentPiece g) (nextPiece g) (isRunning g) (isPaused g)
     (isGameOver g) (score g) (lines g) (level g) (combo g) (dropTimer g)
     (lastTime g) (dropInterval g) (lockTimer g) (lockDelay g) (isLocking
     g) v (lineFlashDuration g).

(** [getLevelDropInterval()]: frames at 60 fps converted to milliseconds,
    computed in binary64 as [(frames / 60) * 1000]. *)
Definition getLevelDropInterval (lvl : Z) : float :=
  let frames := Z.max 1 (48 - (lvl - 1) * 5) in
  PrimFloat.mul
    (PrimFloat.div (PrimFloat.of_uint63 (Uint63.of_Z frames)) 60%float)
    1000%float.

(** [generateNextPiece()]; [ty] is the type drawn by [Piece.getRandomType()]. *)
Definition generateNextPiece (ty : PieceType) (g : t) : t :=
  set_nextPiece (Some (Piece.new ty None None)) g.

Definition spawnNewPiece (ty : PieceType) (g : t) : t :=
  generateNextPiece ty (set_currentPiece (nextPiece g) g).

(** The constructor; [ty1] and [ty2] are the two random draws it makes. *)
Definition new (ty1 ty2 : PieceType) : t :=
  let g0 :=
    {| board := GameBoard.new 10 20;
       currentPiece := None;
       nextPiece := None;
       isRunning := false;
       isPaused := false;
       isGameOver := false;
       score := Number 0;
       lines := 0;
       level := 1;
       combo := 0;
       dropTimer := 0%float;
       lastTime := 0%float;
       dropInterval := getLevelDropInterval 1;
       lockTimer := 0%float;
       lockDelay := 500%float;
       isLocking := false;
       lineFlashTimer := 0%float;
       lineFlashDuration := 300%float |} in
  spawnNewPiece ty2 (generateNextPiece ty1 g0).

Definition startLocking (g : t) : t :=
  if negb (isLocking g)
  then set_lockTimer (lockDelay g) (set_isLocking true g)
  else g.

Definition resetLockTimer (g : t) : t :=
  set_lockTimer 0%float (set_isLocking false g).

Definition gameOver (g : t) : t :=
  set_isRunning false (set_isGameOver true g).

Definition baseScores : list Z := [0; 40; 100; 300; 1200].

(** [baseScores[linesCleared] * this.level]. *)
Definition baseScore (linesCleared lvl : Z) : Num :=
  if linesCleared <? 0 then NaN
  else match nth_error baseScores (Z.to_nat linesCleared) with
       | Some v => Number (v * lvl)
       | None => NaN
       end.

Definition handleLinesCleared (linesCleared : Z) (g : t) : t :=
  let g1 := set_lines (lines g + linesCleared) g in
  let g2 := set_combo (combo g1 + 1) g1 in
  let lineScore := baseScore linesCleared (level g2) in
  let lineScore :=
    if combo g2 >? 1
    then Num_add lineScore (Number (50 * combo g2 * level g2))
    else lineScore in
  let g3 := set_score (Num_add (score g2) lineScore) g2 in
  let newLevel := lines g3 / 10 + 1 in
  if newLevel >? level g3
  then let g4 := set_level newLevel g3 in
       set_dropInterval (getLevelDropInterval (level g4)) g4
  else g3.

(** [lockPiece()]; [ty] is the random draw of the spawn. *)
Definition lockPiece (ty : PieceType) (g : t) : outcome t :=
  match currentPiece g with
  | None => Ok g
  | Some cur =>
      b1 <- GameBoard.placePiece (board g) cur ;;
      ' (linesCleared, b2) <- GameBoard.clearLines b1 ;;
      let g1 := set_board b2 g in
      let g2 :=
        if linesCleared >? 0
        then let h := handleLinesCleared linesCleared g1 in
             set_lineFlashTimer (lineFlashDuration h) h
        else set_combo 0 g1 in
      let g3 := resetLockTimer g2 in
      let g4 := spawnNewPiece ty g3 in
      over <- GameBoard.isGameOver (board g4) ;;
      if over then Ok (gameOver g4)
      else match currentPiece g4 with
           | None => TypeError
           | Some q =>
               ok <- GameBoard.canPlacePiece (board g4) q 0 0 ;;
               Ok (if negb ok then gameOver g4 else g4)
           end
  end.

(** [moveCurrentPiece(dx, dy)]: the returned flag and the state afterwards. *)
Definition moveCurrentPiece (dx dy : Z) (g : t) : outcome (bool * t) :=
  match currentPiece g with
  | None => Ok (false, g)
  | Some cur =>
      if isGameOver g then Ok (false, g)
      else
        ok <- GameBoard.canPlacePiece (board g) cur dx dy ;;
        if ok then
          let moved :=
            Piece.mk (Piece.type cur) (Piece.shape cur) (Piece.color cur)
              (Piece.x cur + dx) (Piece.y cur + dy) (Piece.rotation cur) in
          let g1 := set_currentPiece (Some moved) g in
          let g2 := if negb (dx =? 0) then resetLockTimer g1 else g1 in
          if dy >? 0 then
            below <- GameBoard.canPlacePiece (board g2) moved 0 1 ;;
            Ok (true, if negb below then startLocking g2 else g2)
          else Ok (true, g2)
        else if dy >? 0 then Ok (false, startLocking g)
        else Ok (false, g)
  end.

Definition movePiece (dx dy : Z) (g : t) : outcome t :=
  ' (_, g') <- moveCurrentPiece dx dy g ;; Ok g'.

(** The assignments made when a rotation is accepted at offset [(dx, dy)]:
    the current piece itself is rotated and moved, and the lock countdown is
    reset. *)
Definition commitRotation (cur : Piece.t) (dx dy : Z) (g : t) : t :=
  let r := Piece.rotate cur in
  let r' :=
    Piece.mk (Piece.type r) (Piece.shape r) (Piece.color r)
      (Piece.x r + dx) (Piece.y r + dy) (Piece.rotation r) in
  resetLockTimer (set_currentPiece (Some r') g).

(** The [for ... of] loop of [rotatePiece] over the wall-kick offsets. *)
Fixpoint kickLoop (cur piece : Piece.t) (wallKicks : list (Z * Z)) (g : t)
  : outcome t :=
  match wallKicks with
  | [] => Ok g
  | (dx, dy) :: rest =>
      ok <- GameBoard.canPlacePiece (board g) piece dx dy ;;
      if ok then Ok (commitRotation cur dx dy g)
      else kickLoop cur piece rest g
  end.

Definition rotatePiece (g : t) : outcome t :=
  match currentPiece g with
  | None => Ok g
  | Some cur =>
      if isGameOver g then Ok g
      else
        let originalRotation := Piece.rotation cur in
        let piece := Piece.rotate (Piece.copy cur) in
        ok <- GameBoard.canPlacePiece (board g) piece 0 0 ;;
        if ok then
          Ok (resetLockTimer (set_currentPiece (Some (Piece.rotate cur)) g))
        else
          let fromRotation := originalRotation in
          let toRotation := Piece.rotation piece in
          let wallKicks := Piece.getWallKickOffsets piece fromRotation toRotation in
          kickLoop cur piece wallKicks g
  end.

Definition softDrop (g : t) : outcome t :=
  ' (moved, g') <- moveCurrentPiece 0 1 g ;;
  Ok (if (moved : bool) then set_score (Num_add (score g') (Number 1)) g' else g').

(** [hardDrop()]; [fuel] bounds each of the two [getDropPosition] loops. *)
Definition hardDrop (fuel : nat) (ty : PieceType) (g : t) : outcome t :=
  match currentPiece g with
  | None => Ok g
  | Some cur =>
      if isGameOver g then Ok g
      else
        landing <- GameBoard.getDropPosition fuel (board g) cur ;;
        let dropDistance := landing - Piece.y cur in
        landing' <- GameBoard.getDropPosition fuel (board g) cur ;;
        let dropped :=
          Piece.mk (Piece.type cur) (Piece.shape cur) (Piece.color cur)
            (Piece.x cur) landing' (Piece.rotation cur) in
        let g1 := set_currentPiece (Some dropped) g in
        let g2 := set_score (Num_add (score g1) (Number (dropDistance * 2))) g1 in
        lockPiece ty g2
  end.

(** [update(deltaTime)]; [ty] is the draw used if the tick locks a piece. *)
Definition update (deltaTime : float) (ty : PieceType) (g : t) : outcome t :=
  if isGameOver g then Ok g
  else if PrimFloat.ltb 0%float (lineFlashTimer g) then
    let g1 := set_lineFlashTimer (PrimFloat.sub (lineFlashTimer g) deltaTime) g in
    if PrimFloat.leb (lineFlashTimer g1) 0%float
    then Ok (set_board (GameBoard.clearFlashingLines (board g1)) g1)
    else Ok g1
  else
    let g1 :=
      if isLocking g
      then set_lockTimer (PrimFloat.sub (lockTimer g) deltaTime) g
      else g in
    if isLocking g && PrimFloat.leb (lockTimer g1) 0%float then lockPiece ty g1
    else
      let g2 := set_dropTimer (PrimFloat.add (dropTimer g1) deltaTime) g1 in
      if PrimFloat.leb (dropInterval g2) (dropTimer g2)
      then ' (_, g3) <- moveCurrentPiece 0 1 (set_dropTimer 0%float g2) ;; Ok g3
      else Ok g2.

(** One run of [gameLoop()]; [now] is the reading of [performance.now()].
    The next run is requested from the animation-frame scheduler. *)
Definition gameLoop (now : float) (ty : PieceType) (g : t) : outcome t :=
  if negb (isRunning g) || isPaused g then Ok g
  else
    let deltaTime := PrimFloat.sub now (lastTime g) in
    update deltaTime ty (set_lastTime now g).

Definition restart (ty1 ty2 : PieceType) (g : t) : t :=
  let g := set_isGameOver false (set_isPaused false (set_isRunning false g)) in
  let g := set_board (GameBoard.reset (board g)) g in
  let g := set_combo 0 (set_level 1 (set_lines 0 (set_score (Number 0) g))) in
  let g := set_lineFlashTimer 0%float
             (set_isLocking false (set_lockTimer 0%float (set_dropTimer 0%float g))) in
  let g := set_dropInterval (getLevelDropInterval (level g)) g in
  spawnNewPiece ty2 (generateNextPiece ty1 g).

Definition start (now now' : float) (ty1 ty2 : PieceType) (g : t) : outcome t :=
  if isGameOver g then Ok (restart ty1 ty2 g)
  else if negb (isRunning g) then
    gameLoop now' ty1
      (set_lastTime now (set_isPaused false (set_isRunning true g)))
  else Ok g.

Definition togglePause (now now' : float) (ty : PieceType) (g : t) : outcome t :=
  if negb (isRunning g) then Ok g
  else
    let g1 := set_isPaused (negb (isPaused g)) g in
    if negb (isPaused g1) then gameLoop now' ty (set_lastTime now g1)
    else Ok g1.

(** The calls that reach a session from outside: the buttons, the input
    handler and the animation-frame scheduler, each with the clock readings
    and random draws the call consumes. *)
Inductive Command : Type :=
| Start (now now' : float) (ty1 ty2 : PieceType)
| TogglePause (now now' : float) (ty : PieceType)
| Restart (ty1 ty2 : PieceType)
| Frame (now : float) (ty : PieceType)
| MovePiece (dx dy : Z)
| RotatePiece
| SoftDrop
| HardDrop (fuel : nat) (ty : PieceType).

Definition run (c : Command) (g : t) : outcome t :=
  match c with
  | Start now now' ty1 ty2 => start now now' ty1 ty2 g
  | TogglePause now now' ty => togglePause now now' ty g
  | Restart ty1 ty2 => Ok (restart ty1 ty2 g)
  | Frame now ty => gameLoop now ty g
  | MovePiece dx dy => movePiece dx dy g
  | RotatePiece => rotatePiece g
  | SoftDrop => softDrop g
  | HardDrop fuel ty => hardDrop fuel ty g
  end.

(** A session: the states reached from a freshly constructed game by calls
    that return normally. *)
Inductive reachable : t -> Prop :=
| reachable_new : forall ty1 ty2, reachable (new ty1 ty2)
| reachable_run : forall c g g',
    reachable g -> run c g = Ok g' -> reachable g'.

End TetrisGame.

(** ** Vocabulary of the specification *)

(** The grid has [height] rows of [width] cells each. *)
Definition shaped (b : GameBoard.t) : bool :=
  (0 <=? GameBoard.width b) && (0 <=? GameBoard.height b)
  && (List.length (GameBoard.grid b) =? Z.to_nat (GameBoard.height b))%nat
  && forallb (fun row => (List.length row =? Z.to_nat (GameBoard.width b))%nat)
       (GameBoard.grid b).

(** A cell is empty or carries a valid (non-empty) colour. *)
Definition validCell (c : Cell) : bool :=
  match c with
  | Null => true
  | Hole => false
  | Color s => negb (String.eqb s "")
  end.

(** A well-formed board: the right shape, and valid cells only. *)
Definition wellFormed (b : GameBoard.t) : bool :=
  shaped b && forallb (forallb validCell) (GameBoard.grid b).

(** The board of the game: ten columns, twenty rows. *)
Definition standard (b : GameBoard.t) : bool :=
  wellFormed b && (GameBoard.width b =? 10) && (GameBoard.height b =? 20).

(** The cell at column [cx] of row [cy], when there is one. *)
Definition cellAt (b : GameBoard.t) (cx cy : Z) : option Cell :=
  if (cx <? 0) || (cy <? 0) then None
  else match nth_error (GameBoard.grid b) (Z.to_nat cy) with
       | Some row => nth_error row (Z.to_nat cx)
       | None => None
       end.

(** An occupied grid cell is one that holds a colour. *)
Definition occupied (b : GameBoard.t) (cx cy : Z) : Prop :=
  exists s, cellAt b cx cy = Some (Color s).

Definition isOccupied (c : Cell) : bool :=
  match c with
  | Color _ => true
  | _ => false
  end.

(** A complete row: every cell is occupied. *)
Definition fullRow (row : list Cell) : bool := forallb isOccupied row.

(** The indices of the complete rows among [rows], numbered from [i], in
    ascending order. *)
Fixpoint fullRowsFrom (i : nat) (rows : list (list Cell)) : list Z :=
  match rows with
  | [] => []
  | row :: rest =>
      if fullRow row then Z.of_nat i :: fullRowsFrom (S i) rest
      else fullRowsFrom (S i) rest
  end.

Definition completeRows (b : GameBoard.t) : list Z :=
  fullRowsFrom 0 (GameBoard.grid b).

(** The rows that are not complete, in their original order. *)
Definition keptRows (rows : list (list Cell)) : list (list Cell) :=
  filter (fun row => negb (fullRow row)) rows.

(** [canPlacePiece] as a yes/no answer. *)
Definition fits (b : GameBoard.t) (p : Piece.t) (dx dy : Z) : bool :=
  match GameBoard.canPlacePiece b p dx dy with
  | Ok true => true
  | _ => false
  end.

(** A four-by-four mask. *)
Definition mask4 (sh : list (list Z)) : Prop :=
  List.length sh = 4%nat /\ Forall (fun row => List.length row = 4%nat) sh.

(** The mask has a set cell at row [r], column [c]. *)
Definition maskSet (p : Piece.t) (r c : nat) : Prop :=
  exists row v, nth_error (Piece.shape p) r = Some row
                /\ nth_error row c = Some v /\ v <> 0.

(** A piece moved to another place. *)
Definition movedTo (p : Piece.t) (nx ny : Z) : Piece.t :=
  Piece.mk (Piece.type p) (Piece.shape p) (Piece.color p) nx ny (Piece.rotation p).

(** [n] successive rotations. *)
Fixpoint rotateTimes (n : nat) (p : Piece.t) : Piece.t :=
  match n with
  | O => p
  | S n' => rotateTimes n' (Piece.rotate p)
  end.

(** What the collision loop requires of one position. *)
Definition clearAt (b : GameBoard.t) (offsetX offsetY : Z) (pos : Z * Z) : Prop :=
  0 <= fst pos + offsetX < GameBoard.width b
  /\ snd pos + offsetY < GameBoard.height b
  /\ (0 <= snd pos + offsetY ->
      GameBoard.truthy (cellAt b (fst pos + offsetX) (snd pos + offsetY)) = false).

(** [k] is the maximal downward offset at which the piece still fits, with
    every step from the current position down to it fitting too. *)
Definition dropOffset (b : GameBoard.t) (p : Piece.t) (k : Z) : Prop :=
  0 <= k
  /\ (forall j, 0 <= j <= k -> fits b p 0 j = true)
  /\ fits b p 0 (k + 1) = false.

(** The rotation the specification describes: the rotated piece is tried in
    place and then at each offset of [kicks] in order; the first placement that
    fits is committed, and without one the state is unchanged. *)
Definition rotateWithKicks (kicks : list (Z * Z)) (cur : Piece.t) (g : TetrisGame.t)
  : TetrisGame.t :=
  let piece := Piece.rotate (Piece.copy cur) in
  let commit dx dy :=
    TetrisGame.resetLockTimer
      (TetrisGame.set_currentPiece
         (Some (Piece.mk (Piece.type cur) (Piece.rotate_shape (Piece.shape cur))
                  (Piece.color cur) (Piece.x cur + dx) (Piece.y cur + dy)
                  (Z.rem (Piece.rotation cur + 1) 4)))
         g) in
  if fits (TetrisGame.board g) piece 0 0 then commit 0 0
  else
    match find (fun d => fits (TetrisGame.board g) piece (fst d) (snd d)) kicks with
    | Some d => commit (fst d) (snd d)
    | None => g
    end.

Definition gridOk (w h : Z) (g : list (list Cell)) : Prop :=
  0 <= w /\ 0 <= h /\ List.length g = Z.to_nat h
  /\ Forall (fun row => List.length row = Z.to_nat w
                        /\ forallb validCell row = true) g.

(** The base score of a clear of [n] lines. *)
Definition lineBase (n : Z) : Z :=
  if n =? 1 then 40
  else if n =? 2 then 100
  else if n =? 3 then 300
  else if n =? 4 then 1200
  else 0.

(** The points of a clear of [n] lines at level [lvl] when the combo counter,
    already incremented, is [combo]. *)
Definition lineScore (n lvl combo : Z) : Z :=
  lineBase n * lvl + (if 1 <? combo then 50 * combo * lvl else 0).

(** The state of the session after the board work and the scoring of a lock
    that cleared [n] lines and left the board [b2]. *)
Definition scored (n : Z) (b2 : GameBoard.t) (g : TetrisGame.t) : TetrisGame.t :=
  if n >? 0
  then let h := TetrisGame.handleLinesCleared n (TetrisGame.set_board b2 g) in
       TetrisGame.set_lineFlashTimer (TetrisGame.lineFlashDuration h) h
  else TetrisGame.set_combo 0 (TetrisGame.set_board b2 g).

(** The end of the lock sequence: the lock countdown is reset, the queued
    piece becomes current, and the game-over test is made. *)
Definition spawnAfterLock (ty : PieceType) (g2 : TetrisGame.t)
  : outcome TetrisGame.t :=
  let g4 := TetrisGame.spawnNewPiece ty (TetrisGame.resetLockTimer g2) in
  over <- GameBoard.isGameOver (TetrisGame.board g4) ;;
  if over then Ok (TetrisGame.gameOver g4)
  else match TetrisGame.currentPiece g4 with
       | None => TypeError
       | Some q =>
           ok <- GameBoard.canPlacePiece (TetrisGame.board g4) q 0 0 ;;
           Ok (if negb ok then TetrisGame.gameOver g4 else g4)
       end.

(** The session right after the teleport to row [landing] and the award of
    two points per row, before the lock sequence. *)
Definition droppedTo (landing : Z) (cur : Piece.t) (g : TetrisGame.t) : TetrisGame.t :=
  TetrisGame.set_score
    (Num_add (TetrisGame.score g) (Number (2 * (landing - Piece.y cur))))
    (TetrisGame.set_currentPiece
       (Some (movedTo cur (Piece.x cur) landing)) g).

(** The level and the drop interval follow the lines counter. *)
Definition tracks (g : TetrisGame.t) : Prop :=
  TetrisGame.level g = TetrisGame.lines g / 10 + 1
  /\ TetrisGame.dropInterval g = TetrisGame.getLevelDropInterval (TetrisGame.level g).

(** The lines counter, the level and the drop interval are untouched. *)
Definition sameStats (g g' : TetrisGame.t) : Prop :=
  TetrisGame.lines g' = TetrisGame.lines g
  /\ TetrisGame.level g' = TetrisGame.level g
  /\ TetrisGame.dropInterval g' = TetrisGame.dropInterval g.

(** One step of progress inside a session. *)
Definition advances (g g' : TetrisGame.t) : Prop :=
  tracks g -> tracks g' /\ TetrisGame.level g <= TetrisGame.level g'.

Ltac step_outcome H :=
  match type of H with
  | Ok _ = Ok _ => injection H as H; try subst
  | bind ?m _ = Ok _ =>
      let E := fresh "E" in
      destruct m eqn:E; cbn [bind] in H; try discriminate H
  | (match ?c with _ => _ end) = Ok _ =>
      let E := fresh "E" in destruct c eqn:E; try discriminate H
  end.

Ltac stats_done :=
  unfold sameStats, TetrisGame.startLocking, TetrisGame.resetLockTimer,
    TetrisGame.commitRotation;
  repeat match goal with
         | |- context [if ?c then _ else _] => destruct c
         end;
  repeat split; reflexivity.

(** A standard board whose bottom row alone is complete. *)
Definition bottomRowFull : GameBoard.t :=
  GameBoard.mk 10 20
    (repeat (GameBoard.emptyRow 10) 19 ++ [repeat (Color "#00ffff") 10]) [].

(** The board [clearLines] leaves behind on [bottomRowFull]: an empty grid
    with row 19 in the flash record. *)
Definition staleBoard : GameBoard.t :=
  GameBoard.mk 10 20 (GameBoard.emptyGrid 10 20) [19].

(** C1 as it is written, for one board: whatever [clearLines] returns, the
    flash record afterwards holds the indices of the complete rows. *)
Definition recordsFlash (b : GameBoard.t) : Prop :=
  forall n b', GameBoard.clearLines b = Ok (n, b') ->
               GameBoard.linesToFlash b' = completeRows b.

(** C3 as it is written, for one piece on one board: what [getDropPosition]
    returns is the maximal downward offset at which the piece fits. *)
Definition returnsOffset (b : GameBoard.t) (p : Piece.t) : Prop :=
  forall fuel r, GameBoard.getDropPosition fuel b p = Ok r -> dropOffset b p r.

(** C8 as it is written, for one piece: four rotations give back the mask
    and leave the piece in rotation state 0. *)
Definition backInStateZero (p : Piece.t) : Prop :=
  Piece.shape (rotateTimes 4 p) = Piece.shape p
  /\ Piece.rotation (rotateTimes 4 p) = 0.

(** A T piece that has been rotated once since its creation. *)
Definition tRotatedOnce : Piece.t := Piece.rotate (Piece.new TypeT None None).

(** A T piece five rows below the top of an empty board. *)
Definition tAtFive : Piece.t := Piece.new TypeT None (Some 5).

(** A T piece against the right wall. *)
Definition tAtWall : TetrisGame.t :=
  TetrisGame.set_currentPiece (Some (Piece.new TypeT (Some 7) (Some 5)))
    (TetrisGame.new TypeT TypeO).

(** Rows 16 to 19 complete but for column 0. *)
Definition fourAlmostFull : GameBoard.t :=
  GameBoard.mk 10 20
    (repeat (GameBoard.emptyRow 10) 16
     ++ repeat (Null :: repeat (Color "#ff0000") 9) 4) [].

(** An upright I piece over column 0, at level 3 after one clearing lock. *)
Definition tetrisReady : TetrisGame.t :=
  TetrisGame.set_combo 1
    (TetrisGame.set_level 3
       (TetrisGame.set_lines 20
          (TetrisGame.set_board fourAlmostFull
             (TetrisGame.set_currentPiece
                (Some (Piece.rotate (Piece.new TypeI (Some (-2)) (Some 16))))
                (TetrisGame.new TypeI TypeO))))).

(** The bounds after the cells of [cells] (local column and row) have been
    taken into account one after the other. *)
Definition boundsOver (cells : list (Z * Z)) (acc : Piece.Bounds) : Piece.Bounds :=
  fold_left (fun a c => Piece.extend a (fst c) (snd c)) cells acc.

(** The number of set cells of a mask row. *)
Fixpoint countSet (row : list Z) : nat :=
  match row with
  | [] => 0
  | v :: rest => (if negb (v =? 0) then 1 else 0) + countSet rest
  end.

(** The offset that undoes [d]. *)
Definition opposite (d : Z * Z) : Z * Z := (- fst d, - snd d).

(** A position lies on the grid. *)
Definition onGrid (b : GameBoard.t) (pos : Z * Z) : Prop :=
  0 <= fst pos < GameBoard.width b /\ 0 <= snd pos < GameBoard.height b.

(** The rows and columns of a grid have the given numbers. *)
Definition gridShape (w h : Z) (g : list (list Cell)) : Prop :=
  List.length g = Z.to_nat h
  /\ Forall (fun row => List.length row = Z.to_nat w) g.

(** The cell of a grid at column [cx] of row [cy], when there is one. *)
Definition gridCell (g : list (list Cell)) (cx cy : Z) : option Cell :=
  if (cx <? 0) || (cy <? 0) then None
  else match nth_error g (Z.to_nat cy) with
       | Some row => nth_error row (Z.to_nat cx)
       | None => None
       end.

(** The number of occupied cells of a grid. *)
Definition occupiedCells (g : list (list Cell)) : Z :=
  Z.of_nat (list_sum (map (fun row => List.length (filter isOccupied row)) g)).

(** The height of the stack in column [px] of the rows [rows]: the number of
    rows from the first one whose cell is not [null] down to the last. *)
Fixpoint stackRows (rows : list (list Cell)) (px : Z) : nat :=
  match rows with
  | [] => 0
  | row :: rest =>
      if GameBoard.notNullAt row px then List.length rows else stackRows rest px
  end.

(** The number of rows whose cell in column [px] is not [null]. *)
Definition blocksRows (rows : list (list Cell)) (px : Z) : nat :=
  List.length (filter (fun row => GameBoard.notNullAt row px) rows).

(** The number of rows whose cell in column [px] is [null] and that come
    after a row whose cell is not, or after the start when [found] holds. *)
Fixpoint holesRows (rows : list (list Cell)) (px : Z) (found : bool) : nat :=
  match rows with
  | [] => 0
  | row :: rest =>
      if GameBoard.notNullAt row px then holesRows rest px true
      else if found then S (holesRows rest px found)
      else holesRows rest px found
  end.

(** The height [getColumnHeight] returns, 0 when it throws. *)
Definition heightOf (b : GameBoard.t) (px : Z) : Z :=
  match GameBoard.getColumnHeight b px with
  | Ok v => v
  | _ => 0
  end.

(** The sum of a list of integers. *)
Definition sumZ (l : list Z) : Z := fold_right Z.add 0 l.

(** A position moved by [(dx, dy)]. *)
Definition shift (dx dy : Z) (pos : Z * Z) : Z * Z := (fst pos + dx, snd pos + dy).

(** A tetromino as the game builds them: a four-by-four mask with four set
    cells, the colour of its type, a rotation state in 0..3. *)
Definition goodPiece (p : Piece.t) : Prop :=
  mask4 (Piece.shape p)
  /\ List.length (Piece.getOccupiedPositions p) = 4%nat
  /\ Piece.color p = pd_color (PIECES (Piece.type p))
  /\ 0 <= Piece.rotation p < 4.

(** The score as an integer, 0 for [NaN]. *)
Definition scoreOf (g : TetrisGame.t) : Z :=
  match TetrisGame.score g with
  | Number s => s
  | NaN => 0
  end.

(** What holds of a session whatever happens to the current piece. *)
Definition steady (g : TetrisGame.t) : Prop :=
  standard (TetrisGame.board g) = true
  /\ completeRows (TetrisGame.board g) = []
  /\ (exists cur, TetrisGame.currentPiece g = Some cur /\ goodPiece cur)
  /\ (exists nxt, TetrisGame.nextPiece g = Some nxt /\ goodPiece nxt
                  /\ Piece.x nxt = fst (pd_spawn (PIECES (Piece.type nxt)))
                  /\ Piece.y nxt = snd (pd_spawn (PIECES (Piece.type nxt))))
  /\ 0 <= TetrisGame.lines g
  /\ 1 <= TetrisGame.level g
  /\ 0 <= TetrisGame.combo g
  /\ (exists s, TetrisGame.score g = Number s /\ 0 <= s)
  /\ TetrisGame.lockDelay g = 500%float
  /\ TetrisGame.lineFlashDuration g = 300%float
  /\ (TetrisGame.isGameOver g = true -> TetrisGame.isRunning g = false).

(** While the game is not over the current piece fits where it is. *)
Definition pieceFits (g : TetrisGame.t) : Prop :=
  TetrisGame.isGameOver g = false ->
  exists cur, TetrisGame.currentPiece g = Some cur
              /\ fits (TetrisGame.board g) cur 0 0 = true.

(** The invariant of a session. *)
Definition sound (g : TetrisGame.t) : Prop := steady g /\ pieceFits g.

(** Some cell of row 0 holds a colour. *)
Definition topOccupied (b : GameBoard.t) : bool :=
  match GameBoard.grid b with
  | row0 :: _ => GameBoard.rowSome row0
  | [] => false
  end.

(** The session after a move attempt by [(dx, dy)] of the current piece
    [cur]: the moved piece and the lock countdown when the piece fits at the
    offset, the lock countdown alone when it does not. *)
Definition afterMove (dx dy : Z) (cur : Piece.t) (g : TetrisGame.t) : TetrisGame.t :=
  if fits (TetrisGame.board g) cur dx dy then
    let moved := movedTo cur (Piece.x cur + dx) (Piece.y cur + dy) in
    let g1 := TetrisGame.set_currentPiece (Some moved) g in
    let g2 := if negb (dx =? 0) then TetrisGame.resetLockTimer g1 else g1 in
    if (dy >? 0) && negb (fits (TetrisGame.board g) moved 0 1)
    then TetrisGame.startLocking g2
    else g2
  else if dy >? 0 then TetrisGame.startLocking g
  else g.

(** A run of calls, each on the state the previous one returned. *)
Fixpoint runs (cs : list TetrisGame.Command) (g : TetrisGame.t)
  : outcome TetrisGame.t :=
  match cs with
  | [] => Ok g
  | c :: rest => g1 <- TetrisGame.run c g ;; runs rest g1
  end.

(** The rows between the current piece and the floor of the board. *)
Definition budget (g : TetrisGame.t) : nat :=
  match TetrisGame.currentPiece g with
  | Some cur => Z.to_nat (GameBoard.height (TetrisGame.board g) - Piece.y cur)
  | None => 0%nat
  end.

(** The iteration budget of a hard drop exceeds the rows below the piece;
    the other calls have no loop. *)
Definition enough (c : TetrisGame.Command) (g : TetrisGame.t) : Prop :=
  match c with
  | TetrisGame.HardDrop fuel _ => (budget g < fuel)%nat
  | _ => True
  end.

(** The calls that are not the start and restart buttons. *)
Definition playing (c : TetrisGame.Command) : bool :=
  match c with
  | TetrisGame.Start _ _ _ _ | TetrisGame.Restart _ _ => false
  | _ => true
  end.

(** A session of O pieces dropped at the spawn column until they reach the
    top of the board. *)
Definition stackOfO : list TetrisGame.Command :=
  repeat (TetrisGame.HardDrop 30 TypeO) 10.

Definition toppedOut : TetrisGame.t :=
  match runs stackOfO (TetrisGame.new TypeO TypeO) with
  | Ok g => g
  | _ => TetrisGame.new TypeO TypeO
  end.

(** * Properties *)

(** ** Pieces *)

Lemma rotate_shape_4x4 :
  forall a0 a1 a2 a3 b0 b1 b2 b3 c0 c1 c2 c3 d0 d1 d2 d3 : Z,
    Piece.rotate_shape
      [[a0; a1; a2; a3]; [b0; b1; b2; b3]; [c0; c1; c2; c3]; [d0; d1; d2; d3]]
    = [[d0; c0; b0; a0]; [d1; c1; b1; a1]; [d2; c2; b2; a2]; [d3; c3; b3; a3]].
Proof. intros. reflexivity. Qed.

Lemma mask4_inv :
  forall sh, mask4 sh ->
    exists a0 a1 a2 a3 b0 b1 b2 b3 c0 c1 c2 c3 d0 d1 d2 d3,
      sh = [[a0; a1; a2; a3]; [b0; b1; b2; b3]; [c0; c1; c2; c3]; [d0; d1; d2; d3]].
Proof.
  intros sh [Hlen Hrows].
  do 5 (destruct sh as [|? sh]; try discriminate Hlen).
  repeat match goal with
         | H : Forall _ (_ :: _) |- _ => inversion H; clear H; subst
         end.
  repeat match goal with
         | H : List.length ?r = 4%nat |- _ =>
             do 5 (destruct r as [|? r]; try discriminate H); clear H
         end.
  do 16 eexists. reflexivity.
Qed.

Lemma rotate_shape_mask4 : forall sh, mask4 sh -> mask4 (Piece.rotate_shape sh).
Proof.
  intros sh H. destruct (mask4_inv sh H) as
    (a0 & a1 & a2 & a3 & b0 & b1 & b2 & b3 & c0 & c1 & c2 & c3 & d0 & d1 & d2 & d3 & ->).
  rewrite rotate_shape_4x4. split; [reflexivity | repeat constructor].
Qed.

Lemma PIECES_mask4 : forall ty, mask4 (pd_shape (PIECES ty)).
Proof. intros []; (split; [reflexivity | repeat constructor]). Qed.

(** C2 (code defect): one clockwise rotation of the spawn mask of the O piece
    does not give the mask back; the two-by-two block moves from rows 0-1,
    columns 1-2 to rows 1-2, columns 2-3, so on the board the piece is
    displaced by one cell to the right and one cell down. *)
Theorem O_rotate_changes_mask :
  let o := Piece.new TypeO None None in
  Piece.shape o = [[0; 1; 1; 0]; [0; 1; 1; 0]; [0; 0; 0; 0]; [0; 0; 0; 0]]
  /\ Piece.shape (Piece.rotate o)
     = [[0; 0; 0; 0]; [0; 0; 1; 1]; [0; 0; 1; 1]; [0; 0; 0; 0]]
  /\ Piece.shape (Piece.rotate o) <> Piece.shape o
  /\ Piece.getOccupiedPositions o = [(5, 0); (6, 0); (5, 1); (6, 1)]
  /\ Piece.getOccupiedPositions (Piece.rotate o) = [(6, 1); (7, 1); (6, 2); (7, 2)].
Proof.
  cbv zeta. repeat split; try reflexivity.
  intro H. discriminate H.
Qed.

(** C8 (amended): four clockwise rotations bring every piece with a
    four-by-four mask (any of the seven types, in any mask state) back to its
    original mask and, for a rotation state in 0..3, back to the rotation
    state it started from, which is state 0 only for a piece that started in
    state 0; such a piece, in particular the freshly created piece of each of
    the seven types, is after four rotations the very piece it was. *)
Theorem rotate_four_times_identity :
  (forall p : Piece.t,
      mask4 (Piece.shape p) ->
      Piece.shape (rotateTimes 4 p) = Piece.shape p
      /\ (0 <= Piece.rotation p < 4 ->
          Piece.rotation (rotateTimes 4 p) = Piece.rotation p)
      /\ (Piece.rotation p = 0 ->
          Piece.rotation (rotateTimes 4 p) = 0 /\ rotateTimes 4 p = p))
  /\ (forall ty : PieceType,
         rotateTimes 4 (Piece.new ty None None) = Piece.new ty None None
         /\ Piece.rotation (rotateTimes 4 (Piece.new ty None None)) = 0).
Proof.
  assert (Hrot : forall r, 0 <= r < 4 ->
                   Z.rem (Z.rem (Z.rem (Z.rem (r + 1) 4 + 1) 4 + 1) 4 + 1) 4 = r).
  { intros r Hr.
    assert (r = 0 \/ r = 1 \/ r = 2 \/ r = 3) as [-> | [-> | [-> | ->]]] by lia;
      reflexivity. }
  split.
  - intros p Hm.
    destruct (mask4_inv _ Hm) as
      (a0 & a1 & a2 & a3 & b0 & b1 & b2 & b3 & c0 & c1 & c2 & c3 & d0 & d1 & d2 & d3 & Hsh).
    destruct p as [ty sh col px py rot]. simpl in Hsh. subst sh.
    assert (Hshape : Piece.shape (rotateTimes 4 (Piece.mk ty
              [[a0; a1; a2; a3]; [b0; b1; b2; b3]; [c0; c1; c2; c3]; [d0; d1; d2; d3]]
              col px py rot))
            = [[a0; a1; a2; a3]; [b0; b1; b2; b3]; [c0; c1; c2; c3]; [d0; d1; d2; d3]])
      by reflexivity.
    split; [exact Hshape|].
    split.
    + intros Hr. cbn in *. apply Hrot. exact Hr.
    + cbn. intros ->. split; reflexivity.
  - intros []; split; reflexivity.
Qed.

Lemma rowPositions_In :
  forall p yy row xx px py,
    In (px, py) (Piece.rowPositions p yy xx row) <->
    exists c v, nth_error row c = Some v /\ v <> 0
                /\ px = Piece.x p + (xx + Z.of_nat c) /\ py = Piece.y p + yy.
Proof.
  intros p yy row. induction row as [|v row IH]; intros xx px py; simpl.
  - split; [tauto|]. intros (c & v & H & _). destruct c; discriminate H.
  - destruct (Z.eqb_spec v 0) as [Hv|Hv]; simpl.
    + rewrite IH. split.
      * intros (c & w & H1 & H2 & H3 & H4). exists (S c), w. simpl.
        repeat split; try assumption. lia.
      * intros (c & w & H1 & H2 & H3 & H4). destruct c as [|c]; simpl in H1.
        { injection H1 as <-. contradiction. }
        exists c, w. repeat split; try assumption. lia.
    + rewrite IH. split.
      * intros [H | (c & w & H1 & H2 & H3 & H4)].
        { injection H as <- <-. exists 0%nat, v. simpl.
          repeat split; try assumption; lia. }
        exists (S c), w. simpl. repeat split; try assumption. lia.
      * intros (c & w & H1 & H2 & H3 & H4). destruct c as [|c]; simpl in H1.
        { injection H1 as <-. left. f_equal; lia. }
        right. exists c, w. repeat split; try assumption. lia.
Qed.

Lemma shapePositions_In :
  forall p rows yy px py,
    In (px, py) (Piece.shapePositions p yy rows) <->
    exists r c row v, nth_error rows r = Some row /\ nth_error row c = Some v
                      /\ v <> 0 /\ px = Piece.x p + Z.of_nat c
                      /\ py = Piece.y p + (yy + Z.of_nat r).
Proof.
  intros p rows. induction rows as [|row rows IH]; intros yy px py; simpl.
  - split; [tauto|]. intros (r & c & row & v & H & _). destruct r; discriminate H.
  - rewrite in_app_iff, rowPositions_In, IH. split.
    + intros [(c & v & H1 & H2 & H3 & H4) | (r & c & row' & v & H1 & H2 & H3 & H4 & H5)].
      * exists 0%nat, c, row, v. simpl. repeat split; try assumption; lia.
      * exists (S r), c, row', v. simpl. repeat split; try assumption; lia.
    + intros (r & c & row' & v & H1 & H2 & H3 & H4 & H5). destruct r as [|r]; simpl in H1.
      * injection H1 as <-. left. exists c, v. repeat split; try assumption; lia.
      * right. exists r, c, row', v. repeat split; try assumption; lia.
Qed.

(** The positions a piece reports are exactly its set mask cells, moved to
    the origin of the piece. *)
Lemma getOccupiedPositions_In :
  forall p px py,
    In (px, py) (Piece.getOccupiedPositions p) <->
    exists r c, maskSet p r c /\ px = Piece.x p + Z.of_nat c
                /\ py = Piece.y p + Z.of_nat r.
Proof.
  intros p px py. unfold Piece.getOccupiedPositions, maskSet.
  rewrite shapePositions_In. split.
  - intros (r & c & row & v & H1 & H2 & H3 & H4 & H5).
    exists r, c. split; [exists row, v; auto|]. split; lia.
  - intros (r & c & (row & v & H1 & H2 & H3) & H4 & H5).
    exists r, c, row, v. repeat split; try assumption; lia.
Qed.

(** ** The board: shape and placement *)

Lemma shaped_inv :
  forall b, shaped b = true ->
    0 <= GameBoard.width b /\ 0 <= GameBoard.height b
    /\ List.length (GameBoard.grid b) = Z.to_nat (GameBoard.height b)
    /\ Forall (fun row => List.length row = Z.to_nat (GameBoard.width b))
         (GameBoard.grid b).
Proof.
  intros b H. unfold shaped in H.
  repeat (apply andb_prop in H; destruct H as [H ?]).
  repeat split.
  - now apply Z.leb_le.
  - now apply Z.leb_le.
  - now apply Nat.eqb_eq.
  - apply Forall_forall. intros row Hin.
    rewrite forallb_forall in H0. apply Nat.eqb_eq. now apply H0.
Qed.

Lemma shaped_row :
  forall b cy, shaped b = true -> 0 <= cy < GameBoard.height b ->
    exists row, nth_error (GameBoard.grid b) (Z.to_nat cy) = Some row
                /\ List.length row = Z.to_nat (GameBoard.width b).
Proof.
  intros b cy Hs Hcy. destruct (shaped_inv b Hs) as (_ & _ & Hlen & Hrows).
  destruct (nth_error (GameBoard.grid b) (Z.to_nat cy)) as [row|] eqn:E.
  - exists row. split; [reflexivity|].
    rewrite Forall_forall in Hrows. apply Hrows. eapply nth_error_In; eauto.
  - apply nth_error_None in E. lia.
Qed.

Lemma cellAt_row :
  forall b cx cy row,
    0 <= cx -> 0 <= cy ->
    nth_error (GameBoard.grid b) (Z.to_nat cy) = Some row ->
    cellAt b cx cy = nth_error row (Z.to_nat cx).
Proof.
  intros b cx cy row Hx Hy Hrow. unfold cellAt.
  destruct (Z.ltb_spec cx 0); [lia|]. destruct (Z.ltb_spec cy 0); [lia|].
  simpl. now rewrite Hrow.
Qed.

Lemma canPlaceLoop_spec :
  forall b positions offsetX offsetY,
    shaped b = true ->
    exists r, GameBoard.canPlaceLoop b positions offsetX offsetY = Ok r
              /\ (r = true <-> Forall (clearAt b offsetX offsetY) positions).
Proof.
  intros b positions offsetX offsetY Hs.
  induction positions as [|pos rest IH]; simpl.
  - exists true. split; [reflexivity|]. split; auto.
  - destruct IH as (r & Hr & Hiff).
    destruct (Z.ltb_spec (fst pos + offsetX) 0) as [H1|H1]; simpl.
    { exists false. split; [reflexivity|]. split; [discriminate|].
      intros H. inversion H as [|? ? Hc _]; subst. destruct Hc as [Hc _]. lia. }
    destruct (Z.geb_spec (fst pos + offsetX) (GameBoard.width b)) as [H2|H2]; simpl.
    { exists false. split; [reflexivity|]. split; [discriminate|].
      intros H. inversion H as [|? ? Hc _]; subst. destruct Hc as [Hc _]. lia. }
    destruct (Z.geb_spec (snd pos + offsetY) (GameBoard.height b)) as [H3|H3]; simpl.
    { exists false. split; [reflexivity|]. split; [discriminate|].
      intros H. inversion H as [|? ? Hc _]; subst. destruct Hc as (_ & Hc & _). lia. }
    destruct (Z.geb_spec (snd pos + offsetY) 0) as [H4|H4].
    + destruct (shaped_row b (snd pos + offsetY) Hs) as (row & Hrow & _); [lia|].
      rewrite Hrow.
      destruct (GameBoard.truthy (nth_error row (Z.to_nat (fst pos + offsetX)))) eqn:Ht.
      * exists false. split; [reflexivity|]. split; [discriminate|].
        intros H. inversion H as [|? ? Hc _]; subst. destruct Hc as (_ & _ & Hc).
        rewrite (cellAt_row b _ _ row) in Hc by (assumption || lia).
        rewrite Hc in Ht by lia. discriminate.
      * exists r. split; [exact Hr|]. rewrite Hiff. split.
        -- intros HF. constructor; [|exact HF]. repeat split; try lia.
           intros _. rewrite (cellAt_row b _ _ row) by (assumption || lia). exact Ht.
        -- intros HF. now inversion HF.
    + exists r. split; [exact Hr|]. rewrite Hiff. split.
      * intros HF. constructor; [|exact HF]. repeat split; try lia.
      * intros HF. now inversion HF.
Qed.

(** On a board of the right shape a collision test returns an answer. *)
Lemma canPlacePiece_total :
  forall b p dx dy, shaped b = true ->
    GameBoard.canPlacePiece b p dx dy = Ok (fits b p dx dy).
Proof.
  intros b p dx dy Hs. unfold fits.
  destruct (canPlaceLoop_spec b (Piece.getOccupiedPositions p) dx dy Hs) as (r & Hr & _).
  unfold GameBoard.canPlacePiece. rewrite Hr. now destruct r.
Qed.

Lemma wellFormed_shaped : forall b, wellFormed b = true -> shaped b = true.
Proof. intros b H. unfold wellFormed in H. now apply andb_prop in H. Qed.

Lemma wellFormed_cell :
  forall b cx cy c, wellFormed b = true -> cellAt b cx cy = Some c ->
    validCell c = true.
Proof.
  intros b cx cy c H Hc. unfold wellFormed in H. apply andb_prop in H as [_ H].
  unfold cellAt in Hc. destruct ((cx <? 0) || (cy <? 0)); [discriminate|].
  destruct (nth_error (GameBoard.grid b) (Z.to_nat cy)) as [row|] eqn:E; [|discriminate].
  rewrite forallb_forall in H. specialize (H row (nth_error_In _ _ E)).
  rewrite forallb_forall in H. apply H. eapply nth_error_In; eauto.
Qed.

(** On a well-formed board the truthiness test of the collision loop sees
    exactly the occupied cells. *)
Lemma truthy_occupied :
  forall b cx cy, wellFormed b = true ->
    (GameBoard.truthy (cellAt b cx cy) = false <-> ~ occupied b cx cy).
Proof.
  intros b cx cy H. unfold occupied.
  destruct (cellAt b cx cy) as [c|] eqn:E.
  - pose proof (wellFormed_cell b cx cy c H E) as Hv.
    destruct c as [| |s]; simpl in *.
    + split; [|reflexivity]. intros _ [s Hs]. discriminate.
    + discriminate.
    + rewrite Hv. simpl. split; [discriminate|]. intros Hn. exfalso. apply Hn. eauto.
  - simpl. split; [|reflexivity]. intros _ [s Hs]. discriminate.
Qed.

(** C4: on a well-formed board [canPlacePiece(piece, dx, dy)] returns, and
    returns true exactly when every set mask cell of the piece, moved by the
    piece origin and by [(dx, dy)], has its column in [[0, width)], its row
    below [height] (rows above the board are allowed), and, when its row is
    not above the board, does not lie on an occupied grid cell. *)
Theorem canPlacePiece_iff :
  forall b p dx dy,
    wellFormed b = true ->
    exists r,
      GameBoard.canPlacePiece b p dx dy = Ok r
      /\ (r = true <->
          forall row col,
            maskSet p row col ->
            let nx := Piece.x p + Z.of_nat col + dx in
            let ny := Piece.y p + Z.of_nat row + dy in
            0 <= nx < GameBoard.width b
            /\ ny < GameBoard.height b
            /\ (0 <= ny -> ~ occupied b nx ny)).
Proof.
  intros b p dx dy Hwf.
  destruct (canPlaceLoop_spec b (Piece.getOccupiedPositions p) dx dy
              (wellFormed_shaped b Hwf)) as (r & Hr & Hiff).
  exists r. split; [exact Hr|]. rewrite Hiff, Forall_forall. split.
  - intros H row col Hset nx ny.
    assert (Hin : In (Piece.x p + Z.of_nat col, Piece.y p + Z.of_nat row)
                    (Piece.getOccupiedPositions p)).
    { apply getOccupiedPositions_In. exists row, col. auto. }
    destruct (H _ Hin) as (H1 & H2 & H3). simpl in H1, H2, H3.
    repeat split; try assumption; try lia.
    intros Hny. apply truthy_occupied; [assumption|]. apply H3. exact Hny.
  - intros H [px py] Hin.
    apply getOccupiedPositions_In in Hin as (row & col & Hset & -> & ->).
    destruct (H row col Hset) as (H1 & H2 & H3).
    unfold clearAt. simpl. repeat split; try assumption; try lia.
    intros Hny. apply truthy_occupied; [assumption|]. apply H3. exact Hny.
Qed.

(** ** The board: drop position *)

Lemma dropOffset_unique :
  forall b p k k', dropOffset b p k -> dropOffset b p k' -> k = k'.
Proof.
  intros b p k k' (Hk & Hfit & Hstop) (Hk' & Hfit' & Hstop').
  destruct (Z.lt_trichotomy k k') as [Hlt | [Heq | Hgt]]; [|exact Heq|].
  - rewrite Hfit' in Hstop by lia. discriminate.
  - rewrite Hfit in Hstop' by lia. discriminate.
Qed.

(** A piece with a set mask cell does not fit once it is moved down by the
    distance from its origin to the floor. *)
Lemma fits_below_floor :
  forall b p row col j,
    shaped b = true -> maskSet p row col ->
    GameBoard.height b - Piece.y p <= j ->
    fits b p 0 j = false.
Proof.
  intros b p row col j Hs Hset Hj.
  destruct (canPlaceLoop_spec b (Piece.getOccupiedPositions p) 0 j Hs) as (r & Hr & Hiff).
  unfold fits, GameBoard.canPlacePiece. rewrite Hr.
  destruct r; [|reflexivity]. exfalso.
  assert (HF : Forall (clearAt b 0 j) (Piece.getOccupiedPositions p)) by now apply Hiff.
  rewrite Forall_forall in HF.
  assert (Hin : In (Piece.x p + Z.of_nat col, Piece.y p + Z.of_nat row)
                  (Piece.getOccupiedPositions p)).
  { apply getOccupiedPositions_In. exists row, col. auto. }
  destruct (HF _ Hin) as (_ & H2 & _). simpl in H2. lia.
Qed.

Lemma dropLoop_step :
  forall fuel b p d,
    shaped b = true ->
    GameBoard.dropLoop (S fuel) b p (Piece.y p + d)
    = if fits b p 0 (d + 1)
      then GameBoard.dropLoop fuel b p (Piece.y p + (d + 1))
      else Ok (Piece.y p + d).
Proof.
  intros fuel b p d Hs. simpl.
  replace (Piece.y p + d - Piece.y p + 1) with (d + 1) by lia.
  rewrite (canPlacePiece_total b p 0 (d + 1) Hs). simpl.
  replace (Piece.y p + d + 1) with (Piece.y p + (d + 1)) by lia.
  reflexivity.
Qed.

(** The probing loop, started [d] rows below the piece, stops within [n]
    further rows when the piece does not fit [d + n + 1] rows down. *)
Lemma dropLoop_search :
  forall b p, shaped b = true ->
  forall n d,
    fits b p 0 (d + Z.of_nat n + 1) = false ->
    exists m,
      (m <= n)%nat
      /\ (forall fuel, (m < fuel)%nat ->
            GameBoard.dropLoop fuel b p (Piece.y p + d)
            = Ok (Piece.y p + d + Z.of_nat m))
      /\ (forall j, d + 1 <= j <= d + Z.of_nat m -> fits b p 0 j = true)
      /\ fits b p 0 (d + Z.of_nat m + 1) = false.
Proof.
  intros b p Hs n. induction n as [|n IH]; intros d Hstop.
  - exists 0%nat. replace (d + Z.of_nat 0 + 1) with (d + 1) in * by lia.
    repeat split.
    + lia.
    + intros fuel Hf. destruct fuel as [|fuel]; [lia|].
      rewrite dropLoop_step by assumption. rewrite Hstop. f_equal. lia.
    + intros j Hj. lia.
    + exact Hstop.
  - destruct (fits b p 0 (d + 1)) eqn:Hfit.
    + destruct (IH (d + 1)) as (m & Hm & Hrun & Hall & Hend).
      { rewrite <- Hstop. f_equal. lia. }
      exists (S m). repeat split.
      * lia.
      * intros fuel Hf. destruct fuel as [|fuel]; [lia|].
        rewrite dropLoop_step by assumption. rewrite Hfit.
        rewrite Hrun by lia. f_equal. lia.
      * intros j Hj. destruct (Z.eq_dec j (d + 1)) as [->|Hne]; [exact Hfit|].
        apply Hall. lia.
      * rewrite <- Hend. f_equal. lia.
    + exists 0%nat. replace (d + Z.of_nat 0 + 1) with (d + 1) by lia.
      repeat split.
      * lia.
      * intros fuel Hf. destruct fuel as [|fuel]; [lia|].
        rewrite dropLoop_step by assumption. rewrite Hfit. f_equal. lia.
      * intros j Hj. lia.
      * exact Hfit.
Qed.

(** A mask without a set cell makes the probing loop run for ever: no
    iteration budget is enough. *)
Lemma dropLoop_empty_mask :
  forall b p, Piece.getOccupiedPositions p = [] ->
    forall fuel d, GameBoard.dropLoop fuel b p d = OutOfFuel.
Proof.
  intros b p He fuel. induction fuel as [|fuel IH]; intros d; simpl.
  - reflexivity.
  - unfold GameBoard.canPlacePiece. rewrite He. simpl. apply IH.
Qed.

(** C3 (amended): for a piece with a set mask cell on a board of the right
    shape, [getDropPosition] returns, given an iteration budget above [k],
    the landing row [y + k], where [k >= 0] is the maximal downward offset
    such that the piece fits at every offset from 1 to [k]: it does not fit
    at [k + 1], so no larger offset has that property.  When the piece fits
    where it is, [k] is the maximal offset at which it fits with every step
    from the current position fitting.  [k] is at most the distance to the
    floor. *)
Theorem getDropPosition_landing_row :
  forall b p row col,
    shaped b = true ->
    maskSet p row col ->
    exists k,
      0 <= k <= Z.max 0 (GameBoard.height b - Piece.y p - 1)
      /\ (forall fuel, (Z.to_nat k < fuel)%nat ->
            GameBoard.getDropPosition fuel b p = Ok (Piece.y p + k))
      /\ (forall j, 1 <= j <= k -> GameBoard.canPlacePiece b p 0 j = Ok true)
      /\ GameBoard.canPlacePiece b p 0 (k + 1) = Ok false
      /\ (forall k', 0 <= k' ->
            (forall j, 1 <= j <= k' -> GameBoard.canPlacePiece b p 0 j = Ok true) ->
            k' <= k)
      /\ (GameBoard.canPlacePiece b p 0 0 = Ok true -> dropOffset b p k).
Proof.
  intros b p row col Hs Hset.
  set (n := Z.to_nat (Z.max 0 (GameBoard.height b - Piece.y p - 1))).
  destruct (dropLoop_search b p Hs n 0) as (m & Hm & Hrun & Hall & Hend).
  { apply (fits_below_floor b p row col); try assumption. subst n. lia. }
  exists (Z.of_nat m).
  assert (Hstop : GameBoard.canPlacePiece b p 0 (Z.of_nat m + 1) = Ok false).
  { rewrite canPlacePiece_total by assumption. f_equal. exact Hend. }
  repeat split.
  - lia.
  - subst n. lia.
  - intros fuel Hf. unfold GameBoard.getDropPosition.
    replace (Piece.y p) with (Piece.y p + 0) at 1 by lia.
    rewrite Hrun by lia. f_equal. lia.
  - intros j Hj. rewrite canPlacePiece_total by assumption. f_equal.
    apply Hall. lia.
  - exact Hstop.
  - intros k' Hk' Hall'.
    destruct (Z.le_gt_cases k' (Z.of_nat m)) as [Hle|Hgt]; [exact Hle|].
    rewrite Hall' in Hstop by lia. discriminate.
  - lia.
  - intros j Hj. destruct (Z.eq_dec j 0) as [->|Hne].
    + unfold fits. now rewrite H.
    + apply Hall. lia.
  - exact Hend.
Qed.

(** ** The board: line clearing *)

Lemma rowComplete_fullRow :
  forall row, forallb validCell row = true ->
    GameBoard.rowComplete row = fullRow row.
Proof.
  induction row as [|c row IH]; intros H; simpl in *; [reflexivity|].
  apply andb_prop in H as [Hc Hrow]. rewrite (IH Hrow).
  destruct c; simpl in *; try reflexivity. discriminate.
Qed.

(** The scanning loop, run over the rows that follow the prefix [pre]. *)
Lemma findCompleted_scan :
  forall rows pre,
    forallb (forallb validCell) rows = true ->
    GameBoard.findCompleted (pre ++ rows) (seq (List.length pre) (List.length rows))
    = Ok (fullRowsFrom (List.length pre) rows).
Proof.
  induction rows as [|row rows IH]; intros pre Hv; simpl; [reflexivity|].
  apply andb_prop in Hv as [Hrow Hrows].
  rewrite nth_error_app2 by lia. rewrite Nat.sub_diag. simpl.
  specialize (IH (pre ++ [row]) Hrows).
  rewrite <- app_assoc in IH. simpl in IH.
  rewrite length_app in IH. simpl in IH. rewrite Nat.add_1_r in IH.
  rewrite IH. simpl. rewrite (rowComplete_fullRow row Hrow). reflexivity.
Qed.

Lemma splice1_middle :
  forall (A : Type) (pre : list A) (v : A) (post : list A),
    JsArray.splice1 (pre ++ v :: post) (List.length pre) = pre ++ post.
Proof.
  intros A pre v post. induction pre as [|h pre IH]; simpl; [reflexivity|].
  now rewrite IH.
Qed.

(** Removing the complete rows one index at a time, in ascending order, keeps
    the other rows in order and stacks one empty row per removal on top. *)
Lemma removeLines_scan :
  forall w rows done,
    GameBoard.removeLines w (fullRowsFrom (List.length done) rows) (done ++ rows)
    = repeat (GameBoard.emptyRow w) (List.length (fullRowsFrom (List.length done) rows))
      ++ done ++ keptRows rows.
Proof.
  intros w rows. unfold GameBoard.removeLines.
  induction rows as [|row rows IH]; intros done; [reflexivity|].
  cbn [fullRowsFrom keptRows filter]. destruct (fullRow row) eqn:Hfull.
  - cbn [fold_left List.length negb]. rewrite Nat2Z.id, splice1_middle.
    unfold JsArray.unshift at 2.
    specialize (IH (GameBoard.emptyRow w :: done)).
    cbn [List.length app] in IH. rewrite IH.
    cbn [repeat]. rewrite repeat_cons, <- app_assoc. reflexivity.
  - cbn [negb]. specialize (IH (done ++ [row])). rewrite <- app_assoc in IH.
    cbn [app] in IH. rewrite length_app in IH. cbn [List.length] in IH.
    rewrite Nat.add_1_r in IH.
    rewrite IH, <- app_assoc. reflexivity.
Qed.

Lemma fullRowsFrom_In :
  forall rows k i,
    In i (fullRowsFrom k rows) <->
    exists j row, i = Z.of_nat (k + j) /\ nth_error rows j = Some row
                  /\ fullRow row = true.
Proof.
  induction rows as [|row rows IH]; intros k i; simpl.
  - split; [tauto|]. intros (j & row & _ & H & _). destruct j; discriminate.
  - assert (Hrest : In i (fullRowsFrom (S k) rows) <->
                    exists j row', i = Z.of_nat (k + S j)
                                   /\ nth_error rows j = Some row'
                                   /\ fullRow row' = true).
    { rewrite IH. split; intros (j & row' & H1 & H2 & H3); exists j, row';
        repeat split; try assumption; lia. }
    destruct (fullRow row) eqn:Hfull; simpl; rewrite Hrest; split.
    + intros [<- | (j & row' & H1 & H2 & H3)].
      * exists 0%nat, row. repeat split; try assumption. f_equal. lia.
      * exists (S j), row'. auto.
    + intros (j & row' & H1 & H2 & H3). destruct j as [|j]; simpl in H2.
      * left. subst i. f_equal. lia.
      * right. exists j, row'. auto.
    + intros (j & row' & H1 & H2 & H3). exists (S j), row'. auto.
    + intros (j & row' & H1 & H2 & H3). destruct j as [|j]; simpl in H2.
      * injection H2 as <-. congruence.
      * exists j, row'. auto.
Qed.

Lemma fullRowsFrom_sorted :
  forall rows k, StronglySorted Z.lt (fullRowsFrom k rows).
Proof.
  induction rows as [|row rows IH]; intros k; simpl; [constructor|].
  destruct (fullRow row); [|apply IH].
  constructor; [apply IH|]. apply Forall_forall. intros i Hi.
  apply fullRowsFrom_In in Hi as (j & _ & -> & _). lia.
Qed.

Lemma keptRows_none :
  forall rows k, fullRowsFrom k rows = [] -> keptRows rows = rows.
Proof.
  induction rows as [|row rows IH]; intros k H; simpl in *; [reflexivity|].
  destruct (fullRow row); [discriminate|]. simpl. f_equal. eapply IH; eauto.
Qed.

Lemma keptRows_single :
  forall rows k i,
    fullRowsFrom k rows = [i] ->
    exists j, i = Z.of_nat (k + j) /\ keptRows rows = firstn j rows ++ skipn (S j) rows.
Proof.
  induction rows as [|row rows IH]; intros k i H; simpl in *; [discriminate|].
  destruct (fullRow row) eqn:Hfull; simpl.
  - injection H as <- Hrest. exists 0%nat. split; [f_equal; lia|].
    simpl. eapply keptRows_none; eauto.
  - destruct (IH _ _ H) as (j & -> & Hk). exists (S j). split; [f_equal; lia|].
    simpl. now rewrite Hk.
Qed.

Lemma keptRows_length :
  forall rows k,
    (List.length (fullRowsFrom k rows) + List.length (keptRows rows)
     = List.length rows)%nat.
Proof.
  induction rows as [|row rows IH]; intros k; simpl; [reflexivity|].
  destruct (fullRow row); simpl; specialize (IH (S k)); lia.
Qed.

(** What [clearLines] does on a well-formed board, in closed form. *)
Lemma clearLines_closed_form :
  forall b, wellFormed b = true ->
    GameBoard.clearLines b
    = Ok (Z.of_nat (List.length (completeRows b)),
          match completeRows b with
          | [] => b
          | _ :: _ =>
              GameBoard.mk (GameBoard.width b) (GameBoard.height b)
                (repeat (GameBoard.emptyRow (GameBoard.width b))
                   (List.length (completeRows b))
                 ++ keptRows (GameBoard.grid b))
                (completeRows b)
          end).
Proof.
  intros b Hwf. unfold GameBoard.clearLines, completeRows.
  destruct (shaped_inv b (wellFormed_shaped b Hwf)) as (_ & _ & Hlen & _).
  unfold wellFormed in Hwf. apply andb_prop in Hwf as [_ Hv].
  pose proof (findCompleted_scan (GameBoard.grid b) [] Hv) as Hscan.
  simpl in Hscan. rewrite <- Hlen, Hscan. simpl.
  pose proof (removeLines_scan (GameBoard.width b) (GameBoard.grid b) []) as Hrm.
  simpl in Hrm.
  destruct (fullRowsFrom 0 (GameBoard.grid b)) as [|i rest] eqn:E; [reflexivity|].
  replace (Z.of_nat (List.length (i :: rest)) =? 0) with false
    by (symmetry; apply Z.eqb_neq; simpl List.length; lia).
  rewrite Hrm. reflexivity.
Qed.

(** C1 (amended): on every well-formed board, and so on every ten-by-twenty
    one, [clearLines] removes exactly the rows in which every cell is
    occupied, taken in ascending index order; it puts one empty row on top
    per removed row and keeps the other rows in their order and with their
    content; it returns the number of removed rows; and when that number is
    not zero it records the indices the rows had before the removal as the
    flash record.  With no complete row it returns 0 and leaves the board,
    flash record included, as it was.  With exactly one complete row, at
    index [i], it returns 1, the rows above [i] move down by one under a new
    empty row at index 0, and the rows below [i] stay. *)
Theorem clearLines_removes_full_rows :
  forall b,
    wellFormed b = true ->
    let full := completeRows b in
    (forall i, In i full <->
               exists row, 0 <= i
                           /\ nth_error (GameBoard.grid b) (Z.to_nat i) = Some row
                           /\ fullRow row = true)
    /\ StronglySorted Z.lt full
    /\ (exists b',
           GameBoard.clearLines b = Ok (Z.of_nat (List.length full), b')
           /\ GameBoard.width b' = GameBoard.width b
           /\ GameBoard.height b' = GameBoard.height b
           /\ GameBoard.grid b'
              = repeat (GameBoard.emptyRow (GameBoard.width b)) (List.length full)
                ++ keptRows (GameBoard.grid b)
           /\ List.length (GameBoard.grid b') = List.length (GameBoard.grid b)
           /\ (full <> [] -> GameBoard.linesToFlash b' = full)
           /\ (full = [] -> GameBoard.linesToFlash b' = GameBoard.linesToFlash b))
    /\ (full = [] -> GameBoard.clearLines b = Ok (0, b))
    /\ (forall i, full = [i] ->
          GameBoard.clearLines b
          = Ok (1, GameBoard.mk (GameBoard.width b) (GameBoard.height b)
                     (GameBoard.emptyRow (GameBoard.width b)
                        :: firstn (Z.to_nat i) (GameBoard.grid b)
                           ++ skipn (S (Z.to_nat i)) (GameBoard.grid b))
                     [i])).
Proof.
  intros b Hwf full. pose proof (clearLines_closed_form b Hwf) as Hcl.
  fold full in Hcl. split; [|split; [|split; [|split]]].
  - intros i. unfold full, completeRows. rewrite fullRowsFrom_In. split.
    + intros (j & row & -> & Hrow & Hfull). exists row.
      simpl. rewrite Nat2Z.id. repeat split; try assumption. lia.
    + intros (row & Hi & Hrow & Hfull). exists (Z.to_nat i), row.
      simpl. repeat split; try assumption. lia.
  - apply fullRowsFrom_sorted.
  - rewrite Hcl. destruct full as [|i rest] eqn:E.
    + exists b. simpl. repeat split; try reflexivity.
      * symmetry. eapply keptRows_none. exact E.
      * intros H. now contradiction H.
    + eexists. split; [reflexivity|]. simpl. repeat split; try reflexivity.
      * pose proof (keptRows_length (GameBoard.grid b) 0) as Hlen.
        unfold full, completeRows in E. rewrite E in Hlen. simpl in Hlen.
        rewrite length_app, repeat_length. lia.
      * intros H. discriminate H.
  - intros E. rewrite Hcl, E. reflexivity.
  - intros i E. rewrite Hcl, E. simpl List.length.
    unfold full, completeRows in E.
    destruct (keptRows_single _ _ _ E) as (j & -> & Hk).
    simpl. rewrite Nat2Z.id, Hk. reflexivity.
Qed.

(** C10: a call of [clearLines] that returns 0 changes nothing on the board,
    so the flash record is left as it was, and on a well-formed board without
    a complete row that is what the call does; a record left over from an
    earlier clearing call stays in place over any number of such calls.
    Among the methods that assign to the board only [clearFlashingLines] and
    [reset] turn a non-empty flash record into the empty one, and both always
    empty it. *)
Theorem clearLines_keeps_stale_flash :
  (forall b n b',
      GameBoard.clearLines b = Ok (n, b') -> n = 0 -> b' = b)
  /\ (forall b,
         wellFormed b = true -> completeRows b = [] ->
         GameBoard.clearLines b = Ok (0, b)
         /\ forall k, Nat.iter k
                        (fun o => b1 <- o ;; GameBoard.call GameBoard.ClearLines b1)
                        (Ok b) = Ok b)
  /\ (forall m b b',
         GameBoard.call m b = Ok b' ->
         GameBoard.linesToFlash b <> [] ->
         GameBoard.linesToFlash b' = [] ->
         m = GameBoard.ClearFlashingLines \/ m = GameBoard.Reset)
  /\ (forall b,
         GameBoard.linesToFlash (GameBoard.clearFlashingLines b) = []
         /\ GameBoard.linesToFlash (GameBoard.reset b) = []).
Proof.
  assert (Hzero : forall b n b',
             GameBoard.clearLines b = Ok (n, b') ->
             (n = 0 /\ b' = b)
             \/ (n <> 0 /\ GameBoard.linesToFlash b' <> [])).
  { intros b n b' H. unfold GameBoard.clearLines in H.
    destruct (GameBoard.findCompleted (GameBoard.grid b)
                (seq 0 (Z.to_nat (GameBoard.height b)))) as [l| |]; simpl in H;
      try discriminate.
    destruct (Z.eqb_spec (Z.of_nat (List.length l)) 0) as [E|E].
    - injection H as <- <-. left. auto.
    - injection H as <- <-. right. split; [exact E|]. simpl.
      intros ->. simpl in E. lia. }
  split; [|split; [|split]].
  - intros b n b' H Hn. destruct (Hzero b n b' H) as [[_ Hb] | [Hne _]]; [exact Hb|].
    contradiction.
  - intros b Hwf Hnone.
    assert (Hcl : GameBoard.clearLines b = Ok (0, b)).
    { rewrite (clearLines_closed_form b Hwf), Hnone. reflexivity. }
    split; [exact Hcl|]. induction k as [|k IHk]; [reflexivity|].
    rewrite Nat.iter_succ, IHk. simpl. rewrite Hcl. reflexivity.
  - intros m b b' Hcall Hne Hempty. destruct m as [piece| | |]; simpl in Hcall; auto.
    + exfalso. unfold GameBoard.placePiece in Hcall.
      destruct (GameBoard.placeLoop _ _ _ _ _) as [g| |]; simpl in Hcall;
        try discriminate.
      injection Hcall as <-. simpl in Hempty. contradiction.
    + exfalso. destruct (GameBoard.clearLines b) as [[n b1]| |] eqn:Hcl;
        simpl in Hcall; try discriminate.
      injection Hcall as <-.
      destruct (Hzero b n b1 Hcl) as [[_ ->] | [_ Hflash]]; contradiction.
  - intros b. split; reflexivity.
Qed.

(** ** The controller: rotation *)

Lemma kickLoop_find :
  forall cur piece kicks g,
    shaped (TetrisGame.board g) = true ->
    TetrisGame.kickLoop cur piece kicks g
    = Ok match find (fun d => fits (TetrisGame.board g) piece (fst d) (snd d)) kicks with
         | Some d => TetrisGame.commitRotation cur (fst d) (snd d) g
         | None => g
         end.
Proof.
  intros cur piece kicks g Hs. induction kicks as [|[dx dy] rest IH]; simpl.
  - reflexivity.
  - rewrite canPlacePiece_total by assumption. simpl.
    destruct (fits (TetrisGame.board g) piece dx dy); [reflexivity|exact IH].
Qed.

(** C5: for a T piece in rotation state 0, [rotatePiece] first tries the
    rotated piece in place; if that does not fit it tries the offsets
    (-1,0), (-1,1), (0,-2), (-1,-2) in this order and commits the rotated mask,
    rotation state 1 and the moved position at the first offset that fits,
    resetting the lock countdown; if none fits the state is unchanged. *)
Theorem rotatePiece_T_wall_kicks :
  forall g cur,
    TetrisGame.currentPiece g = Some cur ->
    TetrisGame.isGameOver g = false ->
    shaped (TetrisGame.board g) = true ->
    Piece.type cur = TypeT ->
    Piece.rotation cur = 0 ->
    Piece.getWallKickOffsets (Piece.rotate (Piece.copy cur)) 0 1
    = [(-1, 0); (-1, 1); (0, -2); (-1, -2)]
    /\ TetrisGame.rotatePiece g
       = Ok (rotateWithKicks [(-1, 0); (-1, 1); (0, -2); (-1, -2)] cur g)
    /\ (forall g', TetrisGame.rotatePiece g = Ok g' ->
          g' = g
          \/ exists dx dy,
               In (dx, dy) [(0, 0); (-1, 0); (-1, 1); (0, -2); (-1, -2)]
               /\ fits (TetrisGame.board g) (Piece.rotate (Piece.copy cur)) dx dy = true
               /\ TetrisGame.currentPiece g'
                  = Some (Piece.mk TypeT (Piece.rotate_shape (Piece.shape cur))
                            (Piece.color cur) (Piece.x cur + dx) (Piece.y cur + dy) 1)
               /\ TetrisGame.isLocking g' = false).
Proof.
  intros g cur Hcur Hover Hs Hty Hrot.
  assert (Hkicks : Piece.getWallKickOffsets (Piece.rotate (Piece.copy cur)) 0 1
                   = [(-1, 0); (-1, 1); (0, -2); (-1, -2)]).
  { unfold Piece.getWallKickOffsets. simpl. rewrite Hty. reflexivity. }
  assert (Hrun : TetrisGame.rotatePiece g
                 = Ok (rotateWithKicks [(-1, 0); (-1, 1); (0, -2); (-1, -2)] cur g)).
  { unfold TetrisGame.rotatePiece, rotateWithKicks. rewrite Hcur, Hover.
    cbv zeta. rewrite canPlacePiece_total by assumption. simpl bind.
    destruct (fits (TetrisGame.board g) (Piece.rotate (Piece.copy cur)) 0 0).
    - unfold Piece.rotate. rewrite !Z.add_0_r. reflexivity.
    - rewrite Hrot. change (Z.rem (0 + 1) 4) with 1.
      rewrite Hkicks, kickLoop_find by assumption.
      destruct (find _ _) as [d|]; [|reflexivity].
      unfold TetrisGame.commitRotation, Piece.rotate. simpl. rewrite Hrot.
      reflexivity. }
  split; [exact Hkicks|]. split; [exact Hrun|].
  intros g' Hg'. rewrite Hrun in Hg'. injection Hg' as <-.
  unfold rotateWithKicks.
  destruct (fits (TetrisGame.board g) (Piece.rotate (Piece.copy cur)) 0 0) eqn:H0.
  - right. exists 0, 0. rewrite Hty, Hrot. simpl. auto.
  - destruct (find _ _) as [[dx dy]|] eqn:Hfind; [|left; reflexivity].
    right. exists dx, dy. apply find_some in Hfind as [Hin Hfit].
    rewrite Hty, Hrot. simpl in *. repeat split; auto.
Qed.

(** ** Well-formed boards are preserved *)

Lemma wellFormed_gridOk :
  forall b, wellFormed b = true <->
            gridOk (GameBoard.width b) (GameBoard.height b) (GameBoard.grid b).
Proof.
  intros b. unfold wellFormed, shaped, gridOk.
  rewrite !andb_true_iff, !forallb_forall, !Z.leb_le, Nat.eqb_eq, Forall_forall.
  split.
  - intros ((((Hw & Hh) & Hlen) & Hrows) & Hv). repeat split; try assumption.
    + apply Nat.eqb_eq. now apply Hrows.
    + now apply Hv.
  - intros (Hw & Hh & Hlen & Hrows). repeat split; try assumption.
    + intros row Hin. apply Nat.eqb_eq. now apply Hrows.
    + intros row Hin. now apply Hrows.
Qed.

Lemma update_length :
  forall (A : Type) (l : list A) i v,
    List.length (JsArray.update l i v) = List.length l.
Proof.
  intros A l. induction l as [|h l IH]; intros [|i] v; simpl; auto.
Qed.

Lemma update_Forall :
  forall (A : Type) (P : A -> Prop) (l : list A) i v,
    Forall P l -> P v -> Forall P (JsArray.update l i v).
Proof.
  intros A P l. induction l as [|h l IH]; intros [|i] v Hl Hv; simpl;
    inversion Hl; subst; constructor; auto.
Qed.

Lemma assign_length :
  forall (A : Type) (hole : A) (l : list A) i v,
    (i < List.length l)%nat ->
    List.length (JsArray.assign hole l i v) = List.length l.
Proof.
  intros A hole l. induction l as [|h l IH]; intros [|i] v Hi; simpl in *;
    try lia; auto.
  rewrite IH by lia. reflexivity.
Qed.

Lemma assign_forallb :
  forall (A : Type) (P : A -> bool) (hole : A) (l : list A) i v,
    (i < List.length l)%nat -> forallb P l = true -> P v = true ->
    forallb P (JsArray.assign hole l i v) = true.
Proof.
  intros A P hole l. induction l as [|h l IH]; intros [|i] v Hi Hl Hv;
    simpl in *; try lia.
  - apply andb_prop in Hl as [_ Hl]. now rewrite Hv, Hl.
  - apply andb_prop in Hl as [Hh Hl]. rewrite Hh. simpl. apply IH; auto. lia.
Qed.

Lemma placeLoop_gridOk :
  forall w h col positions g,
    gridOk w h g -> validCell (Color col) = true ->
    exists g', GameBoard.placeLoop w h col positions g = Ok g' /\ gridOk w h g'.
Proof.
  intros w h col positions. induction positions as [|pos rest IH]; intros g Hg Hc.
  - exists g. split; [reflexivity|exact Hg].
  - simpl.
    destruct ((snd pos >=? 0) && (snd pos <? h) && (fst pos >=? 0) && (fst pos <? w))
      eqn:Hin; [|now apply IH].
    rewrite !andb_true_iff in Hin. destruct Hin as (((H1 & H2) & H3) & H4).
    apply Z.geb_le in H1, H3. apply Z.ltb_lt in H2, H4.
    destruct Hg as (Hw & Hh & Hlen & Hrows).
    destruct (nth_error g (Z.to_nat (snd pos))) as [row|] eqn:Hrow.
    + apply IH; [|exact Hc].
      rewrite Forall_forall in Hrows.
      destruct (Hrows row (nth_error_In _ _ Hrow)) as [Hrl Hrv].
      repeat split; try assumption.
      * now rewrite update_length.
      * apply update_Forall; [now apply Forall_forall|]. split.
        -- rewrite assign_length; [exact Hrl|lia].
        -- apply assign_forallb; [lia|exact Hrv|exact Hc].
    + apply nth_error_None in Hrow. lia.
Qed.

(** Placing a piece with a valid colour on a well-formed board succeeds and
    leaves a well-formed board of the same size with the same flash
    record. *)
Lemma placePiece_wellFormed :
  forall b p,
    wellFormed b = true -> Piece.color p <> ""%string ->
    exists b1, GameBoard.placePiece b p = Ok b1
               /\ wellFormed b1 = true
               /\ GameBoard.width b1 = GameBoard.width b
               /\ GameBoard.height b1 = GameBoard.height b
               /\ GameBoard.linesToFlash b1 = GameBoard.linesToFlash b.
Proof.
  intros b p Hwf Hcol. apply wellFormed_gridOk in Hwf.
  assert (Hc : validCell (Color (Piece.color p)) = true).
  { simpl. apply negb_true_iff. now apply String.eqb_neq. }
  destruct (placeLoop_gridOk _ _ (Piece.color p)
              (Piece.getOccupiedPositions p) _ Hwf Hc) as (g' & Hrun & Hg').
  unfold GameBoard.placePiece. rewrite Hrun. simpl. eexists. split; [reflexivity|].
  split; [|auto]. apply wellFormed_gridOk. exact Hg'.
Qed.

Lemma emptyRow_ok :
  forall w, List.length (GameBoard.emptyRow w) = Z.to_nat w
            /\ forallb validCell (GameBoard.emptyRow w) = true.
Proof.
  intros w. unfold GameBoard.emptyRow. split; [apply repeat_length|].
  induction (Z.to_nat w) as [|n IH]; simpl; auto.
Qed.

(** Clearing lines on a well-formed board succeeds and leaves a well-formed
    board of the same size. *)
Lemma clearLines_wellFormed :
  forall b,
    wellFormed b = true ->
    exists n b', GameBoard.clearLines b = Ok (n, b')
                 /\ 0 <= n
                 /\ wellFormed b' = true
                 /\ GameBoard.width b' = GameBoard.width b
                 /\ GameBoard.height b' = GameBoard.height b.
Proof.
  intros b Hwf. rewrite (clearLines_closed_form b Hwf).
  do 2 eexists. split; [reflexivity|]. split; [lia|].
  destruct (completeRows b) as [|i rest] eqn:E; [auto|].
  split; [|auto]. apply wellFormed_gridOk.
  cbn [GameBoard.width GameBoard.height GameBoard.grid].
  apply wellFormed_gridOk in Hwf. destruct Hwf as (Hw & Hh & Hlen & Hrows).
  repeat split; try assumption.
  - pose proof (keptRows_length (GameBoard.grid b) 0) as Hk.
    unfold completeRows in E. rewrite E in Hk.
    rewrite length_app, repeat_length. simpl in *. lia.
  - apply Forall_app. split.
    + apply Forall_forall. intros row Hin. apply repeat_spec in Hin. subst row.
      apply emptyRow_ok.
    + apply Forall_forall. intros row Hin. unfold keptRows in Hin.
      apply filter_In in Hin as [Hin _]. rewrite Forall_forall in Hrows. auto.
Qed.

(** ** The controller: locking and scoring *)

Lemma lockPiece_eq :
  forall ty g cur,
    TetrisGame.currentPiece g = Some cur ->
    TetrisGame.lockPiece ty g
    = (b1 <- GameBoard.placePiece (TetrisGame.board g) cur ;;
       ' (n, b2) <- GameBoard.clearLines b1 ;;
       spawnAfterLock ty (scored n b2 g)).
Proof.
  intros ty g cur Hcur. unfold TetrisGame.lockPiece. rewrite Hcur. reflexivity.
Qed.

Lemma scored_frame :
  forall n b2 g,
    TetrisGame.board (scored n b2 g) = b2
    /\ TetrisGame.nextPiece (scored n b2 g) = TetrisGame.nextPiece g
    /\ TetrisGame.currentPiece (scored n b2 g) = TetrisGame.currentPiece g
    /\ TetrisGame.isGameOver (scored n b2 g) = TetrisGame.isGameOver g.
Proof.
  intros n b2 g. unfold scored, TetrisGame.handleLinesCleared.
  destruct (n >? 0); cbv zeta; [|repeat split; reflexivity].
  match goal with |- context [if ?c then _ else _] => destruct c end;
    repeat split; reflexivity.
Qed.

Lemma spawnAfterLock_inv :
  forall ty g2 g',
    spawnAfterLock ty g2 = Ok g' ->
    TetrisGame.board g' = TetrisGame.board g2
    /\ TetrisGame.score g' = TetrisGame.score g2
    /\ TetrisGame.lines g' = TetrisGame.lines g2
    /\ TetrisGame.level g' = TetrisGame.level g2
    /\ TetrisGame.combo g' = TetrisGame.combo g2
    /\ TetrisGame.dropInterval g' = TetrisGame.dropInterval g2
    /\ TetrisGame.lineFlashTimer g' = TetrisGame.lineFlashTimer g2
    /\ TetrisGame.isLocking g' = false
    /\ TetrisGame.currentPiece g' = TetrisGame.nextPiece g2
    /\ TetrisGame.nextPiece g' = Some (Piece.new ty None None).
Proof.
  intros ty g2 g' H. unfold spawnAfterLock in H. cbv zeta in H.
  change (TetrisGame.board (TetrisGame.spawnNewPiece ty (TetrisGame.resetLockTimer g2)))
    with (TetrisGame.board g2) in H.
  change (TetrisGame.currentPiece
            (TetrisGame.spawnNewPiece ty (TetrisGame.resetLockTimer g2)))
    with (TetrisGame.nextPiece g2) in H.
  destruct (GameBoard.isGameOver (TetrisGame.board g2)) as [over| |];
    cbn [bind] in H; try discriminate.
  destruct over.
  - injection H as <-. repeat split; reflexivity.
  - destruct (TetrisGame.nextPiece g2) as [q|] eqn:Hq; [|discriminate].
    destruct (GameBoard.canPlacePiece (TetrisGame.board g2) q 0 0) as [ok| |];
      cbn [bind] in H; try discriminate.
    injection H as <-. destruct ok; repeat split; try reflexivity; exact Hq.
Qed.

Lemma lockPiece_inv :
  forall ty g g' cur,
    TetrisGame.currentPiece g = Some cur ->
    TetrisGame.lockPiece ty g = Ok g' ->
    exists b1 n b2,
      GameBoard.placePiece (TetrisGame.board g) cur = Ok b1
      /\ GameBoard.clearLines b1 = Ok (n, b2)
      /\ spawnAfterLock ty (scored n b2 g) = Ok g'.
Proof.
  intros ty g g' cur Hcur Hlock. rewrite (lockPiece_eq ty g cur Hcur) in Hlock.
  destruct (GameBoard.placePiece (TetrisGame.board g) cur) as [b1| |] eqn:Hplace;
    cbn [bind] in Hlock; try discriminate.
  destruct (GameBoard.clearLines b1) as [[n b2]| |] eqn:Hclear;
    cbn [bind] in Hlock; try discriminate.
  exists b1, n, b2. auto.
Qed.

(** On a well-formed board with at least one row the lock sequence runs to
    its end when the piece has a valid colour and a next piece is queued. *)
Lemma lockPiece_total :
  forall ty g cur next,
    TetrisGame.currentPiece g = Some cur ->
    TetrisGame.nextPiece g = Some next ->
    wellFormed (TetrisGame.board g) = true ->
    0 < GameBoard.height (TetrisGame.board g) ->
    Piece.color cur <> ""%string ->
    exists b1 n b2 g',
      GameBoard.placePiece (TetrisGame.board g) cur = Ok b1
      /\ GameBoard.clearLines b1 = Ok (n, b2)
      /\ 0 <= n
      /\ wellFormed b2 = true
      /\ TetrisGame.lockPiece ty g = Ok g'.
Proof.
  intros ty g cur next Hcur Hnext Hwf Hh Hcol.
  destruct (placePiece_wellFormed _ cur Hwf Hcol) as (b1 & Hplace & Hwf1 & Hw1 & Hh1 & _).
  destruct (clearLines_wellFormed b1 Hwf1) as (n & b2 & Hclear & Hn & Hwf2 & Hw2 & Hh2).
  exists b1, n, b2.
  rewrite (lockPiece_eq ty g cur Hcur), Hplace. cbn [bind]. rewrite Hclear. cbn [bind].
  destruct (scored_frame n b2 g) as (Hboard & Hnx & _).
  unfold spawnAfterLock. cbv zeta.
  change (TetrisGame.board
            (TetrisGame.spawnNewPiece ty (TetrisGame.resetLockTimer (scored n b2 g))))
    with (TetrisGame.board (scored n b2 g)).
  change (TetrisGame.currentPiece
            (TetrisGame.spawnNewPiece ty (TetrisGame.resetLockTimer (scored n b2 g))))
    with (TetrisGame.nextPiece (scored n b2 g)).
  rewrite Hboard, Hnx, Hnext. unfold GameBoard.isGameOver.
  destruct (GameBoard.grid b2) as [|row0 rows] eqn:Hgrid.
  { apply wellFormed_gridOk in Hwf2. destruct Hwf2 as (_ & _ & Hlen & _).
    rewrite Hgrid in Hlen. simpl in Hlen. lia. }
  cbn [bind]. destruct (GameBoard.rowSome row0).
  - eexists. repeat split; try eassumption.
  - rewrite canPlacePiece_total by now apply wellFormed_shaped.
    cbn [bind]. eexists. repeat split; try eassumption.
Qed.

Lemma handleLinesCleared_fields :
  forall n g,
    let h := TetrisGame.handleLinesCleared n g in
    let newLevel := (TetrisGame.lines g + n) / 10 + 1 in
    TetrisGame.lines h = TetrisGame.lines g + n
    /\ TetrisGame.combo h = TetrisGame.combo g + 1
    /\ TetrisGame.score h
       = Num_add (TetrisGame.score g)
           (if TetrisGame.combo g + 1 >? 1
            then Num_add (TetrisGame.baseScore n (TetrisGame.level g))
                   (Number (50 * (TetrisGame.combo g + 1) * TetrisGame.level g))
            else TetrisGame.baseScore n (TetrisGame.level g))
    /\ TetrisGame.level h = Z.max (TetrisGame.level g) newLevel
    /\ TetrisGame.dropInterval h
       = (if newLevel >? TetrisGame.level g
          then TetrisGame.getLevelDropInterval newLevel
          else TetrisGame.dropInterval g)
    /\ TetrisGame.board h = TetrisGame.board g.
Proof.
  intros n g h newLevel. subst h newLevel. unfold TetrisGame.handleLinesCleared.
  cbv zeta.
  cbn [TetrisGame.set_lines TetrisGame.set_combo TetrisGame.set_score
       TetrisGame.lines TetrisGame.combo TetrisGame.level TetrisGame.score].
  destruct (Z.gtb_spec ((TetrisGame.lines g + n) / 10 + 1) (TetrisGame.level g)) as [H|H];
    cbn; repeat split; try reflexivity; lia.
Qed.

Lemma baseScore_table :
  forall n lvl, 1 <= n <= 4 ->
    TetrisGame.baseScore n lvl = Number (lineBase n * lvl).
Proof.
  intros n lvl Hn.
  assert (n = 1 \/ n = 2 \/ n = 3 \/ n = 4) as [-> | [-> | [-> | ->]]] by lia;
    reflexivity.
Qed.

(** C6: a lock sequence on a well-formed board returns.  When it clears
    [n] lines with [n] in 1..4, at level [L], the lines counter grows by [n],
    the combo counter by 1, and the score by [base(n) * L], with base 40, 100,
    300, 1200, plus [50 * combo * L] when the incremented combo exceeds 1.
    When it clears no line the combo counter is reset to 0 and the score,
    the lines counter and the level stay.  So a single-line clear at level 1
    without combo adds 40 points, and a four-line clear at level 3 that
    brings the combo to 2 adds 3900 points. *)
Theorem lockPiece_scoring :
  forall ty g cur next s,
    TetrisGame.currentPiece g = Some cur ->
    TetrisGame.nextPiece g = Some next ->
    wellFormed (TetrisGame.board g) = true ->
    0 < GameBoard.height (TetrisGame.board g) ->
    Piece.color cur <> ""%string ->
    TetrisGame.score g = Number s ->
    exists b1 n b2 g',
      GameBoard.placePiece (TetrisGame.board g) cur = Ok b1
      /\ GameBoard.clearLines b1 = Ok (n, b2)
      /\ TetrisGame.lockPiece ty g = Ok g'
      /\ (1 <= n <= 4 ->
          TetrisGame.lines g' = TetrisGame.lines g + n
          /\ TetrisGame.combo g' = TetrisGame.combo g + 1
          /\ TetrisGame.score g'
             = Number (s + (lineBase n * TetrisGame.level g
                            + (if 1 <? TetrisGame.combo g + 1
                               then 50 * (TetrisGame.combo g + 1) * TetrisGame.level g
                               else 0))))
      /\ (n = 0 ->
          TetrisGame.lines g' = TetrisGame.lines g
          /\ TetrisGame.combo g' = 0
          /\ TetrisGame.score g' = Number s
          /\ TetrisGame.level g' = TetrisGame.level g)
      /\ (n = 1 -> TetrisGame.level g = 1 -> TetrisGame.combo g = 0 ->
          TetrisGame.score g' = Number (s + 40))
      /\ (n = 4 -> TetrisGame.level g = 3 -> TetrisGame.combo g = 1 ->
          TetrisGame.combo g' = 2 /\ TetrisGame.score g' = Number (s + 3900)).
Proof.
  intros ty g cur next s Hcur Hnext Hwf Hh Hcol Hscore.
  destruct (lockPiece_total ty g cur next Hcur Hnext Hwf Hh Hcol)
    as (b1 & n & b2 & g' & Hplace & Hclear & Hn & Hwf2 & Hlock).
  exists b1, n, b2, g'. split; [exact Hplace|]. split; [exact Hclear|].
  split; [exact Hlock|].
  destruct (lockPiece_inv ty g g' cur Hcur Hlock) as (b1' & n' & b2' & Hp' & Hc' & Hspawn).
  rewrite Hplace in Hp'. injection Hp' as <-.
  rewrite Hclear in Hc'. injection Hc' as <- <-.
  destruct (spawnAfterLock_inv ty _ g' Hspawn)
    as (_ & Hsc & Hli & Hlv & Hco & _).
  assert (Hclr : 1 <= n <= 4 ->
            TetrisGame.lines g' = TetrisGame.lines g + n
            /\ TetrisGame.combo g' = TetrisGame.combo g + 1
            /\ TetrisGame.score g'
               = Number (s + (lineBase n * TetrisGame.level g
                              + (if 1 <? TetrisGame.combo g + 1
                                 then 50 * (TetrisGame.combo g + 1) * TetrisGame.level g
                                 else 0)))).
  { intros Hn14. rewrite Hsc, Hli, Hco. unfold scored.
    replace (n >? 0) with true by (symmetry; apply Z.gtb_lt; lia). cbv zeta.
    destruct (handleLinesCleared_fields n (TetrisGame.set_board b2 g))
      as (H1 & H2 & H3 & _).
    cbv zeta in H1, H2, H3.
    change (TetrisGame.lines (TetrisGame.set_lineFlashTimer ?t ?h))
      with (TetrisGame.lines h).
    change (TetrisGame.combo (TetrisGame.set_lineFlashTimer ?t ?h))
      with (TetrisGame.combo h).
    change (TetrisGame.score (TetrisGame.set_lineFlashTimer ?t ?h))
      with (TetrisGame.score h).
    rewrite H1, H2, H3.
    change (TetrisGame.lines (TetrisGame.set_board b2 g)) with (TetrisGame.lines g).
    change (TetrisGame.combo (TetrisGame.set_board b2 g)) with (TetrisGame.combo g).
    change (TetrisGame.level (TetrisGame.set_board b2 g)) with (TetrisGame.level g).
    change (TetrisGame.score (TetrisGame.set_board b2 g)) with (TetrisGame.score g).
    rewrite Hscore, baseScore_table by assumption.
    rewrite Z.gtb_ltb. destruct (1 <? TetrisGame.combo g + 1); simpl;
      repeat split; try reflexivity. f_equal. lia. }
  split; [exact Hclr|]. split; [|split].
  - intros ->. rewrite Hsc, Hli, Hlv, Hco. unfold scored. simpl.
    rewrite Hscore. repeat split; reflexivity.
  - intros -> HL Hc0. destruct Hclr as (_ & _ & Hs); [lia|].
    rewrite Hs, HL, Hc0. reflexivity.
  - intros -> HL Hc1. destruct Hclr as (_ & Hc & Hs); [lia|].
    rewrite Hc, Hs, HL, Hc1. split; reflexivity.
Qed.

(** ** The controller: hard drop *)

(** The lock sequence of a piece does not look at the lock countdown. *)
Lemma lockPiece_ignores_countdown :
  forall ty g cur t l,
    TetrisGame.currentPiece g = Some cur ->
    TetrisGame.lockPiece ty (TetrisGame.set_lockTimer t (TetrisGame.set_isLocking l g))
    = TetrisGame.lockPiece ty g.
Proof.
  intros ty g cur t l Hcur.
  rewrite (lockPiece_eq ty g cur Hcur).
  rewrite (lockPiece_eq ty _ cur) by exact Hcur.
  change (TetrisGame.board
            (TetrisGame.set_lockTimer t (TetrisGame.set_isLocking l g)))
    with (TetrisGame.board g).
  destruct (GameBoard.placePiece (TetrisGame.board g) cur) as [b1| |];
    cbn [bind]; try reflexivity.
  destruct (GameBoard.clearLines b1) as [[n b2]| |]; cbn [bind]; try reflexivity.
  assert (Hreset :
            TetrisGame.resetLockTimer
              (scored n b2 (TetrisGame.set_lockTimer t (TetrisGame.set_isLocking l g)))
            = TetrisGame.resetLockTimer (scored n b2 g)).
  { unfold scored, TetrisGame.handleLinesCleared.
    destruct (n >? 0); cbv zeta; [|reflexivity].
    cbn [TetrisGame.set_lines TetrisGame.set_combo TetrisGame.set_score
         TetrisGame.set_board TetrisGame.set_lockTimer TetrisGame.set_isLocking
         TetrisGame.lines TetrisGame.combo TetrisGame.level TetrisGame.score].
    destruct (_ >? _); reflexivity. }
  unfold spawnAfterLock. cbv zeta. rewrite Hreset. reflexivity.
Qed.

(** C7: for a session that is not over, whose current piece has a set mask
    cell, on a board of the right shape, there is a landing row, the one
    [getDropPosition] returns, such that [hardDrop] with enough iteration
    budget is the lock sequence run on the session in which the piece has
    been moved to the landing row and [2 * (landingRow - startRow)] has been
    added to the score.  The lock is run in the same call whatever the state
    of the lock countdown; it returns on a well-formed board, and when it
    clears no line the score after the hard drop is the score before plus
    exactly [2 * (landingRow - startRow)]. *)
Theorem hardDrop_scores_and_locks :
  forall fuel ty g cur row col,
    TetrisGame.currentPiece g = Some cur ->
    TetrisGame.isGameOver g = false ->
    shaped (TetrisGame.board g) = true ->
    maskSet cur row col ->
    exists landing,
      Piece.y cur <= landing
         <= Piece.y cur
            + Z.max 0 (GameBoard.height (TetrisGame.board g) - Piece.y cur - 1)
      /\ (forall f, (Z.to_nat (landing - Piece.y cur) < f)%nat ->
            GameBoard.getDropPosition f (TetrisGame.board g) cur = Ok landing)
      /\ ((Z.to_nat (landing - Piece.y cur) < fuel)%nat ->
          TetrisGame.hardDrop fuel ty g
          = TetrisGame.lockPiece ty (droppedTo landing cur g)
          /\ (forall t l,
                 TetrisGame.hardDrop fuel ty
                   (TetrisGame.set_lockTimer t (TetrisGame.set_isLocking l g))
                 = TetrisGame.hardDrop fuel ty g)
          /\ (forall next,
                 TetrisGame.nextPiece g = Some next ->
                 wellFormed (TetrisGame.board g) = true ->
                 0 < GameBoard.height (TetrisGame.board g) ->
                 Piece.color cur <> ""%string ->
                 exists g', TetrisGame.hardDrop fuel ty g = Ok g')
          /\ (forall s b1 b2 g',
                 TetrisGame.score g = Number s ->
                 GameBoard.placePiece (TetrisGame.board g)
                   (movedTo cur (Piece.x cur) landing) = Ok b1 ->
                 GameBoard.clearLines b1 = Ok (0, b2) ->
                 TetrisGame.hardDrop fuel ty g = Ok g' ->
                 TetrisGame.score g' = Number (s + 2 * (landing - Piece.y cur)))).
Proof.
  intros fuel ty g cur row col Hcur Hover Hs Hset.
  destruct (getDropPosition_landing_row (TetrisGame.board g) cur row col Hs Hset)
    as (k & Hk & Hrun & _).
  exists (Piece.y cur + k).
  replace (Piece.y cur + k - Piece.y cur) with k by lia.
  split; [lia|]. split; [exact Hrun|]. intros Hfuel.
  assert (Hhd : forall g0,
             TetrisGame.currentPiece g0 = Some cur ->
             TetrisGame.isGameOver g0 = false ->
             TetrisGame.board g0 = TetrisGame.board g ->
             TetrisGame.hardDrop fuel ty g0
             = TetrisGame.lockPiece ty (droppedTo (Piece.y cur + k) cur g0)).
  { intros g0 Hc0 Ho0 Hb0. unfold TetrisGame.hardDrop.
    rewrite Hc0, Ho0, Hb0, (Hrun fuel Hfuel). cbn [bind]. unfold droppedTo, movedTo.
    replace ((Piece.y cur + k - Piece.y cur) * 2)
      with (2 * (Piece.y cur + k - Piece.y cur)) by lia.
    reflexivity. }
  pose proof (Hhd g Hcur Hover eq_refl) as Hmain.
  split; [exact Hmain|]. split; [|split].
  - intros t l. rewrite Hmain.
    rewrite (Hhd (TetrisGame.set_lockTimer t (TetrisGame.set_isLocking l g)))
      by (assumption || reflexivity).
    change (droppedTo (Piece.y cur + k) cur
              (TetrisGame.set_lockTimer t (TetrisGame.set_isLocking l g)))
      with (TetrisGame.set_lockTimer t
              (TetrisGame.set_isLocking l (droppedTo (Piece.y cur + k) cur g))).
    apply (lockPiece_ignores_countdown ty _ (movedTo cur (Piece.x cur) (Piece.y cur + k))).
    reflexivity.
  - intros next Hnext Hwf Hh Hcol. rewrite Hmain.
    destruct (lockPiece_total ty (droppedTo (Piece.y cur + k) cur g)
                (movedTo cur (Piece.x cur) (Piece.y cur + k)) next)
      as (_ & _ & _ & g' & _ & _ & _ & _ & Hlock); try assumption; try reflexivity.
    exists g'. exact Hlock.
  - intros s b1 b2 g' Hscore Hplace Hclear Hdrop. rewrite Hmain in Hdrop.
    destruct (lockPiece_inv ty (droppedTo (Piece.y cur + k) cur g) g'
                (movedTo cur (Piece.x cur) (Piece.y cur + k))
                eq_refl Hdrop) as (b1' & n' & b2' & Hp' & Hc' & Hspawn).
    change (TetrisGame.board (droppedTo (Piece.y cur + k) cur g))
      with (TetrisGame.board g) in Hp'.
    rewrite Hplace in Hp'. injection Hp' as <-.
    rewrite Hclear in Hc'. injection Hc' as <- <-.
    destruct (spawnAfterLock_inv ty _ g' Hspawn) as (_ & Hsc & _).
    rewrite Hsc. unfold scored.
    change (0 >? 0) with false. cbv iota.
    change (TetrisGame.score
              (TetrisGame.set_combo 0
                 (TetrisGame.set_board b2 (droppedTo (Piece.y cur + k) cur g))))
      with (Num_add (TetrisGame.score g)
              (Number (2 * (Piece.y cur + k - Piece.y cur)))).
    rewrite Hscore. cbn [Num_add]. f_equal. lia.
Qed.

(** ** The controller: levels over a session *)

Lemma sameStats_refl : forall g, sameStats g g.
Proof. intros g. repeat split. Qed.

Lemma sameStats_trans :
  forall g1 g2 g3, sameStats g1 g2 -> sameStats g2 g3 -> sameStats g1 g3.
Proof.
  intros g1 g2 g3 (H1 & H2 & H3) (H4 & H5 & H6). repeat split; congruence.
Qed.

Lemma sameStats_advances : forall g g', sameStats g g' -> advances g g'.
Proof.
  intros g g' (H1 & H2 & H3) (Ht1 & Ht2). unfold tracks.
  rewrite H1, H2, H3. repeat split; try assumption. lia.
Qed.

Lemma moveCurrentPiece_stats :
  forall dx dy g r g',
    TetrisGame.moveCurrentPiece dx dy g = Ok (r, g') -> sameStats g g'.
Proof.
  intros dx dy g r g' H. unfold TetrisGame.moveCurrentPiece in H.
  repeat step_outcome H; stats_done.
Qed.

Lemma kickLoop_stats :
  forall cur piece kicks g g',
    TetrisGame.kickLoop cur piece kicks g = Ok g' -> sameStats g g'.
Proof.
  intros cur piece kicks g g'. induction kicks as [|[dx dy] rest IH]; simpl; intros H.
  - step_outcome H. apply sameStats_refl.
  - step_outcome H. step_outcome H; [|now apply IH].
    step_outcome H. stats_done.
Qed.

Lemma rotatePiece_stats :
  forall g g', TetrisGame.rotatePiece g = Ok g' -> sameStats g g'.
Proof.
  intros g g' H. unfold TetrisGame.rotatePiece in H. cbv zeta in H.
  step_outcome H; [|step_outcome H; apply sameStats_refl].
  step_outcome H; [step_outcome H; apply sameStats_refl|].
  step_outcome H. step_outcome H.
  - step_outcome H. stats_done.
  - eapply kickLoop_stats; eauto.
Qed.

Lemma softDrop_stats :
  forall g g', TetrisGame.softDrop g = Ok g' -> sameStats g g'.
Proof.
  intros g g' H. unfold TetrisGame.softDrop in H.
  destruct (TetrisGame.moveCurrentPiece 0 1 g) as [[moved g1]| |] eqn:E;
    cbn [bind] in H; try discriminate H.
  apply moveCurrentPiece_stats in E. injection H as <-.
  eapply sameStats_trans; [exact E|]. destruct moved; stats_done.
Qed.

Lemma handleLinesCleared_advances :
  forall n g, 0 < n -> advances g (TetrisGame.handleLinesCleared n g).
Proof.
  intros n g Hn (Hlv & Hdi).
  destruct (handleLinesCleared_fields n g) as (H1 & _ & _ & H4 & H5 & _).
  cbv zeta in *. unfold tracks. rewrite H1, H4, H5.
  assert (Hmono : TetrisGame.lines g / 10 <= (TetrisGame.lines g + n) / 10)
    by (apply Z.div_le_mono; lia).
  destruct (Z.gtb_spec ((TetrisGame.lines g + n) / 10 + 1) (TetrisGame.level g)) as [Hgt|Hle].
  - rewrite Z.max_r by lia. repeat split; lia.
  - rewrite Z.max_l by lia. repeat split; try lia. exact Hdi.
Qed.

Lemma scored_advances :
  forall n b2 g, advances g (scored n b2 g).
Proof.
  intros n b2 g. unfold scored. destruct (Z.gtb_spec n 0) as [Hn|Hn].
  - cbv zeta. intros Ht.
    destruct (handleLinesCleared_advances n (TetrisGame.set_board b2 g)) as [H1 H2];
      [lia|exact Ht|].
    split; [exact H1|exact H2].
  - apply sameStats_advances. repeat split.
Qed.

Lemma lockPiece_advances :
  forall ty g g', TetrisGame.lockPiece ty g = Ok g' -> advances g g'.
Proof.
  intros ty g g' H. destruct (TetrisGame.currentPiece g) as [cur|] eqn:Hcur.
  - destruct (lockPiece_inv ty g g' cur Hcur H) as (b1 & n & b2 & _ & _ & Hspawn).
    destruct (spawnAfterLock_inv ty _ g' Hspawn) as (_ & _ & Hli & Hlv & _ & Hdi & _).
    intros Ht. destruct (scored_advances n b2 g Ht) as [[Ht1 Ht2] Hle].
    unfold tracks. rewrite Hli, Hlv, Hdi. auto.
  - unfold TetrisGame.lockPiece in H. rewrite Hcur in H. injection H as <-.
    apply sameStats_advances, sameStats_refl.
Qed.

Lemma advances_trans :
  forall g1 g2 g3, advances g1 g2 -> advances g2 g3 -> advances g1 g3.
Proof.
  intros g1 g2 g3 H12 H23 Ht. destruct (H12 Ht) as [Ht2 Hle].
  destruct (H23 Ht2) as [Ht3 Hle']. split; [exact Ht3|lia].
Qed.

Lemma hardDrop_advances :
  forall fuel ty g g', TetrisGame.hardDrop fuel ty g = Ok g' -> advances g g'.
Proof.
  intros fuel ty g g' H. unfold TetrisGame.hardDrop in H. cbv zeta in H.
  step_outcome H; [|step_outcome H; apply sameStats_advances, sameStats_refl].
  step_outcome H; [step_outcome H; apply sameStats_advances, sameStats_refl|].
  step_outcome H.
  eapply advances_trans; [|eapply lockPiece_advances; exact H].
  apply sameStats_advances. repeat split.
Qed.

Lemma update_advances :
  forall dt ty g g', TetrisGame.update dt ty g = Ok g' -> advances g g'.
Proof.
  intros dt ty g g' H. unfold TetrisGame.update in H. cbv zeta in H.
  step_outcome H; [step_outcome H; apply sameStats_advances, sameStats_refl|].
  step_outcome H.
  { step_outcome H; step_outcome H; apply sameStats_advances; repeat split. }
  step_outcome H.
  { eapply advances_trans; [|eapply lockPiece_advances; exact H].
    apply sameStats_advances. destruct (TetrisGame.isLocking g); repeat split. }
  step_outcome H.
  - destruct (TetrisGame.moveCurrentPiece 0 1 _) as [[r g3]| |] eqn:Em;
      cbn [bind] in H; try discriminate H.
    injection H as <-. apply moveCurrentPiece_stats in Em.
    apply sameStats_advances. eapply sameStats_trans; [|exact Em].
    destruct (TetrisGame.isLocking g); repeat split.
  - step_outcome H. apply sameStats_advances.
    destruct (TetrisGame.isLocking g); repeat split.
Qed.

Lemma gameLoop_advances :
  forall now ty g g', TetrisGame.gameLoop now ty g = Ok g' -> advances g g'.
Proof.
  intros now ty g g' H. unfold TetrisGame.gameLoop in H. cbv zeta in H.
  step_outcome H; [step_outcome H; apply sameStats_advances, sameStats_refl|].
  eapply advances_trans; [|eapply update_advances; exact H].
  apply sameStats_advances. repeat split.
Qed.

Lemma restart_tracks : forall ty1 ty2 g, tracks (TetrisGame.restart ty1 ty2 g).
Proof. intros ty1 ty2 g. split; reflexivity. Qed.

(** Every call either restarts the session or makes a step of progress. *)
Lemma run_advances :
  forall c g g',
    TetrisGame.run c g = Ok g' ->
    (exists ty1 ty2, g' = TetrisGame.restart ty1 ty2 g) \/ advances g g'.
Proof.
  intros c g g' H. destruct c; simpl in H.
  - unfold TetrisGame.start in H. step_outcome H.
    + step_outcome H. left. eauto.
    + right. step_outcome H.
      * eapply advances_trans; [|eapply gameLoop_advances; exact H].
        apply sameStats_advances. repeat split.
      * step_outcome H. apply sameStats_advances, sameStats_refl.
  - right. unfold TetrisGame.togglePause in H. cbv zeta in H. step_outcome H.
    + step_outcome H. apply sameStats_advances, sameStats_refl.
    + step_outcome H.
      * eapply advances_trans; [|eapply gameLoop_advances; exact H].
        apply sameStats_advances. repeat split.
      * step_outcome H. apply sameStats_advances. repeat split.
  - left. step_outcome H. eauto.
  - right. eapply gameLoop_advances; eauto.
  - right. unfold TetrisGame.movePiece in H.
    destruct (TetrisGame.moveCurrentPiece dx dy g) as [[r g1]| |] eqn:E;
      cbn [bind] in H; try discriminate H.
    injection H as <-. apply sameStats_advances. eapply moveCurrentPiece_stats; eauto.
  - right. apply sameStats_advances. now apply rotatePiece_stats.
  - right. apply sameStats_advances. now apply softDrop_stats.
  - right. eapply hardDrop_advances; eauto.
Qed.

Lemma reachable_tracks : forall g, TetrisGame.reachable g -> tracks g.
Proof.
  intros g H. induction H as [ty1 ty2 | c g g' Hr IH Hrun].
  - split; reflexivity.
  - destruct (run_advances c g g' Hrun) as [(ty1 & ty2 & ->) | Hadv].
    + apply restart_tracks.
    + now apply Hadv.
Qed.

(** C9: in every reachable state of a session, so after every line clear,
    the level is [floor(lines / 10) + 1] and the drop interval is
    [max(1, 48 - (level - 1) * 5) / 60 * 1000] milliseconds, computed in
    binary64.  Every call leaves the level where it is or raises it, unless it
    restarts the session.  A lock leaves the level following the lines
    counter and, when it raises the level, leaves the drop interval
    recomputed for the new level.  When a clear brings the lines counter to
    10 in a state where level and drop interval follow the lines counter, as
    they do in every reachable state, the level becomes 2 and the drop interval becomes
    [43 / 60 * 1000] milliseconds, which lies between 716.65625 and 716.75
    and so is 716.7 to one decimal place. *)
Theorem level_follows_lines :
  (forall g,
      TetrisGame.reachable g ->
      TetrisGame.level g = TetrisGame.lines g / 10 + 1
      /\ TetrisGame.dropInterval g
         = PrimFloat.mul
             (PrimFloat.div
                (PrimFloat.of_uint63
                   (Uint63.of_Z (Z.max 1 (48 - (TetrisGame.level g - 1) * 5))))
                60%float)
             1000%float)
  /\ (forall c g g',
         TetrisGame.reachable g ->
         TetrisGame.run c g = Ok g' ->
         (exists ty1 ty2, g' = TetrisGame.restart ty1 ty2 g)
         \/ TetrisGame.level g <= TetrisGame.level g')
  /\ (forall ty g g',
         TetrisGame.reachable g ->
         TetrisGame.lockPiece ty g = Ok g' ->
         TetrisGame.level g' = TetrisGame.lines g' / 10 + 1
         /\ TetrisGame.level g <= TetrisGame.level g'
         /\ (TetrisGame.level g < TetrisGame.level g' ->
             TetrisGame.dropInterval g'
             = PrimFloat.mul
                 (PrimFloat.div
                    (PrimFloat.of_uint63
                       (Uint63.of_Z (Z.max 1 (48 - (TetrisGame.level g' - 1) * 5))))
                    60%float)
                 1000%float))
  /\ (forall n g,
         tracks g ->
         0 < n ->
         TetrisGame.lines g + n = 10 ->
         let h := TetrisGame.handleLinesCleared n g in
         TetrisGame.lines h = 10
         /\ TetrisGame.level h = 2
         /\ TetrisGame.dropInterval h
            = PrimFloat.mul (PrimFloat.div 43%float 60%float) 1000%float
         /\ PrimFloat.ltb 716.65625%float (TetrisGame.dropInterval h) = true
         /\ PrimFloat.ltb (TetrisGame.dropInterval h) 716.75%float = true).
Proof.
  split; [|split; [|split]].
  - intros g Hr. exact (reachable_tracks g Hr).
  - intros c g g' Hr Hrun.
    destruct (run_advances c g g' Hrun) as [Hrestart | Hadv]; [left; exact Hrestart|].
    right. apply Hadv. now apply reachable_tracks.
  - intros ty g g' Hr Hlock.
    destruct (lockPiece_advances ty g g' Hlock (reachable_tracks g Hr))
      as [[Hlv Hdi] Hle].
    repeat split; try assumption. intros _. exact Hdi.
  - intros n g Ht Hn H10 h.
    destruct (handleLinesCleared_advances n g Hn Ht)
      as [[Hlv Hdi] _].
    destruct (handleLinesCleared_fields n g) as (Hli & _).
    fold h in Hlv, Hdi, Hli. rewrite H10 in Hli.
    assert (H2 : TetrisGame.level h = 2) by (rewrite Hlv, Hli; reflexivity).
    rewrite Hdi, H2. repeat split; assumption || reflexivity.
Qed.

(** ** Counterexamples and instances *)

(** C1, counterexample: [staleBoard] is the standard board that [clearLines]
    leaves on [bottomRowFull]; it has no complete row, yet after another
    [clearLines] its flash record is still [[19]], not the empty list of its
    complete rows. *)
Lemma clearLines_flash_record_stale :
  standard bottomRowFull = true
  /\ GameBoard.clearLines bottomRowFull = Ok (1, staleBoard)
  /\ standard staleBoard = true
  /\ completeRows staleBoard = []
  /\ GameBoard.clearLines staleBoard = Ok (0, staleBoard)
  /\ ~ recordsFlash staleBoard.
Proof.
  repeat split; try reflexivity.
  intros H. specialize (H 0 staleBoard eq_refl). discriminate H.
Qed.

Lemma clearLines_removes_full_rows_witness :
  wellFormed bottomRowFull = true
  /\ completeRows bottomRowFull = [19]
  /\ GameBoard.clearLines bottomRowFull
     = Ok (1, GameBoard.mk 10 20
                (GameBoard.emptyRow 10
                   :: firstn 19 (GameBoard.grid bottomRowFull)
                      ++ skipn 20 (GameBoard.grid bottomRowFull))
                [19]).
Proof.
  split; [reflexivity|]. split; [reflexivity|].
  pose proof (clearLines_removes_full_rows bottomRowFull eq_refl) as H.
  cbv zeta in H. destruct H as (_ & _ & _ & _ & H).
  exact (H 19 eq_refl).
Defined.

(** C8, counterexample: a T piece rotated once is in rotation state 1 with a
    four-by-four mask; four further rotations give back that mask and leave
    the piece in state 1, not in state 0. *)
Lemma rotate_four_times_not_state_zero :
  mask4 (Piece.shape tRotatedOnce)
  /\ Piece.rotation tRotatedOnce = 1
  /\ Piece.shape (rotateTimes 4 tRotatedOnce) = Piece.shape tRotatedOnce
  /\ Piece.rotation (rotateTimes 4 tRotatedOnce) = 1
  /\ ~ backInStateZero tRotatedOnce.
Proof.
  split; [split; [reflexivity | repeat constructor]|].
  split; [reflexivity|]. split; [reflexivity|]. split; [reflexivity|].
  intros (_ & H). discriminate H.
Qed.

(** C3, counterexample: on the empty standard board the T piece at row 5 can
    go down by 13 rows at most, and [getDropPosition] returns 18, its landing
    row, which is not that offset. *)
Lemma getDropPosition_not_offset :
  GameBoard.getDropPosition 30 (GameBoard.new 10 20) tAtFive = Ok 18
  /\ dropOffset (GameBoard.new 10 20) tAtFive 13
  /\ ~ returnsOffset (GameBoard.new 10 20) tAtFive.
Proof.
  split; [reflexivity|]. split.
  - split; [lia|]. split; [|reflexivity].
    intros j Hj.
    assert (j = 0 \/ j = 1 \/ j = 2 \/ j = 3 \/ j = 4 \/ j = 5 \/ j = 6 \/ j = 7
            \/ j = 8 \/ j = 9 \/ j = 10 \/ j = 11 \/ j = 12 \/ j = 13) as Hc by lia.
    repeat (destruct Hc as [-> | Hc]; [reflexivity|]). subst j. reflexivity.
  - intros H. specialize (H 30%nat 18 eq_refl). destruct H as (_ & Hfit & _).
    specialize (Hfit 18 ltac:(lia)). discriminate Hfit.
Qed.

Lemma getDropPosition_landing_row_witness :
  exists k,
    0 <= k <= Z.max 0 (GameBoard.height (GameBoard.new 10 20) - Piece.y tAtFive - 1)
    /\ (forall fuel, (Z.to_nat k < fuel)%nat ->
          GameBoard.getDropPosition fuel (GameBoard.new 10 20) tAtFive
          = Ok (Piece.y tAtFive + k))
    /\ (forall j, 1 <= j <= k ->
          GameBoard.canPlacePiece (GameBoard.new 10 20) tAtFive 0 j = Ok true)
    /\ GameBoard.canPlacePiece (GameBoard.new 10 20) tAtFive 0 (k + 1) = Ok false
    /\ (forall k', 0 <= k' ->
          (forall j, 1 <= j <= k' ->
             GameBoard.canPlacePiece (GameBoard.new 10 20) tAtFive 0 j = Ok true) ->
          k' <= k)
    /\ (GameBoard.canPlacePiece (GameBoard.new 10 20) tAtFive 0 0 = Ok true ->
        dropOffset (GameBoard.new 10 20) tAtFive k).
Proof.
  apply (getDropPosition_landing_row (GameBoard.new 10 20) tAtFive 0%nat 1%nat).
  - reflexivity.
  - exists [0; 1; 0; 0], 1. repeat split; try reflexivity. discriminate.
Defined.

Lemma canPlacePiece_iff_witness :
  exists r,
    GameBoard.canPlacePiece bottomRowFull tAtFive 0 13 = Ok r
    /\ (r = true <->
        forall row col,
          maskSet tAtFive row col ->
          let nx := Piece.x tAtFive + Z.of_nat col + 0 in
          let ny := Piece.y tAtFive + Z.of_nat row + 13 in
          0 <= nx < GameBoard.width bottomRowFull
          /\ ny < GameBoard.height bottomRowFull
          /\ (0 <= ny -> ~ occupied bottomRowFull nx ny)).
Proof.
  apply (canPlacePiece_iff bottomRowFull tAtFive 0 13). reflexivity.
Defined.

Lemma rotatePiece_T_wall_kicks_witness :
  TetrisGame.rotatePiece tAtWall
  = Ok (rotateWithKicks [(-1, 0); (-1, 1); (0, -2); (-1, -2)]
          (Piece.new TypeT (Some 7) (Some 5)) tAtWall)
  /\ fits (TetrisGame.board tAtWall)
       (Piece.rotate (Piece.copy (Piece.new TypeT (Some 7) (Some 5)))) 0 0 = false
  /\ fits (TetrisGame.board tAtWall)
       (Piece.rotate (Piece.copy (Piece.new TypeT (Some 7) (Some 5)))) (-1) 0 = true.
Proof.
  split; [|split; reflexivity].
  apply (rotatePiece_T_wall_kicks tAtWall (Piece.new TypeT (Some 7) (Some 5)));
    reflexivity.
Defined.

Lemma lockPiece_scoring_witness :
  exists g',
    TetrisGame.lockPiece TypeT tetrisReady = Ok g'
    /\ TetrisGame.combo g' = 2
    /\ TetrisGame.score g' = Number 3900.
Proof.
  destruct (lockPiece_scoring TypeT tetrisReady
              (Piece.rotate (Piece.new TypeI (Some (-2)) (Some 16)))
              (Piece.new TypeO None None) 0)
    as (b1 & n & b2 & g' & Hplace & Hclear & Hlock & _ & _ & _ & H4);
    try reflexivity.
  - discriminate.
  - vm_compute in Hplace. injection Hplace as <-.
    vm_compute in Hclear. injection Hclear as <- <-.
    exists g'. split; [exact Hlock|]. apply H4; reflexivity.
Defined.

Lemma hardDrop_scores_and_locks_witness :
  exists g',
    TetrisGame.hardDrop 30 TypeI (TetrisGame.new TypeT TypeO) = Ok g'
    /\ TetrisGame.score g' = Number 36.
Proof.
  destruct (hardDrop_scores_and_locks 30 TypeI (TetrisGame.new TypeT TypeO)
              (Piece.new TypeT None None) 0%nat 1%nat)
    as (landing & Hle & Hrun & Hmain); try reflexivity.
  - exists [0; 1; 0; 0], 1. repeat split; try reflexivity. discriminate.
  - change (TetrisGame.board (TetrisGame.new TypeT TypeO)) with (GameBoard.new 10 20) in *.
    change (Piece.y (Piece.new TypeT None None)) with 0 in *.
    change (GameBoard.height (GameBoard.new 10 20)) with 20 in Hle.
    assert (Hfuel : (Z.to_nat (landing - 0) < 30)%nat) by lia.
    pose proof (Hrun 30%nat Hfuel) as H18. vm_compute in H18.
    injection H18 as <-.
    destruct (Hmain Hfuel) as (_ & _ & Htotal & Hscore).
    destruct (Htotal (Piece.new TypeO None None)) as (g' & Hg'); try reflexivity.
    + discriminate.
    + exists g'. split; [exact Hg'|].
      refine (Hscore 0 _ _ g' eq_refl _ _ Hg'); reflexivity.
Defined.

Lemma rotate_four_times_identity_witness :
  mask4 (Piece.shape (Piece.rotate (Piece.new TypeT None None)))
  /\ Piece.shape (rotateTimes 4 (Piece.rotate (Piece.new TypeT None None)))
     = Piece.shape (Piece.rotate (Piece.new TypeT None None))
  /\ Piece.rotation (rotateTimes 4 (Piece.rotate (Piece.new TypeT None None))) = 1.
Proof.
  assert (Hm : mask4 (Piece.shape (Piece.rotate (Piece.new TypeT None None))))
    by (split; [reflexivity | repeat constructor]).
  split; [exact Hm|].
  destruct (proj1 rotate_four_times_identity _ Hm) as (Hshape & Hrot & _).
  split; [exact Hshape|]. apply Hrot. change (0 <= 1 < 4). lia.
Defined.

Lemma level_follows_lines_witness :
  TetrisGame.level (TetrisGame.new TypeT TypeO)
  = TetrisGame.lines (TetrisGame.new TypeT TypeO) / 10 + 1
  /\ TetrisGame.level
       (TetrisGame.handleLinesCleared 1
          (TetrisGame.set_lines 9 (TetrisGame.new TypeT TypeO))) = 2.
Proof.
  destruct level_follows_lines as (Hinv & _ & _ & Hten). split.
  - apply (Hinv (TetrisGame.new TypeT TypeO)). apply TetrisGame.reachable_new.
  - apply (Hten 1 (TetrisGame.set_lines 9 (TetrisGame.new TypeT TypeO))).
    + split; reflexivity.
    + lia.
    + reflexivity.
Defined.

Lemma clearLines_keeps_stale_flash_witness :
  GameBoard.clearLines staleBoard = Ok (0, staleBoard)
  /\ GameBoard.linesToFlash staleBoard = [19].
Proof.
  split; [|reflexivity].
  apply (proj1 (proj2 clearLines_keeps_stale_flash) staleBoard); reflexivity.
Defined.

(** ** The bounding box of a piece *)

Lemma boundsRow_fold :
  forall p yy row xx acc,
    Piece.x p = 0 -> Piece.y p = 0 ->
    Piece.boundsRow yy xx row acc = boundsOver (Piece.rowPositions p yy xx row) acc.
Proof.
  intros p yy row. induction row as [|v row IH]; intros xx acc Hx Hy; simpl.
  - reflexivity.
  - destruct (negb (v =? 0)); simpl.
    + rewrite Hx, Hy. rewrite IH by assumption. reflexivity.
    + now apply IH.
Qed.

Lemma boundsRows_fold :
  forall p rows yy acc,
    Piece.x p = 0 -> Piece.y p = 0 ->
    Piece.boundsRows yy rows acc = boundsOver (Piece.shapePositions p yy rows) acc.
Proof.
  intros p rows. induction rows as [|row rows IH]; intros yy acc Hx Hy; simpl.
  - reflexivity.
  - unfold boundsOver. rewrite fold_left_app.
    fold (boundsOver (Piece.rowPositions p yy 0 row) acc).
    rewrite <- boundsRow_fold by assumption. now apply IH.
Qed.

Lemma boundsOver_mono :
  forall cells acc,
    Piece.minX (boundsOver cells acc) <= Piece.minX acc
    /\ Piece.maxX acc <= Piece.maxX (boundsOver cells acc)
    /\ Piece.minY (boundsOver cells acc) <= Piece.minY acc
    /\ Piece.maxY acc <= Piece.maxY (boundsOver cells acc).
Proof.
  induction cells as [|c cells IH]; intros acc; simpl.
  - lia.
  - specialize (IH (Piece.extend acc (fst c) (snd c))). simpl in IH.
    unfold boundsOver in *. simpl. lia.
Qed.

Lemma boundsOver_encloses :
  forall cells acc c,
    In c cells ->
    Piece.minX (boundsOver cells acc) <= fst c <= Piece.maxX (boundsOver cells acc)
    /\ Piece.minY (boundsOver cells acc) <= snd c <= Piece.maxY (boundsOver cells acc).
Proof.
  induction cells as [|d cells IH]; intros acc c Hin; [contradiction|].
  destruct Hin as [-> | Hin].
  - pose proof (boundsOver_mono cells (Piece.extend acc (fst c) (snd c))) as Hm.
    simpl in Hm. unfold boundsOver in *. simpl. lia.
  - apply (IH (Piece.extend acc (fst d) (snd d)) c Hin).
Qed.

Lemma boundsOver_attained :
  forall cells acc,
    (Piece.minX (boundsOver cells acc) = Piece.minX acc
     \/ exists c, In c cells /\ fst c = Piece.minX (boundsOver cells acc))
    /\ (Piece.maxX (boundsOver cells acc) = Piece.maxX acc
        \/ exists c, In c cells /\ fst c = Piece.maxX (boundsOver cells acc))
    /\ (Piece.minY (boundsOver cells acc) = Piece.minY acc
        \/ exists c, In c cells /\ snd c = Piece.minY (boundsOver cells acc))
    /\ (Piece.maxY (boundsOver cells acc) = Piece.maxY acc
        \/ exists c, In c cells /\ snd c = Piece.maxY (boundsOver cells acc)).
Proof.
  induction cells as [|d cells IH]; intros acc.
  - simpl. auto.
  - specialize (IH (Piece.extend acc (fst d) (snd d))).
    change (boundsOver (d :: cells) acc)
      with (boundsOver cells (Piece.extend acc (fst d) (snd d))).
    destruct IH as (H1 & H2 & H3 & H4). simpl in H1, H2, H3, H4.
    repeat split.
    + destruct H1 as [H1 | (c & Hc & Hv)].
      * rewrite H1. destruct (Z.min_spec (Piece.minX acc) (fst d)) as [[_ ->] | [_ ->]];
          [left; reflexivity | right; exists d; split; [left; reflexivity | reflexivity]].
      * right. exists c. split; [right; exact Hc | exact Hv].
    + destruct H2 as [H2 | (c & Hc & Hv)].
      * rewrite H2. destruct (Z.max_spec (Piece.maxX acc) (fst d)) as [[_ ->] | [_ ->]];
          [right; exists d; split; [left; reflexivity | reflexivity] | left; reflexivity].
      * right. exists c. split; [right; exact Hc | exact Hv].
    + destruct H3 as [H3 | (c & Hc & Hv)].
      * rewrite H3. destruct (Z.min_spec (Piece.minY acc) (snd d)) as [[_ ->] | [_ ->]];
          [left; reflexivity | right; exists d; split; [left; reflexivity | reflexivity]].
      * right. exists c. split; [right; exact Hc | exact Hv].
    + destruct H4 as [H4 | (c & Hc & Hv)].
      * rewrite H4. destruct (Z.max_spec (Piece.maxY acc) (snd d)) as [[_ ->] | [_ ->]];
          [right; exists d; split; [left; reflexivity | reflexivity] | left; reflexivity].
      * right. exists c. split; [right; exact Hc | exact Hv].
Qed.

Lemma getBounds_fold :
  forall p,
    Piece.getBounds p
    = boundsOver (Piece.getOccupiedPositions (movedTo p 0 0))
        (Piece.mkBounds 4 (-1) 4 (-1)).
Proof.
  intros p. unfold Piece.getBounds, Piece.getOccupiedPositions.
  change (Piece.shape (movedTo p 0 0)) with (Piece.shape p).
  apply boundsRows_fold; reflexivity.
Qed.

Lemma maskSet_movedTo :
  forall p nx ny r c, maskSet (movedTo p nx ny) r c <-> maskSet p r c.
Proof. intros. unfold maskSet. reflexivity. Qed.

Lemma mask4_cell_range :
  forall p r c, mask4 (Piece.shape p) -> maskSet p r c -> (r < 4)%nat /\ (c < 4)%nat.
Proof.
  intros p r c [Hlen Hrows] (row & v & Hr & Hc & _).
  split.
  - rewrite <- Hlen. apply nth_error_Some. congruence.
  - rewrite Forall_forall in Hrows. rewrite <- (Hrows row (nth_error_In _ _ Hr)).
    apply nth_error_Some. congruence.
Qed.

(** X1: [getBounds] encloses every set cell of the mask.  For a
    four-by-four mask with a set cell each of the four bounds is the column
    or row of a set cell, so the box is the smallest one, and it lies inside
    the mask; for a mask without a set cell the result is the starting
    value [minX = 4, maxX = -1, minY = 4, maxY = -1], an inverted box. *)
Theorem getBounds_smallest_box :
  forall p,
    let bd := Piece.getBounds p in
    (forall r c, maskSet p r c ->
       Piece.minX bd <= Z.of_nat c <= Piece.maxX bd
       /\ Piece.minY bd <= Z.of_nat r <= Piece.maxY bd)
    /\ (mask4 (Piece.shape p) ->
        (exists r c, maskSet p r c) ->
        0 <= Piece.minX bd <= Piece.maxX bd /\ Piece.maxX bd <= 3
        /\ 0 <= Piece.minY bd <= Piece.maxY bd /\ Piece.maxY bd <= 3
        /\ (exists r, maskSet p r (Z.to_nat (Piece.minX bd)))
        /\ (exists r, maskSet p r (Z.to_nat (Piece.maxX bd)))
        /\ (exists c, maskSet p (Z.to_nat (Piece.minY bd)) c)
        /\ (exists c, maskSet p (Z.to_nat (Piece.maxY bd)) c))
    /\ ((forall r c, ~ maskSet p r c) -> bd = Piece.mkBounds 4 (-1) 4 (-1)).
Proof.
  intros p bd. subst bd. rewrite getBounds_fold.
  set (cells := Piece.getOccupiedPositions (movedTo p 0 0)).
  set (init := Piece.mkBounds 4 (-1) 4 (-1)).
  assert (Hcells : forall cx cy, In (cx, cy) cells <->
                     exists r c, maskSet p r c /\ cx = Z.of_nat c /\ cy = Z.of_nat r).
  { intros cx cy. unfold cells. rewrite getOccupiedPositions_In. simpl.
    split; intros (r & c & Hset & -> & ->); exists r, c;
      (split; [exact Hset | split; reflexivity]). }
  split; [|split].
  - intros r c Hset.
    apply (boundsOver_encloses cells init (Z.of_nat c, Z.of_nat r)).
    apply Hcells. exists r, c. auto.
  - intros Hm (r0 & c0 & Hset0).
    assert (Hin0 : In (Z.of_nat c0, Z.of_nat r0) cells)
      by (apply Hcells; exists r0, c0; auto).
    destruct (boundsOver_encloses cells init _ Hin0) as [Hx Hy]. simpl in Hx, Hy.
    destruct (mask4_cell_range p r0 c0 Hm Hset0) as [Hr0 Hc0].
    destruct (boundsOver_attained cells init) as (H1 & H2 & H3 & H4).
    simpl in H1, H2, H3, H4.
    assert (A1 : exists r c, maskSet p r c
                             /\ Z.of_nat c = Piece.minX (boundsOver cells init)).
    { destruct H1 as [H1 | ([cx cy] & Hc & Hv)]; [lia|].
      apply Hcells in Hc as (r & c & Hset & -> & ->). exists r, c. auto. }
    assert (A2 : exists r c, maskSet p r c
                             /\ Z.of_nat c = Piece.maxX (boundsOver cells init)).
    { destruct H2 as [H2 | ([cx cy] & Hc & Hv)]; [lia|].
      apply Hcells in Hc as (r & c & Hset & -> & ->). exists r, c. auto. }
    assert (A3 : exists r c, maskSet p r c
                             /\ Z.of_nat r = Piece.minY (boundsOver cells init)).
    { destruct H3 as [H3 | ([cx cy] & Hc & Hv)]; [lia|].
      apply Hcells in Hc as (r & c & Hset & -> & ->). exists r, c. auto. }
    assert (A4 : exists r c, maskSet p r c
                             /\ Z.of_nat r = Piece.maxY (boundsOver cells init)).
    { destruct H4 as [H4 | ([cx cy] & Hc & Hv)]; [lia|].
      apply Hcells in Hc as (r & c & Hset & -> & ->). exists r, c. auto. }
    destruct A1 as (r1 & c1 & S1 & E1). destruct A2 as (r2 & c2 & S2 & E2).
    destruct A3 as (r3 & c3 & S3 & E3). destruct A4 as (r4 & c4 & S4 & E4).
    pose proof (mask4_cell_range p _ _ Hm S1) as [_ B1].
    pose proof (mask4_cell_range p _ _ Hm S2) as [_ B2].
    pose proof (mask4_cell_range p _ _ Hm S3) as [B3 _].
    pose proof (mask4_cell_range p _ _ Hm S4) as [B4 _].
    repeat split; try lia.
    + exists r1. rewrite <- E1, Nat2Z.id. exact S1.
    + exists r2. rewrite <- E2, Nat2Z.id. exact S2.
    + exists c3. rewrite <- E3, Nat2Z.id. exact S3.
    + exists c4. rewrite <- E4, Nat2Z.id. exact S4.
  - intros Hnone. destruct cells as [|[cx cy] rest]; [reflexivity|].
    exfalso.
    destruct (proj1 (Hcells cx cy) (or_introl eq_refl)) as (r & c & Hset & _).
    exact (Hnone r c Hset).
Qed.

(** ** Wall kicks and rotation states *)

(** X2: the wall-kick table is its own mirror: for rotation states in 0..3
    the offsets for the transition back are the opposites of the offsets for
    the transition there, in the same order.  A transition between
    neighbouring states of a piece other than O has four offsets; the O
    piece, a transition from a state to itself and a transition between
    opposite states fall back to the single offset (0, 0). *)
Theorem wallKicks_mirror :
  forall p from to,
    0 <= from < 4 -> 0 <= to < 4 ->
    Piece.getWallKickOffsets p to from
    = map opposite (Piece.getWallKickOffsets p from to)
    /\ (Piece.type p <> TypeO -> (to - from) mod 2 = 1 ->
        List.length (Piece.getWallKickOffsets p from to) = 4%nat)
    /\ (Piece.type p = TypeO \/ (to - from) mod 2 = 0 ->
        Piece.getWallKickOffsets p from to = [(0, 0)]).
Proof.
  intros p from to Hf Ht.
  assert (Hfrom : from = 0 \/ from = 1 \/ from = 2 \/ from = 3) by lia.
  assert (Hto : to = 0 \/ to = 1 \/ to = 2 \/ to = 3) by lia.
  unfold Piece.getWallKickOffsets.
  destruct (Piece.type p);
    destruct Hfrom as [-> | [-> | [-> | ->]]];
    destruct Hto as [-> | [-> | [-> | ->]]];
    (split; [reflexivity|]);
    (split; [intros Hne Hodd; try reflexivity; try (now contradiction Hne);
             try discriminate Hodd
            | intros [Ho | Heven]; try reflexivity; try discriminate Ho;
              try discriminate Heven]).
Qed.

Lemma wallKicks_mirror_witness :
  Piece.getWallKickOffsets (Piece.new TypeJ None None) 3 2
  = map opposite (Piece.getWallKickOffsets (Piece.new TypeJ None None) 2 3).
Proof.
  apply (wallKicks_mirror (Piece.new TypeJ None None) 2 3); lia.
Defined.

Lemma rowPositions_length :
  forall p yy row xx,
    List.length (Piece.rowPositions p yy xx row) = countSet row.
Proof.
  intros p yy row. induction row as [|v row IH]; intros xx; simpl; [reflexivity|].
  destruct (negb (v =? 0)); simpl; now rewrite IH.
Qed.

Lemma shapePositions_length :
  forall p rows yy,
    List.length (Piece.shapePositions p yy rows) = list_sum (map countSet rows).
Proof.
  intros p rows. induction rows as [|row rows IH]; intros yy; simpl; [reflexivity|].
  now rewrite length_app, rowPositions_length, IH.
Qed.

Lemma rotate_cell_count :
  forall p, mask4 (Piece.shape p) ->
    List.length (Piece.getOccupiedPositions (Piece.rotate p))
    = List.length (Piece.getOccupiedPositions p).
Proof.
  intros p Hm. unfold Piece.getOccupiedPositions.
  rewrite !shapePositions_length.
  destruct (mask4_inv _ Hm) as
    (a0 & a1 & a2 & a3 & b0 & b1 & b2 & b3 & c0 & c1 & c2 & c3 & d0 & d1 & d2 & d3 & Hsh).
  change (Piece.shape (Piece.rotate p)) with (Piece.rotate_shape (Piece.shape p)).
  rewrite Hsh, rotate_shape_4x4. unfold list_sum. cbn [map countSet fold_right].
  repeat match goal with
         | |- context [if ?b then 1%nat else 0%nat] =>
             generalize (if b then 1%nat else 0%nat); intro
         end.
  lia.
Qed.

Lemma rotateTimes_invariants :
  forall n p,
    mask4 (Piece.shape p) -> 0 <= Piece.rotation p < 4 ->
    mask4 (Piece.shape (rotateTimes n p))
    /\ List.length (Piece.getOccupiedPositions (rotateTimes n p))
       = List.length (Piece.getOccupiedPositions p)
    /\ Piece.rotation (rotateTimes n p) = (Piece.rotation p + Z.of_nat n) mod 4
    /\ Piece.type (rotateTimes n p) = Piece.type p
    /\ Piece.color (rotateTimes n p) = Piece.color p
    /\ Piece.x (rotateTimes n p) = Piece.x p
    /\ Piece.y (rotateTimes n p) = Piece.y p.
Proof.
  induction n as [|n IH]; intros p Hm Hr.
  - cbn [rotateTimes]. split; [exact Hm|]. repeat split; try reflexivity.
    cbn [Z.of_nat]. rewrite Z.add_0_r, Z.mod_small by lia. reflexivity.
  - cbn [rotateTimes].
    assert (Hr' : Piece.rotation (Piece.rotate p) = (Piece.rotation p + 1) mod 4).
    { simpl. apply Z.rem_mod_nonneg; lia. }
    destruct (IH (Piece.rotate p)) as (H1 & H2 & H3 & H4 & H5 & H6 & H7).
    + now apply rotate_shape_mask4.
    + rewrite Hr'. apply Z.mod_pos_bound. lia.
    + split; [exact H1|]. repeat split; try assumption.
      * rewrite H2. now apply rotate_cell_count.
      * rewrite H3, Hr'. rewrite Zplus_mod_idemp_l. f_equal. lia.
Qed.

(** X3: a rotation of a piece with a four-by-four mask keeps the mask
    four-by-four, keeps the number of occupied cells, and keeps a rotation
    state in 0..3 in that range.  So each of the seven pieces, rotated any
    number [n] of times from its creation, occupies exactly four cells, is in
    rotation state [n mod 4], and has kept its type, colour and position. *)
Theorem rotation_keeps_tetromino :
  (forall p,
      mask4 (Piece.shape p) ->
      mask4 (Piece.shape (Piece.rotate p))
      /\ List.length (Piece.getOccupiedPositions (Piece.rotate p))
         = List.length (Piece.getOccupiedPositions p)
      /\ (0 <= Piece.rotation p < 4 -> 0 <= Piece.rotation (Piece.rotate p) < 4))
  /\ (forall ty n,
         let p := rotateTimes n (Piece.new ty None None) in
         List.length (Piece.getOccupiedPositions p) = 4%nat
         /\ Piece.rotation p = Z.of_nat n mod 4
         /\ Piece.type p = ty
         /\ Piece.color p = pd_color (PIECES ty)
         /\ (Piece.x p, Piece.y p) = pd_spawn (PIECES ty)).
Proof.
  split.
  - intros p Hm. split; [now apply rotate_shape_mask4|].
    split; [now apply rotate_cell_count|].
    intros Hr. simpl. rewrite Z.rem_mod_nonneg by lia.
    apply Z.mod_pos_bound. lia.
  - intros ty n p. subst p.
    destruct (rotateTimes_invariants n (Piece.new ty None None))
      as (_ & H2 & H3 & H4 & H5 & H6 & H7).
    + apply PIECES_mask4.
    + simpl. lia.
    + rewrite H2, H3, H4, H5, H6, H7. repeat split; try reflexivity.
      * destruct ty; reflexivity.
      * destruct ty; reflexivity.
Qed.

Lemma rotation_keeps_tetromino_witness :
  List.length
    (Piece.getOccupiedPositions (Piece.rotate (Piece.new TypeS None None)))
  = List.length (Piece.getOccupiedPositions (Piece.new TypeS None None)).
Proof.
  apply (proj1 rotation_keeps_tetromino (Piece.new TypeS None None)).
  apply PIECES_mask4.
Defined.

Lemma getBounds_smallest_box_witness :
  Piece.minX (Piece.getBounds (Piece.new TypeT None None)) <= 1
  <= Piece.maxX (Piece.getBounds (Piece.new TypeT None None)).
Proof.
  destruct (getBounds_smallest_box (Piece.new TypeT None None)) as (H & _).
  assert (Hset : maskSet (Piece.new TypeT None None) 0 1).
  { exists [0; 1; 0; 0], 1. repeat split; try reflexivity. discriminate. }
  destruct (H 0%nat 1%nat Hset) as [Hx _]. exact Hx.
Defined.

(** ** The board: what placing a piece writes *)

Lemma update_nth_error :
  forall (A : Type) (l : list A) i j v,
    nth_error (JsArray.update l i v) j
    = if (i =? j)%nat then
        match nth_error l j with Some _ => Some v | None => None end
      else nth_error l j.
Proof.
  intros A l. induction l as [|h l IH]; intros [|i] [|j] v; simpl; try reflexivity.
  - destruct (i =? j)%nat; reflexivity.
  - apply IH.
Qed.

Lemma assign_nth_error :
  forall (A : Type) (hole : A) (l : list A) i j v,
    (i < List.length l)%nat ->
    nth_error (JsArray.assign hole l i v) j
    = if (i =? j)%nat then Some v else nth_error l j.
Proof.
  intros A hole l. induction l as [|h l IH]; intros [|i] [|j] v Hi; simpl in *;
    try lia; try reflexivity.
  apply IH. lia.
Qed.

Lemma shaped_gridShape :
  forall b, shaped b = true ->
    gridShape (GameBoard.width b) (GameBoard.height b) (GameBoard.grid b).
Proof.
  intros b H. destruct (shaped_inv b H) as (_ & _ & Hl & Hr). split; assumption.
Qed.

Lemma cellAt_gridCell :
  forall b cx cy, cellAt b cx cy = gridCell (GameBoard.grid b) cx cy.
Proof. reflexivity. Qed.

(** One write of the placement loop. *)
Lemma place_one_cell :
  forall w h g row px py c cx cy,
    gridShape w h g ->
    0 <= px < w -> 0 <= py < h ->
    nth_error g (Z.to_nat py) = Some row ->
    gridCell (JsArray.update g (Z.to_nat py) (JsArray.assign Hole row (Z.to_nat px) c))
      cx cy
    = if (cx =? px) && (cy =? py) then Some c else gridCell g cx cy.
Proof.
  intros w h g row px py c cx cy [Hlen Hrows] Hpx Hpy Hrow.
  assert (Hrl : List.length row = Z.to_nat w).
  { rewrite Forall_forall in Hrows. apply Hrows. eapply nth_error_In; eauto. }
  unfold gridCell.
  destruct (Z.ltb_spec cx 0) as [Hcx|Hcx]; simpl.
  { destruct (Z.eqb_spec cx px); [lia|reflexivity]. }
  destruct (Z.ltb_spec cy 0) as [Hcy|Hcy]; simpl.
  { destruct (Z.eqb_spec cy py); [lia|]. now rewrite andb_false_r. }
  rewrite update_nth_error.
  destruct (Nat.eqb_spec (Z.to_nat py) (Z.to_nat cy)) as [Hy|Hy].
  - assert (cy = py) by lia. subst cy. rewrite Hrow, Z.eqb_refl, andb_true_r.
    rewrite assign_nth_error by lia.
    destruct (Nat.eqb_spec (Z.to_nat px) (Z.to_nat cx)) as [Hx|Hx];
      destruct (Z.eqb_spec cx px); try lia; reflexivity.
  - destruct (Z.eqb_spec cy py); [subst; contradiction|].
    now rewrite andb_false_r.
Qed.

Lemma place_one_shape :
  forall w h g row px py c,
    gridShape w h g ->
    0 <= px < w ->
    nth_error g (Z.to_nat py) = Some row ->
    gridShape w h
      (JsArray.update g (Z.to_nat py) (JsArray.assign Hole row (Z.to_nat px) c)).
Proof.
  intros w h g row px py c [Hlen Hrows] Hpx Hrow. split.
  - now rewrite update_length.
  - apply update_Forall; [exact Hrows|].
    rewrite Forall_forall in Hrows.
    rewrite assign_length; [apply Hrows; eapply nth_error_In; eauto|].
    rewrite (Hrows row (nth_error_In _ _ Hrow)). lia.
Qed.

(** The placement loop on a grid of the right shape: it returns, keeps the
    shape, writes the colour at the listed positions that lie on the grid
    and leaves every other cell alone. *)
Lemma placeLoop_cells :
  forall w h col positions g,
    gridShape w h g ->
    exists g',
      GameBoard.placeLoop w h col positions g = Ok g'
      /\ gridShape w h g'
      /\ forall cx cy,
           gridCell g' cx cy
           = if existsb (fun pos => (cx =? fst pos) && (cy =? snd pos)
                                    && (0 <=? cx) && (cx <? w)
                                    && (0 <=? cy) && (cy <? h)) positions
             then Some (Color col)
             else gridCell g cx cy.
Proof.
  intros w h col positions. induction positions as [|pos rest IH]; intros g Hg.
  - exists g. repeat split; try apply Hg. 
  - cbn [GameBoard.placeLoop existsb].
    destruct ((snd pos >=? 0) && (snd pos <? h) && (fst pos >=? 0) && (fst pos <? w))
      eqn:Hin.
    + rewrite !andb_true_iff in Hin. destruct Hin as (((H1 & H2) & H3) & H4).
      apply Z.geb_le in H1, H3. apply Z.ltb_lt in H2, H4.
      destruct (nth_error g (Z.to_nat (snd pos))) as [row|] eqn:Hrow.
      2: { apply nth_error_None in Hrow. destruct Hg as [Hlen _]. lia. }
      destruct (IH _ (place_one_shape w h g row (fst pos) (snd pos) (Color col)
                        Hg (conj H3 H4) Hrow)) as (g' & Hrun & Hshape & Hcells).
      exists g'. split; [exact Hrun|]. split; [exact Hshape|].
      intros cx cy. rewrite Hcells.
      rewrite (place_one_cell w h g row (fst pos) (snd pos) (Color col) cx cy Hg)
        by (assumption || lia).
      destruct (existsb _ rest); [now rewrite orb_true_r|]. rewrite orb_false_r.
      destruct (Z.eqb_spec cx (fst pos)) as [->|]; [|reflexivity].
      destruct (Z.eqb_spec cy (snd pos)) as [->|]; [|reflexivity].
      cbn [andb].
      replace (0 <=? fst pos) with true by (symmetry; apply Z.leb_le; lia).
      replace (fst pos <? w) with true by (symmetry; apply Z.ltb_lt; lia).
      replace (0 <=? snd pos) with true by (symmetry; apply Z.leb_le; lia).
      replace (snd pos <? h) with true by (symmetry; apply Z.ltb_lt; lia).
      reflexivity.
    + destruct (IH g Hg) as (g' & Hrun & Hshape & Hcells).
      exists g'. split; [exact Hrun|]. split; [exact Hshape|].
      intros cx cy. rewrite Hcells.
      destruct (existsb _ rest); [now rewrite orb_true_r|]. rewrite orb_false_r.
      destruct (Z.eqb_spec cx (fst pos)) as [->|]; [|reflexivity].
      destruct (Z.eqb_spec cy (snd pos)) as [->|]; [|reflexivity].
      cbn [andb].
      assert (Hout : ~ (0 <= fst pos < w /\ 0 <= snd pos < h)).
      { intros [Hx Hy]. rewrite <- not_true_iff_false in Hin. apply Hin.
        rewrite !andb_true_iff. repeat split;
          try (apply Z.geb_le; lia); apply Z.ltb_lt; lia. }
      destruct (Z.leb_spec 0 (fst pos)), (Z.ltb_spec (fst pos) w),
        (Z.leb_spec 0 (snd pos)), (Z.ltb_spec (snd pos) h); try reflexivity.
      exfalso. apply Hout. lia.
Qed.

Lemma placePiece_cells :
  forall b p,
    shaped b = true ->
    exists b',
      GameBoard.placePiece b p = Ok b'
      /\ shaped b' = true
      /\ GameBoard.width b' = GameBoard.width b
      /\ GameBoard.height b' = GameBoard.height b
      /\ GameBoard.linesToFlash b' = GameBoard.linesToFlash b
      /\ (forall pos, In pos (Piece.getOccupiedPositions p) -> onGrid b pos ->
            cellAt b' (fst pos) (snd pos) = Some (Color (Piece.color p)))
      /\ (forall cx cy,
            ~ (In (cx, cy) (Piece.getOccupiedPositions p) /\ onGrid b (cx, cy)) ->
            cellAt b' cx cy = cellAt b cx cy).
Proof.
  intros b p Hs. pose proof (shaped_gridShape b Hs) as Hg.
  destruct (shaped_inv b Hs) as (Hw & Hh & _ & _).
  destruct (placeLoop_cells (GameBoard.width b) (GameBoard.height b) (Piece.color p)
              (Piece.getOccupiedPositions p) (GameBoard.grid b) Hg)
    as (g' & Hrun & [Hlen Hrows] & Hcells).
  unfold GameBoard.placePiece. rewrite Hrun. cbn [bind].
  eexists. split; [reflexivity|]. cbn [GameBoard.width GameBoard.height
                                       GameBoard.linesToFlash].
  split.
  { unfold shaped. cbn [GameBoard.width GameBoard.height GameBoard.grid].
    rewrite !andb_true_iff. repeat split.
    - now apply Z.leb_le.
    - now apply Z.leb_le.
    - now apply Nat.eqb_eq.
    - apply forallb_forall. intros row Hin. apply Nat.eqb_eq.
      rewrite Forall_forall in Hrows. now apply Hrows. }
  repeat split.
  - intros [px py] Hin [Hx Hy]. simpl in Hx, Hy. rewrite cellAt_gridCell.
    cbn [GameBoard.grid fst snd]. rewrite Hcells.
    replace (existsb _ _) with true; [reflexivity|].
    symmetry. apply existsb_exists. exists (px, py). split; [exact Hin|].
    cbn [fst snd]. rewrite !Z.eqb_refl. rewrite !andb_true_iff.
    repeat split; try (apply Z.leb_le; lia); apply Z.ltb_lt; lia.
  - intros cx cy Hnot. rewrite !cellAt_gridCell. cbn [GameBoard.grid].
    rewrite Hcells.
    destruct (existsb _ _) eqn:He; [|reflexivity].
    exfalso. apply Hnot. apply existsb_exists in He as ([px py] & Hin & Hc).
    cbn [fst snd] in Hc. rewrite !andb_true_iff in Hc.
    destruct Hc as (((((E1 & E2) & B1) & B2) & B3) & B4).
    apply Z.eqb_eq in E1, E2. subst. apply Z.leb_le in B1, B3.
    apply Z.ltb_lt in B2, B4. split; [exact Hin|]. split; simpl; lia.
Qed.

(** X4: on a board of the right shape [placePiece] returns a board of the
    same size with the same flash record; every position of the piece that
    lies on the grid holds the colour of the piece afterwards, positions of
    the piece off the grid are dropped, and every other cell is as before. *)
Theorem placePiece_writes_piece_cells :
  forall b p,
    shaped b = true ->
    exists b',
      GameBoard.placePiece b p = Ok b'
      /\ shaped b' = true
      /\ GameBoard.width b' = GameBoard.width b
      /\ GameBoard.height b' = GameBoard.height b
      /\ GameBoard.linesToFlash b' = GameBoard.linesToFlash b
      /\ (forall pos, In pos (Piece.getOccupiedPositions p) -> onGrid b pos ->
            cellAt b' (fst pos) (snd pos) = Some (Color (Piece.color p)))
      /\ (forall cx cy,
            ~ (In (cx, cy) (Piece.getOccupiedPositions p) /\ onGrid b (cx, cy)) ->
            cellAt b' cx cy = cellAt b cx cy).
Proof. exact placePiece_cells. Qed.

Lemma placePiece_writes_piece_cells_witness :
  exists b',
    GameBoard.placePiece (GameBoard.new 10 20) tAtFive = Ok b'
    /\ cellAt b' 4 5 = Some (Color "#aa00ff")
    /\ cellAt b' 0 0 = Some Null.
Proof.
  destruct (placePiece_writes_piece_cells (GameBoard.new 10 20) tAtFive eq_refl)
    as (b' & Hrun & _ & _ & _ & _ & Hin & Hout).
  exists b'. split; [exact Hrun|]. split.
  - apply (Hin (4, 5)).
    + simpl. auto.
    + split; simpl; lia.
  - rewrite (Hout 0 0); [reflexivity|].
    intros [Hin0 _]. simpl in Hin0.
    repeat (destruct Hin0 as [Hin0 | Hin0]; [discriminate Hin0|]). exact Hin0.
Defined.

Lemma placeLoop_off_grid :
  forall w h col positions g,
    (forall pos, In pos positions ->
                 ~ (0 <= fst pos < w /\ 0 <= snd pos < h)) ->
    GameBoard.placeLoop w h col positions g = Ok g.
Proof.
  intros w h col positions g. induction positions as [|pos rest IH]; intros Hout.
  - reflexivity.
  - cbn [GameBoard.placeLoop].
    destruct ((snd pos >=? 0) && (snd pos <? h) && (fst pos >=? 0) && (fst pos <? w))
      eqn:Hin.
    + exfalso. apply (Hout pos (or_introl eq_refl)).
      rewrite !andb_true_iff in Hin. destruct Hin as (((H1 & H2) & H3) & H4).
      apply Z.geb_le in H1, H3. apply Z.ltb_lt in H2, H4. lia.
    + apply IH. intros p Hp. apply Hout. now right.
Qed.

(** X5: a piece none of whose positions lies on the grid is placed without
    any change to the board, whatever the board.  In particular locking a
    piece whose cells are all above the board ([y < 0]) leaves the board as
    it was, so the answer of [isGameOver] is the same before and after. *)
Theorem placePiece_off_grid_is_identity :
  forall b p,
    (forall pos, In pos (Piece.getOccupiedPositions p) -> ~ onGrid b pos) ->
    GameBoard.placePiece b p = Ok b
    /\ (forall b', GameBoard.placePiece b p = Ok b' ->
                   GameBoard.isGameOver b' = GameBoard.isGameOver b).
Proof.
  intros b p Hout.
  assert (Hrun : GameBoard.placePiece b p = Ok b).
  { unfold GameBoard.placePiece. rewrite placeLoop_off_grid by exact Hout.
    destruct b; reflexivity. }
  split; [exact Hrun|]. intros b' Hb'. rewrite Hrun in Hb'. now injection Hb' as <-.
Qed.

Lemma placePiece_off_grid_is_identity_witness :
  GameBoard.placePiece bottomRowFull (Piece.new TypeI None (Some (-3)))
  = Ok bottomRowFull.
Proof.
  apply (placePiece_off_grid_is_identity bottomRowFull
           (Piece.new TypeI None (Some (-3)))).
  intros pos Hin [_ Hy]. simpl in Hin.
  repeat (destruct Hin as [<- | Hin]; [simpl in Hy; lia|]). exact Hin.
Defined.

(** X6: cells written by [placePiece] block later placements.  After a
    piece with a non-empty colour has been placed on a board of the right
    shape, [canPlacePiece] returns false for every piece and offset that
    would cover one of the written cells, and so for the placed piece
    itself, where it is, when one of its cells lies on the grid. *)
Theorem placed_cells_block :
  forall b p b',
    shaped b = true ->
    Piece.color p <> ""%string ->
    GameBoard.placePiece b p = Ok b' ->
    (forall q dx dy pos,
        In pos (Piece.getOccupiedPositions p) -> onGrid b pos ->
        In (fst pos - dx, snd pos - dy) (Piece.getOccupiedPositions q) ->
        GameBoard.canPlacePiece b' q dx dy = Ok false)
    /\ ((exists pos, In pos (Piece.getOccupiedPositions p) /\ onGrid b pos) ->
        GameBoard.canPlacePiece b' p 0 0 = Ok false).
Proof.
  intros b p b' Hs Hcol Hplace.
  destruct (placePiece_cells b p Hs) as (b1 & Hrun & Hs1 & _ & _ & _ & Hin & _).
  rewrite Hplace in Hrun. injection Hrun as <-.
  assert (Hblock : forall q dx dy pos,
             In pos (Piece.getOccupiedPositions p) -> onGrid b pos ->
             In (fst pos - dx, snd pos - dy) (Piece.getOccupiedPositions q) ->
             GameBoard.canPlacePiece b' q dx dy = Ok false).
  { intros q dx dy pos Hp Hon Hq.
    destruct (canPlaceLoop_spec b' (Piece.getOccupiedPositions q) dx dy Hs1)
      as (r & Hr & Hiff).
    unfold GameBoard.canPlacePiece. rewrite Hr. destruct r; [|reflexivity].
    exfalso. assert (HF : Forall (clearAt b' dx dy) (Piece.getOccupiedPositions q))
      by now apply Hiff.
    rewrite Forall_forall in HF. destruct (HF _ Hq) as (_ & _ & Hfree).
    cbn [fst snd] in Hfree.
    replace (fst pos - dx + dx) with (fst pos) in Hfree by lia.
    replace (snd pos - dy + dy) with (snd pos) in Hfree by lia.
    rewrite (Hin pos Hp Hon) in Hfree. destruct Hon as [_ Hy].
    cbn [GameBoard.truthy] in Hfree.
    apply String.eqb_neq in Hcol. rewrite Hcol in Hfree.
    specialize (Hfree ltac:(lia)). discriminate Hfree. }
  split; [exact Hblock|].
  intros (pos & Hp & Hon). apply (Hblock p 0 0 pos Hp Hon).
  rewrite !Z.sub_0_r. destruct pos; exact Hp.
Qed.

Lemma placed_cells_block_witness :
  exists b',
    GameBoard.placePiece (GameBoard.new 10 20) tAtFive = Ok b'
    /\ GameBoard.canPlacePiece b' tAtFive 0 0 = Ok false.
Proof.
  destruct (placePiece_cells (GameBoard.new 10 20) tAtFive eq_refl)
    as (b' & Hrun & _).
  exists b'. split; [exact Hrun|].
  apply (placed_cells_block (GameBoard.new 10 20) tAtFive b' eq_refl).
  - discriminate.
  - exact Hrun.
  - exists (4, 5). split; [simpl; auto|]. split; simpl; lia.
Defined.

(** ** The board: top row, single positions, reset *)

Lemma wellFormed_row_valid :
  forall b row, wellFormed b = true -> In row (GameBoard.grid b) ->
    List.length row = Z.to_nat (GameBoard.width b)
    /\ forallb validCell row = true.
Proof.
  intros b row Hwf Hin. apply wellFormed_gridOk in Hwf.
  destruct Hwf as (_ & _ & _ & Hrows). rewrite Forall_forall in Hrows. auto.
Qed.

(** X7: on a well-formed board with at least one row [isGameOver] returns
    true exactly when some cell of row 0 is occupied; on a board without rows
    it throws. *)
Theorem isGameOver_top_row :
  (forall b,
      wellFormed b = true -> 0 < GameBoard.height b ->
      exists r,
        GameBoard.isGameOver b = Ok r
        /\ (r = true <-> exists cx, 0 <= cx < GameBoard.width b /\ occupied b cx 0))
  /\ (forall b, GameBoard.grid b = [] -> GameBoard.isGameOver b = TypeError).
Proof.
  split.
  - intros b Hwf Hh. unfold GameBoard.isGameOver.
    pose proof (wellFormed_gridOk b) as [Hg _]. specialize (Hg Hwf).
    destruct Hg as (Hw & _ & Hlen & _).
    destruct (GameBoard.grid b) as [|row0 rows] eqn:Hgrid; [simpl in Hlen; lia|].
    destruct (wellFormed_row_valid b row0 Hwf) as [Hrl Hrv].
    { rewrite Hgrid. now left. }
    exists (GameBoard.rowSome row0). split; [reflexivity|].
    unfold GameBoard.rowSome. rewrite existsb_exists. split.
    + intros (c & Hin & Hc). destruct c as [| |s]; try discriminate.
      apply In_nth_error in Hin as (i & Hi).
      exists (Z.of_nat i). split.
      * assert (i < List.length row0)%nat by (apply nth_error_Some; congruence). lia.
      * exists s. unfold cellAt. rewrite Hgrid.
        destruct (Z.ltb_spec (Z.of_nat i) 0); [lia|]. simpl. now rewrite Nat2Z.id.
    + intros (cx & Hcx & s & Hs). unfold cellAt in Hs. rewrite Hgrid in Hs.
      destruct (Z.ltb_spec cx 0); [lia|]. simpl in Hs.
      exists (Color s). split; [eapply nth_error_In; eauto | reflexivity].
  - intros b Hgrid. unfold GameBoard.isGameOver. now rewrite Hgrid.
Qed.

Lemma isGameOver_top_row_witness :
  exists r,
    GameBoard.isGameOver bottomRowFull = Ok r
    /\ (r = true <->
        exists cx, 0 <= cx < GameBoard.width bottomRowFull
                   /\ occupied bottomRowFull cx 0).
Proof.
  apply (proj1 isGameOver_top_row bottomRowFull); [reflexivity | reflexivity].
Defined.

(** X8: on a well-formed board [isValidPosition(x, y)] returns true exactly
    for the positions on the grid that are not occupied.  For a piece whose
    moved cells all have [y >= 0], [canPlacePiece] accepts the placement
    exactly when [isValidPosition] accepts each moved cell; a cell above the
    board ([y < 0]) is never valid for [isValidPosition], though
    [canPlacePiece] allows it. *)
Theorem isValidPosition_free_cell :
  forall b,
    wellFormed b = true ->
    (forall px py,
        exists r,
          GameBoard.isValidPosition b px py = Ok r
          /\ (r = true <-> onGrid b (px, py) /\ ~ occupied b px py))
    /\ (forall p dx dy,
           (forall pos, In pos (Piece.getOccupiedPositions p) -> 0 <= snd pos + dy) ->
           (GameBoard.canPlacePiece b p dx dy = Ok true <->
            forall pos, In pos (Piece.getOccupiedPositions p) ->
                        GameBoard.isValidPosition b (fst pos + dx) (snd pos + dy)
                        = Ok true))
    /\ (forall px py, py < 0 -> GameBoard.isValidPosition b px py = Ok false).
Proof.
  intros b Hwf. pose proof (wellFormed_shaped b Hwf) as Hs.
  assert (Hvalid : forall px py,
             exists r,
               GameBoard.isValidPosition b px py = Ok r
               /\ (r = true <-> onGrid b (px, py) /\ ~ occupied b px py)).
  { intros px py. unfold GameBoard.isValidPosition, onGrid. cbn [fst snd].
    destruct ((px >=? 0) && (px <? GameBoard.width b) && (py >=? 0)
              && (py <? GameBoard.height b)) eqn:Hin.
    - rewrite !andb_true_iff in Hin. destruct Hin as (((H1 & H2) & H3) & H4).
      apply Z.geb_le in H1, H3. apply Z.ltb_lt in H2, H4.
      destruct (shaped_row b py Hs) as (row & Hrow & _); [lia|]. rewrite Hrow.
      eexists. split; [reflexivity|].
      rewrite <- (cellAt_row b px py row) by (assumption || lia).
      rewrite negb_true_iff, truthy_occupied by assumption.
      split; [intros Hfree; split; [lia | exact Hfree] | intros [_ Hfree]; exact Hfree].
    - exists false. split; [reflexivity|]. split; [discriminate|].
      intros [[Hx Hy] _]. rewrite <- not_true_iff_false in Hin. exfalso. apply Hin.
      rewrite !andb_true_iff. repeat split;
        try (apply Z.geb_le; lia); apply Z.ltb_lt; lia. }
  split; [exact Hvalid|]. split.
  - intros p dx dy Hbelow.
    destruct (canPlaceLoop_spec b (Piece.getOccupiedPositions p) dx dy Hs)
      as (r & Hr & Hiff).
    unfold GameBoard.canPlacePiece. rewrite Hr, Forall_forall in *.
    split.
    + intros Hok pos Hin. injection Hok as ->.
      destruct (proj1 Hiff eq_refl pos Hin) as (H1 & H2 & H3).
      destruct (Hvalid (fst pos + dx) (snd pos + dy)) as (v & Hv & Hviff).
      rewrite Hv. f_equal. apply Hviff. split.
      * split; [exact H1|]. cbn [snd]. specialize (Hbelow pos Hin). lia.
      * apply truthy_occupied; [assumption|]. apply H3. now apply Hbelow.
    + intros Hall. f_equal. apply Hiff. intros pos Hin.
      specialize (Hall pos Hin).
      destruct (Hvalid (fst pos + dx) (snd pos + dy)) as (v & Hv & Hviff).
      rewrite Hv in Hall. injection Hall as ->.
      destruct (proj1 Hviff eq_refl) as [[Hx Hy] Hfree]. cbn [fst snd] in Hx, Hy.
      repeat split; try lia. intros _. now apply truthy_occupied.
  - intros px py Hneg. unfold GameBoard.isValidPosition.
    replace (py >=? 0) with false
      by (symmetry; rewrite Z.geb_leb; apply Z.leb_gt; lia).
    now rewrite andb_false_r.
Qed.

Lemma isValidPosition_free_cell_witness :
  GameBoard.canPlacePiece bottomRowFull tAtFive 0 0 = Ok true <->
  forall pos, In pos (Piece.getOccupiedPositions tAtFive) ->
              GameBoard.isValidPosition bottomRowFull (fst pos + 0) (snd pos + 0)
              = Ok true.
Proof.
  destruct (isValidPosition_free_cell bottomRowFull eq_refl) as (_ & H & _).
  apply (H tAtFive 0 0). intros pos Hin. simpl in Hin.
  repeat (destruct Hin as [<- | Hin]; [simpl; lia|]). contradiction.
Defined.

Lemma fullRowsFrom_none :
  forall rows k,
    Forall (fun row => fullRow row = false) rows -> fullRowsFrom k rows = [].
Proof.
  induction rows as [|row rows IH]; intros k H; simpl; [reflexivity|].
  inversion H as [|? ? Hrow Hrest]; subst. rewrite Hrow. now apply IH.
Qed.

Lemma emptyRow_not_full :
  forall w, 0 < w -> fullRow (GameBoard.emptyRow w) = false.
Proof.
  intros w Hw. unfold GameBoard.emptyRow.
  destruct (Z.to_nat w) as [|n] eqn:E; [lia|]. reflexivity.
Qed.

Lemma keptRows_not_full :
  forall rows, Forall (fun row => fullRow row = false) (keptRows rows).
Proof.
  intros rows. apply Forall_forall. intros row Hin. unfold keptRows in Hin.
  apply filter_In in Hin as [_ H]. now apply negb_true_iff.
Qed.

Lemma emptyGrid_cell :
  forall w h cx cy,
    gridCell (GameBoard.emptyGrid w h) cx cy
    = if (0 <=? cx) && (cx <? w) && (0 <=? cy) && (cy <? h) then Some Null else None.
Proof.
  intros w h cx cy. unfold gridCell, GameBoard.emptyGrid, GameBoard.emptyRow.
  destruct (Z.ltb_spec cx 0) as [Hx|Hx]; simpl.
  { replace (0 <=? cx) with false by (symmetry; apply Z.leb_gt; lia). reflexivity. }
  replace (0 <=? cx) with true by (symmetry; apply Z.leb_le; lia).
  destruct (Z.ltb_spec cy 0) as [Hy|Hy]; simpl.
  { replace (0 <=? cy) with false by (symmetry; apply Z.leb_gt; lia).
    now rewrite andb_false_r. }
  replace (0 <=? cy) with true by (symmetry; apply Z.leb_le; lia).
  destruct (Z.ltb_spec cy h) as [Hyh|Hyh].
  - rewrite nth_error_repeat by lia.
    destruct (Z.ltb_spec cx w) as [Hxw|Hxw]; simpl.
    + now rewrite nth_error_repeat by lia.
    + apply nth_error_None. rewrite repeat_length. lia.
  - rewrite andb_false_r.
    replace (nth_error (repeat (repeat Null (Z.to_nat w)) (Z.to_nat h)) (Z.to_nat cy))
      with (@None (list Cell)); [reflexivity|].
    symmetry. apply nth_error_None. rewrite repeat_length. lia.
Qed.

Lemma emptyGrid_wellFormed :
  forall w h lf, 0 <= w -> 0 <= h ->
    wellFormed (GameBoard.mk w h (GameBoard.emptyGrid w h) lf) = true.
Proof.
  intros w h lf Hw Hh. apply wellFormed_gridOk. simpl.
  repeat split; try assumption.
  - apply repeat_length.
  - apply Forall_forall. intros row Hin. apply repeat_spec in Hin. subst row.
    apply emptyRow_ok.
Qed.

Lemma emptyGrid_no_full_row :
  forall w h, 0 < w -> fullRowsFrom 0 (GameBoard.emptyGrid w h) = [].
Proof.
  intros w h Hw. apply fullRowsFrom_none. apply Forall_forall.
  intros row Hin. apply repeat_spec in Hin. subst row. now apply emptyRow_not_full.
Qed.

(** X9: [reset] on a board of non-negative size gives a well-formed board
    of the same size with an empty flash record and no occupied cell.  On it
    [canPlacePiece] accepts exactly the placements that stay between the side
    walls and above the floor, [isGameOver] is false when there is a row, and
    [clearLines] clears nothing when there is a column. *)
Theorem reset_gives_empty_board :
  forall b,
    0 <= GameBoard.width b -> 0 <= GameBoard.height b ->
    let r := GameBoard.reset b in
    wellFormed r = true
    /\ GameBoard.width r = GameBoard.width b
    /\ GameBoard.height r = GameBoard.height b
    /\ GameBoard.linesToFlash r = []
    /\ (forall cx cy, ~ occupied r cx cy)
    /\ (forall p dx dy,
           GameBoard.canPlacePiece r p dx dy = Ok true <->
           forall pos, In pos (Piece.getOccupiedPositions p) ->
                       0 <= fst pos + dx < GameBoard.width b
                       /\ snd pos + dy < GameBoard.height b)
    /\ (0 < GameBoard.height b -> GameBoard.isGameOver r = Ok false)
    /\ (0 < GameBoard.width b -> GameBoard.clearLines r = Ok (0, r)).
Proof.
  intros b Hw Hh r.
  assert (Hwf : wellFormed r = true) by now apply emptyGrid_wellFormed.
  assert (Hfree : forall cx cy, ~ occupied r cx cy).
  { intros cx cy [s Hs]. rewrite cellAt_gridCell in Hs. subst r.
    cbn [GameBoard.reset GameBoard.grid] in Hs. rewrite emptyGrid_cell in Hs.
    destruct (_ && _); discriminate. }
  split; [exact Hwf|]. split; [reflexivity|]. split; [reflexivity|].
  split; [reflexivity|]. split; [exact Hfree|]. split; [|split].
  - intros p dx dy.
    destruct (canPlaceLoop_spec r (Piece.getOccupiedPositions p) dx dy
                (wellFormed_shaped r Hwf)) as (v & Hv & Hiff).
    unfold GameBoard.canPlacePiece. rewrite Hv. rewrite Forall_forall in Hiff.
    split.
    + intros Hok pos Hin. injection Hok as ->.
      destruct (proj1 Hiff eq_refl pos Hin) as (H1 & H2 & _). split; assumption.
    + intros Hall. f_equal. apply Hiff.
      intros pos Hin. destruct (Hall pos Hin) as [H1 H2].
      split; [exact H1|]. split; [exact H2|].
      intros _. apply truthy_occupied; [exact Hwf | apply Hfree].
  - intros Hpos. subst r. unfold GameBoard.isGameOver, GameBoard.reset,
      GameBoard.emptyGrid. cbn [GameBoard.grid].
    destruct (Z.to_nat (GameBoard.height b)) as [|n] eqn:E; [lia|]. cbn [repeat].
    f_equal. unfold GameBoard.rowSome, GameBoard.emptyRow.
    induction (Z.to_nat (GameBoard.width b)) as [|m IH]; [reflexivity|exact IH].
  - intros Hpos. rewrite (clearLines_closed_form r Hwf).
    unfold completeRows. subst r. cbn [GameBoard.reset GameBoard.grid].
    rewrite emptyGrid_no_full_row by assumption. reflexivity.
Qed.

Lemma reset_gives_empty_board_witness :
  wellFormed (GameBoard.reset bottomRowFull) = true
  /\ GameBoard.clearLines (GameBoard.reset bottomRowFull)
     = Ok (0, GameBoard.reset bottomRowFull).
Proof.
  pose proof (reset_gives_empty_board bottomRowFull) as H. cbv zeta in H.
  destruct H as (H1 & _ & _ & _ & _ & _ & _ & H8); try (simpl; lia).
  split; [exact H1|]. apply H8. simpl. lia.
Defined.

(** ** The board: clearing twice, counting cells *)

Lemma fullRow_filter :
  forall row, fullRow row = true -> filter isOccupied row = row.
Proof.
  induction row as [|c row IH]; intros H; simpl in *; [reflexivity|].
  apply andb_prop in H as [Hc Hrow]. rewrite Hc, (IH Hrow). reflexivity.
Qed.

Lemma occupiedCells_app :
  forall g1 g2, occupiedCells (g1 ++ g2) = occupiedCells g1 + occupiedCells g2.
Proof.
  intros g1 g2. unfold occupiedCells. rewrite map_app, list_sum_app. lia.
Qed.

Lemma occupiedCells_empty_rows :
  forall w n, occupiedCells (repeat (GameBoard.emptyRow w) n) = 0.
Proof.
  intros w n. unfold occupiedCells. induction n as [|n IH]; simpl; [reflexivity|].
  assert (He : List.length (filter isOccupied (GameBoard.emptyRow w)) = 0%nat).
  { unfold GameBoard.emptyRow. induction (Z.to_nat w) as [|m IHm]; simpl; auto. }
  rewrite He. simpl. exact IH.
Qed.

Lemma occupiedCells_split :
  forall w rows k,
    Forall (fun row => List.length row = Z.to_nat w) rows -> 0 <= w ->
    occupiedCells rows
    = occupiedCells (keptRows rows)
      + Z.of_nat (List.length (fullRowsFrom k rows)) * w.
Proof.
  intros w rows. induction rows as [|row rows IH]; intros k Hrows Hw.
  - reflexivity.
  - inversion Hrows as [|? ? Hrow Hrest]; subst.
    specialize (IH (S k) Hrest Hw). cbn [keptRows filter fullRowsFrom].
    fold (keptRows rows). unfold occupiedCells in *.
    destruct (fullRow row) eqn:Hfull; cbn [negb map list_sum List.length].
    + rewrite (fullRow_filter row Hfull), Hrow.
      unfold list_sum in *. cbn [fold_right]. nia.
    + unfold list_sum in *. cbn [fold_right]. nia.
Qed.

Lemma clearLines_twice :
  forall b n b',
    wellFormed b = true ->
    0 < GameBoard.width b ->
    GameBoard.clearLines b = Ok (n, b') ->
    completeRows b' = []
    /\ GameBoard.clearLines b' = Ok (0, b')
    /\ occupiedCells (GameBoard.grid b')
       = occupiedCells (GameBoard.grid b) - n * GameBoard.width b.
Proof.
  intros b n b' Hwf Hw Hrun.
  destruct (clearLines_wellFormed b Hwf) as (n1 & b1 & Hrun1 & _ & Hwf1 & _).
  rewrite Hrun in Hrun1. injection Hrun1 as <- <-.
  rewrite (clearLines_closed_form b Hwf) in Hrun.
  pose proof (wellFormed_gridOk b) as [Hg _]. specialize (Hg Hwf).
  destruct Hg as (_ & _ & _ & Hrows).
  assert (Hlen : Forall (fun row => List.length row = Z.to_nat (GameBoard.width b))
                   (GameBoard.grid b)).
  { eapply Forall_impl; [|exact Hrows]. intros row [H _]. exact H. }
  pose proof (occupiedCells_split (GameBoard.width b) (GameBoard.grid b) 0 Hlen
                ltac:(lia)) as Hcount.
  fold (completeRows b) in Hcount.
  assert (Hnone : completeRows b' = []).
  { destruct (completeRows b) as [|i rest] eqn:E; injection Hrun as _ <-;
      [exact E|].
    unfold completeRows. cbn [GameBoard.grid]. apply fullRowsFrom_none.
    change (Forall (fun row => fullRow row = false)
              (repeat (GameBoard.emptyRow (GameBoard.width b)) (S (List.length rest))
               ++ keptRows (GameBoard.grid b))).
    apply Forall_app. split; [|apply keptRows_not_full].
    apply Forall_forall. intros row Hin. apply repeat_spec in Hin. subst row.
    now apply emptyRow_not_full. }
  split; [exact Hnone|]. split.
  - rewrite (clearLines_closed_form b' Hwf1), Hnone. reflexivity.
  - destruct (completeRows b) as [|i rest] eqn:E; injection Hrun as <- <-.
    + simpl. lia.
    + cbn [GameBoard.grid].
      change (occupiedCells
                (repeat (GameBoard.emptyRow (GameBoard.width b))
                   (S (List.length rest))
                 ++ keptRows (GameBoard.grid b))
              = occupiedCells (GameBoard.grid b)
                - Z.of_nat (List.length (i :: rest)) * GameBoard.width b).
      rewrite occupiedCells_app, occupiedCells_empty_rows. lia.
Qed.

(** X10: after [clearLines] on a well-formed board with at least one
    column no complete row is left, so a second [clearLines] right after it
    returns 0 and changes nothing; and a call that clears [n] rows lowers the
    number of occupied cells of the grid by [n * width]. *)
Theorem clearLines_leaves_no_full_row :
  forall b n b',
    wellFormed b = true ->
    0 < GameBoard.width b ->
    GameBoard.clearLines b = Ok (n, b') ->
    completeRows b' = []
    /\ GameBoard.clearLines b' = Ok (0, b')
    /\ occupiedCells (GameBoard.grid b')
       = occupiedCells (GameBoard.grid b) - n * GameBoard.width b.
Proof. exact clearLines_twice. Qed.

Lemma clearLines_leaves_no_full_row_witness :
  completeRows staleBoard = []
  /\ GameBoard.clearLines staleBoard = Ok (0, staleBoard)
  /\ occupiedCells (GameBoard.grid staleBoard)
     = occupiedCells (GameBoard.grid bottomRowFull) - 1 * GameBoard.width bottomRowFull.
Proof.
  apply (clearLines_leaves_no_full_row bottomRowFull 1 staleBoard).
  - reflexivity.
  - simpl. lia.
  - reflexivity.
Defined.

Lemma zero_width_rows :
  forall rows k,
    Forall (fun row : list Cell => List.length row = 0%nat) rows ->
    fullRowsFrom k rows = map Z.of_nat (seq k (List.length rows))
    /\ keptRows rows = []
    /\ rows = repeat [] (List.length rows).
Proof.
  induction rows as [|row rows IH]; intros k H; [repeat split|].
  inversion H as [|? ? Hrow Hrest]; subst.
  destruct row; [|discriminate]. destruct (IH (S k) Hrest) as (H1 & H2 & H3).
  cbn [fullRowsFrom fullRow forallb keptRows filter negb List.length seq map repeat].
  fold (keptRows rows). rewrite H1, H2, <- H3. repeat split.
Qed.

(** X11: on a well-formed board without columns every row is an empty
    array, and [every] holds of an empty array: [clearLines] counts all rows
    as complete, returns the height, records every row index as flashing and
    leaves the grid as it was, and it does so again on each further call. *)
Theorem clearLines_zero_width :
  forall b,
    wellFormed b = true ->
    GameBoard.width b = 0 ->
    0 < GameBoard.height b ->
    exists b',
      GameBoard.clearLines b = Ok (GameBoard.height b, b')
      /\ GameBoard.grid b' = GameBoard.grid b
      /\ GameBoard.linesToFlash b'
         = map Z.of_nat (seq 0 (Z.to_nat (GameBoard.height b)))
      /\ GameBoard.clearLines b' = Ok (GameBoard.height b, b').
Proof.
  intros b Hwf Hw Hh.
  pose proof (wellFormed_gridOk b) as [Hg _]. specialize (Hg Hwf).
  destruct Hg as (_ & _ & Hlen & Hrows).
  assert (Hzero : Forall (fun row : list Cell => List.length row = 0%nat)
                    (GameBoard.grid b)).
  { eapply Forall_impl; [|exact Hrows]. intros row [H _]. rewrite H, Hw. reflexivity. }
  destruct (zero_width_rows (GameBoard.grid b) 0 Hzero) as (Hfull & Hkept & Hgrid).
  assert (Hstep : forall lf,
             GameBoard.clearLines
               (GameBoard.mk (GameBoard.width b) (GameBoard.height b)
                  (GameBoard.grid b) lf)
             = Ok (GameBoard.height b,
                   GameBoard.mk (GameBoard.width b) (GameBoard.height b)
                     (GameBoard.grid b)
                     (map Z.of_nat (seq 0 (Z.to_nat (GameBoard.height b)))))).
  { intros lf. rewrite clearLines_closed_form.
    2: { apply wellFormed_gridOk. apply wellFormed_gridOk in Hwf. exact Hwf. }
    unfold completeRows. cbn [GameBoard.grid GameBoard.width GameBoard.height].
    rewrite Hfull, Hkept, Hlen, length_map, length_seq, app_nil_r.
    destruct (Z.to_nat (GameBoard.height b)) as [|m] eqn:E; [lia|].
    cbn [seq map]. rewrite <- E, Z2Nat.id by lia. f_equal. f_equal. f_equal.
    rewrite Hw. unfold GameBoard.emptyRow. cbn [Z.to_nat repeat].
    rewrite E, <- Hlen. symmetry. exact Hgrid. }
  eexists. split.
  - replace b with (GameBoard.mk (GameBoard.width b) (GameBoard.height b)
                      (GameBoard.grid b) (GameBoard.linesToFlash b)) at 1
      by (destruct b; reflexivity).
    apply Hstep.
  - cbn [GameBoard.grid GameBoard.linesToFlash]. repeat split. apply Hstep.
Qed.

Lemma clearLines_zero_width_witness :
  exists b',
    GameBoard.clearLines (GameBoard.new 0 3) = Ok (3, b')
    /\ GameBoard.grid b' = GameBoard.grid (GameBoard.new 0 3)
    /\ GameBoard.linesToFlash b' = [0; 1; 2]
    /\ GameBoard.clearLines b' = Ok (3, b').
Proof.
  apply (clearLines_zero_width (GameBoard.new 0 3)).
  - reflexivity.
  - reflexivity.
  - simpl. lia.
Defined.

(** ** The board: heuristic readouts *)

Lemma columnScan_rows :
  forall h px rows pre,
    h = Z.of_nat (List.length pre + List.length rows) ->
    GameBoard.columnScan h (pre ++ rows) (seq (List.length pre) (List.length rows)) px
    = Ok (Z.of_nat (stackRows rows px)).
Proof.
  intros h px rows. induction rows as [|row rows IH]; intros pre Hh.
  - reflexivity.
  - cbn [List.length seq GameBoard.columnScan stackRows].
    rewrite nth_error_app2 by lia. rewrite Nat.sub_diag. cbn [nth_error].
    destruct (GameBoard.notNullAt row px).
    + f_equal. cbn [List.length] in Hh. lia.
    + specialize (IH (pre ++ [row])). rewrite <- app_assoc in IH. cbn [app] in IH.
      rewrite length_app in IH. cbn [List.length] in IH.
      rewrite Nat.add_1_r in IH. apply IH. cbn [List.length] in Hh. lia.
Qed.

Lemma getColumnHeight_stack :
  forall b px, shaped b = true ->
    GameBoard.getColumnHeight b px = Ok (Z.of_nat (stackRows (GameBoard.grid b) px)).
Proof.
  intros b px Hs. destruct (shaped_inv b Hs) as (_ & Hh & Hlen & _).
  unfold GameBoard.getColumnHeight. rewrite <- Hlen.
  apply (columnScan_rows (GameBoard.height b) px (GameBoard.grid b) []).
  simpl. lia.
Qed.

Lemma stackRows_bound :
  forall rows px, (stackRows rows px <= List.length rows)%nat.
Proof.
  induction rows as [|row rows IH]; intros px; simpl; [lia|].
  destruct (GameBoard.notNullAt row px); [lia|]. specialize (IH px). lia.
Qed.

(** Where the stack of a column starts. *)
Lemma stackRows_first :
  forall rows px,
    (stackRows rows px = 0%nat /\
     forall i row, nth_error rows i = Some row -> GameBoard.notNullAt row px = false)
    \/ (exists i row,
           stackRows rows px = (List.length rows - i)%nat
           /\ (i < List.length rows)%nat
           /\ nth_error rows i = Some row
           /\ GameBoard.notNullAt row px = true
           /\ forall j row', (j < i)%nat -> nth_error rows j = Some row' ->
                             GameBoard.notNullAt row' px = false).
Proof.
  induction rows as [|row rows IH]; intros px.
  - left. split; [reflexivity|]. intros [|i] r H; discriminate.
  - cbn [stackRows]. destruct (GameBoard.notNullAt row px) eqn:Hn.
    + right. exists 0%nat, row.
      split; [simpl; lia|]. split; [simpl; lia|]. split; [reflexivity|].
      split; [exact Hn|]. intros j r Hj. lia.
    + destruct (IH px) as [[Hz Hall] | (i & r & Hst & Hi & Hr & Hnn & Hbefore)].
      * left. split; [exact Hz|]. intros [|i] r H; simpl in H.
        -- now injection H as <-.
        -- eapply Hall; eauto.
      * right. exists (S i), r.
        split; [simpl; lia|]. split; [simpl; lia|]. split; [exact Hr|].
        split; [exact Hnn|].
        intros [|j] r' Hj H; simpl in H.
        -- now injection H as <-.
        -- eapply Hbefore; eauto. lia.
Qed.

Lemma notNullAt_occupied :
  forall b px py row,
    wellFormed b = true ->
    0 <= px < GameBoard.width b -> 0 <= py ->
    nth_error (GameBoard.grid b) (Z.to_nat py) = Some row ->
    (GameBoard.notNullAt row px = true <-> occupied b px py).
Proof.
  intros b px py row Hwf Hpx Hpy Hrow.
  destruct (wellFormed_row_valid b row Hwf (nth_error_In _ _ Hrow)) as [Hrl Hrv].
  unfold occupied. rewrite (cellAt_row b px py row) by (assumption || lia).
  unfold GameBoard.notNullAt, GameBoard.readCell.
  destruct (Z.ltb_spec px 0); [lia|].
  destruct (nth_error row (Z.to_nat px)) as [c|] eqn:Hc.
  - rewrite forallb_forall in Hrv. specialize (Hrv c (nth_error_In _ _ Hc)).
    destruct c as [| |s]; simpl in Hrv; try discriminate.
    + split; [discriminate|]. intros [s Hs]. discriminate.
    + split; [eauto|reflexivity].
  - apply nth_error_None in Hc. lia.
Qed.

(** X12: on a well-formed board, for a column [x] of the board,
    [getColumnHeight(x)] returns a height between 0 and the board height; it
    is 0 exactly when the column has no occupied cell, and otherwise the cell
    at row [height - h] is occupied and no cell above it is. *)
Theorem getColumnHeight_top_of_stack :
  forall b px,
    wellFormed b = true ->
    0 <= px < GameBoard.width b ->
    exists hh,
      GameBoard.getColumnHeight b px = Ok hh
      /\ 0 <= hh <= GameBoard.height b
      /\ (hh = 0 <-> forall py, ~ occupied b px py)
      /\ (0 < hh ->
          occupied b px (GameBoard.height b - hh)
          /\ forall py, 0 <= py < GameBoard.height b - hh -> ~ occupied b px py).
Proof.
  intros b px Hwf Hpx. pose proof (wellFormed_shaped b Hwf) as Hs.
  destruct (shaped_inv b Hs) as (_ & Hh & Hlen & _).
  exists (Z.of_nat (stackRows (GameBoard.grid b) px)).
  split; [now apply getColumnHeight_stack|].
  pose proof (stackRows_bound (GameBoard.grid b) px) as Hb.
  split; [lia|].
  assert (Hocc : forall py, occupied b px py ->
                   exists row, 0 <= py
                               /\ nth_error (GameBoard.grid b) (Z.to_nat py) = Some row
                               /\ GameBoard.notNullAt row px = true).
  { intros py [s Hc]. unfold cellAt in Hc.
    destruct (Z.ltb_spec px 0); [lia|]. destruct (Z.ltb_spec py 0); [discriminate|].
    simpl in Hc.
    destruct (nth_error (GameBoard.grid b) (Z.to_nat py)) as [row|] eqn:Hrow;
      [|discriminate].
    exists row. repeat split; try assumption.
    apply (notNullAt_occupied b px py row); try assumption.
    exists s. now rewrite (cellAt_row b px py row) by (assumption || lia). }
  destruct (stackRows_first (GameBoard.grid b) px)
    as [[Hz Hall] | (i & row & Hst & Hi & Hrow & Hnn & Hbefore)].
  - rewrite Hz. split; [|intros H; simpl in H; lia].
    split; [|reflexivity]. intros _ py Ho.
    destruct (Hocc py Ho) as (row & _ & Hrow & Hnn).
    rewrite (Hall _ _ Hrow) in Hnn. discriminate.
  - rewrite Hst. split.
    + split; [lia|]. intros Hnone. exfalso. apply (Hnone (Z.of_nat i)).
      apply (notNullAt_occupied b px (Z.of_nat i) row); try assumption; try lia.
      now rewrite Nat2Z.id.
    + intros _.
      replace (GameBoard.height b - Z.of_nat (List.length (GameBoard.grid b) - i))
        with (Z.of_nat i) by lia.
      split.
      * apply (notNullAt_occupied b px (Z.of_nat i) row); try assumption; try lia.
        now rewrite Nat2Z.id.
      * intros py Hpy Ho. destruct (Hocc py Ho) as (row' & _ & Hrow' & Hnn').
        rewrite (Hbefore (Z.to_nat py) row') in Hnn'; [discriminate|lia|exact Hrow'].
Qed.

Lemma getColumnHeight_top_of_stack_witness :
  exists hh,
    GameBoard.getColumnHeight bottomRowFull 3 = Ok hh
    /\ 0 <= hh <= GameBoard.height bottomRowFull
    /\ (hh = 0 <-> forall py, ~ occupied bottomRowFull 3 py)
    /\ (0 < hh ->
        occupied bottomRowFull 3 (GameBoard.height bottomRowFull - hh)
        /\ forall py, 0 <= py < GameBoard.height bottomRowFull - hh ->
                      ~ occupied bottomRowFull 3 py).
Proof.
  apply (getColumnHeight_top_of_stack bottomRowFull 3); [reflexivity|].
  simpl. lia.
Defined.

(** X13: for a column outside the board, to the left or to the right,
    [getColumnHeight] reads [undefined] in row 0, which is not [null], and
    returns the full board height, on every well-formed board with a row,
    the empty one included. *)
Theorem getColumnHeight_outside_board :
  forall b px,
    wellFormed b = true ->
    0 < GameBoard.height b ->
    px < 0 \/ GameBoard.width b <= px ->
    GameBoard.getColumnHeight b px = Ok (GameBoard.height b).
Proof.
  intros b px Hwf Hh Hout. pose proof (wellFormed_shaped b Hwf) as Hs.
  rewrite (getColumnHeight_stack b px Hs).
  destruct (shaped_inv b Hs) as (_ & _ & Hlen & _).
  destruct (GameBoard.grid b) as [|row0 rows] eqn:Hgrid; [simpl in Hlen; lia|].
  destruct (wellFormed_row_valid b row0 Hwf) as [Hrl _].
  { rewrite Hgrid. now left. }
  cbn [stackRows].
  replace (GameBoard.notNullAt row0 px) with true.
  - f_equal. lia.
  - unfold GameBoard.notNullAt, GameBoard.readCell.
    destruct (Z.ltb_spec px 0); [reflexivity|].
    replace (nth_error row0 (Z.to_nat px)) with (@None Cell); [reflexivity|].
    symmetry. apply nth_error_None. lia.
Qed.

Lemma getColumnHeight_outside_board_witness :
  GameBoard.getColumnHeight (GameBoard.new 10 20) 10 = Ok 20
  /\ GameBoard.getColumnHeight (GameBoard.new 10 20) (-1) = Ok 20.
Proof.
  split.
  - apply (getColumnHeight_outside_board (GameBoard.new 10 20) 10);
      [reflexivity | simpl; lia | right; simpl; lia].
  - apply (getColumnHeight_outside_board (GameBoard.new 10 20) (-1));
      [reflexivity | simpl; lia | left; lia].
Defined.

Lemma holeScan_rows :
  forall px rows pre found holes,
    GameBoard.holeScan (pre ++ rows) (seq (List.length pre) (List.length rows)) px
      found holes
    = Ok (holes + Z.of_nat (holesRows rows px found)).
Proof.
  intros px rows. induction rows as [|row rows IH]; intros pre found holes.
  - simpl. f_equal. lia.
  - cbn [List.length seq GameBoard.holeScan holesRows].
    rewrite nth_error_app2 by lia. rewrite Nat.sub_diag. cbn [nth_error].
    assert (Hshift : forall f h,
               GameBoard.holeScan (pre ++ row :: rows)
                 (seq (S (List.length pre)) (List.length rows)) px f h
               = Ok (h + Z.of_nat (holesRows rows px f))).
    { intros f h. specialize (IH (pre ++ [row]) f h).
      rewrite <- app_assoc in IH. cbn [app] in IH.
      rewrite length_app in IH. cbn [List.length] in IH.
      rewrite Nat.add_1_r in IH. exact IH. }
    destruct (GameBoard.notNullAt row px); [apply Hshift|].
    destruct found; rewrite Hshift; f_equal; lia.
Qed.

Lemma holesRows_found :
  forall rows px,
    (holesRows rows px true + blocksRows rows px = List.length rows)%nat.
Proof.
  intros rows px. unfold blocksRows.
  induction rows as [|row rows IH]; simpl; [reflexivity|].
  destruct (GameBoard.notNullAt row px); simpl; lia.
Qed.

Lemma holesRows_stack :
  forall rows px,
    (holesRows rows px false + blocksRows rows px = stackRows rows px)%nat.
Proof.
  intros rows px. induction rows as [|row rows IH]; [reflexivity|].
  cbn [holesRows stackRows]. unfold blocksRows in *. cbn [filter].
  destruct (GameBoard.notNullAt row px); cbn [List.length].
  - pose proof (holesRows_found rows px) as H. unfold blocksRows in H. lia.
  - exact IH.
Qed.

Lemma holeColumns_sum :
  forall g xs holes,
    GameBoard.holeColumns g (seq 0 (List.length g)) xs holes
    = Ok (holes + sumZ (map (fun xx => Z.of_nat (holesRows g (Z.of_nat xx) false)) xs)).
Proof.
  intros g xs. induction xs as [|xx xs IH]; intros holes.
  - simpl. f_equal. lia.
  - cbn [GameBoard.holeColumns].
    pose proof (holeScan_rows (Z.of_nat xx) g [] false holes) as Hscan.
    cbn [app List.length] in Hscan. rewrite Hscan. cbn [bind].
    rewrite IH. f_equal. cbn [map sumZ fold_right]. fold (sumZ). unfold sumZ. lia.
Qed.

Lemma heightSum_sum :
  forall b xs total, shaped b = true ->
    GameBoard.heightSum b xs total
    = Ok (total
          + sumZ (map (fun xx => Z.of_nat (stackRows (GameBoard.grid b) (Z.of_nat xx))) xs)).
Proof.
  intros b xs total Hs. revert total. induction xs as [|xx xs IH]; intros total.
  - simpl. f_equal. lia.
  - cbn [GameBoard.heightSum]. rewrite getColumnHeight_stack by assumption.
    cbn [bind]. rewrite IH. f_equal. unfold sumZ. cbn [map fold_right]. lia.
Qed.

Lemma row_blocks_count :
  forall suf pre,
    forallb validCell suf = true ->
    sumZ (map (fun xx => if GameBoard.notNullAt (pre ++ suf) (Z.of_nat xx)
                         then 1 else 0)
            (seq (List.length pre) (List.length suf)))
    = Z.of_nat (List.length (filter isOccupied suf)).
Proof.
  induction suf as [|c suf IH]; intros pre Hv; [reflexivity|].
  simpl in Hv. apply andb_prop in Hv as [Hc Hv].
  cbn [List.length seq map sumZ fold_right]. fold sumZ.
  specialize (IH (pre ++ [c]) Hv). rewrite <- app_assoc in IH. cbn [app] in IH.
  rewrite length_app in IH. cbn [List.length] in IH. rewrite Nat.add_1_r in IH.
  unfold sumZ in IH |- *. rewrite IH.
  unfold GameBoard.notNullAt, GameBoard.readCell.
  destruct (Z.ltb_spec (Z.of_nat (List.length pre)) 0); [lia|].
  rewrite Nat2Z.id, nth_error_app2 by lia. rewrite Nat.sub_diag. cbn [nth_error filter].
  destruct c as [| |s]; simpl in Hc; try discriminate; cbn [isOccupied List.length]; lia.
Qed.

Lemma blocks_total :
  forall w rows,
    Forall (fun row => List.length row = w /\ forallb validCell row = true) rows ->
    sumZ (map (fun xx => Z.of_nat (blocksRows rows (Z.of_nat xx))) (seq 0 w))
    = occupiedCells rows.
Proof.
  intros w rows. induction rows as [|row rows IH]; intros Hrows.
  - unfold blocksRows, occupiedCells. simpl.
    induction (seq 0 w) as [|x xs IHx]; [reflexivity|]. simpl. exact IHx.
  - inversion Hrows as [|? ? [Hrl Hrv] Hrest]; subst.
    specialize (IH Hrest). unfold occupiedCells in *.
    cbn [map list_sum fold_right]. unfold list_sum in *.
    rewrite Nat2Z.inj_add, <- IH.
    rewrite <- (row_blocks_count row [] Hrv). cbn [List.length app].
    unfold blocksRows. cbn [filter].
    generalize (seq 0 (List.length row)). intros xs.
    induction xs as [|x xs IHx]; [reflexivity|].
    cbn [map sumZ fold_right]. unfold sumZ in IHx. rewrite IHx.
    destruct (GameBoard.notNullAt row (Z.of_nat x)); cbn [List.length]; lia.
Qed.

Lemma sumZ_add :
  forall (A : Type) (f g : A -> Z) xs,
    sumZ (map (fun x => f x + g x) xs) = sumZ (map f xs) + sumZ (map g xs).
Proof.
  intros A f g xs. unfold sumZ. induction xs as [|x xs IH]; simpl; lia.
Qed.

Lemma sumZ_nonneg :
  forall (A : Type) (f : A -> Z) xs,
    (forall x, 0 <= f x) -> 0 <= sumZ (map f xs).
Proof.
  intros A f xs Hf. unfold sumZ. induction xs as [|x xs IH]; simpl; [lia|].
  specialize (Hf x). lia.
Qed.

(** X14: on a well-formed board [getHoleCount] and [getAggregateHeight]
    return, and the aggregate height is the number of holes plus the number
    of occupied cells of the grid: under the top of its stack every cell of
    a column is either occupied or a hole. *)
Theorem aggregateHeight_is_holes_plus_cells :
  forall b,
    wellFormed b = true ->
    exists holes total,
      GameBoard.getHoleCount b = Ok holes
      /\ GameBoard.getAggregateHeight b = Ok total
      /\ 0 <= holes
      /\ total = holes + occupiedCells (GameBoard.grid b).
Proof.
  intros b Hwf. pose proof (wellFormed_shaped b Hwf) as Hs.
  destruct (shaped_inv b Hs) as (_ & _ & Hlen & _).
  pose proof (wellFormed_gridOk b) as [Hg _]. specialize (Hg Hwf).
  destruct Hg as (_ & _ & _ & Hrows).
  unfold GameBoard.getHoleCount, GameBoard.getAggregateHeight.
  rewrite <- Hlen, holeColumns_sum, heightSum_sum by assumption.
  do 2 eexists. split; [reflexivity|]. split; [reflexivity|]. split.
  - rewrite Z.add_0_l. apply sumZ_nonneg. intros x. lia.
  - rewrite !Z.add_0_l.
    rewrite <- (blocks_total (Z.to_nat (GameBoard.width b)) (GameBoard.grid b) Hrows).
    rewrite <- sumZ_add. f_equal. apply map_ext. intros x.
    pose proof (holesRows_stack (GameBoard.grid b) (Z.of_nat x)). lia.
Qed.

Lemma aggregateHeight_is_holes_plus_cells_witness :
  exists holes total,
    GameBoard.getHoleCount fourAlmostFull = Ok holes
    /\ GameBoard.getAggregateHeight fourAlmostFull = Ok total
    /\ 0 <= holes
    /\ total = holes + occupiedCells (GameBoard.grid fourAlmostFull).
Proof.
  apply (aggregateHeight_is_holes_plus_cells fourAlmostFull). reflexivity.
Defined.

Lemma bumpSum_sum :
  forall b xs acc, shaped b = true ->
    GameBoard.bumpSum b xs acc
    = Ok (acc + sumZ (map (fun xx =>
                             Z.abs (Z.of_nat (stackRows (GameBoard.grid b) (Z.of_nat xx))
                                    - Z.of_nat (stackRows (GameBoard.grid b)
                                                  (Z.of_nat xx + 1))))
                        xs)).
Proof.
  intros b xs acc Hs. revert acc. induction xs as [|xx xs IH]; intros acc.
  - simpl. f_equal. lia.
  - cbn [GameBoard.bumpSum]. rewrite !getColumnHeight_stack by assumption.
    cbn [bind]. rewrite IH. f_equal. unfold sumZ. cbn [map fold_right]. lia.
Qed.

Lemma sumZ_zero :
  forall (A : Type) (f : A -> Z) xs,
    (forall x, 0 <= f x) ->
    (sumZ (map f xs) = 0 <-> forall x, In x xs -> f x = 0).
Proof.
  intros A f xs Hf. unfold sumZ. induction xs as [|x xs IH]; simpl.
  - split; [intros _ x []|reflexivity].
  - pose proof (sumZ_nonneg A f xs Hf) as Hn. unfold sumZ in Hn.
    pose proof (Hf x) as Hx. split.
    + intros H y [<- | Hy]; [lia|]. apply IH; [lia|exact Hy].
    + intros H. rewrite (H x (or_introl eq_refl)).
      rewrite (proj2 IH); [reflexivity|]. intros y Hy. apply H. now right.
Qed.

(** X15: on a well-formed board [getBumpiness] returns a number that is
    never negative, and that is 0 exactly when all columns of the board have
    the same height. *)
Theorem getBumpiness_zero_iff_flat :
  forall b,
    wellFormed b = true ->
    exists v,
      GameBoard.getBumpiness b = Ok v
      /\ 0 <= v
      /\ (v = 0 <->
          forall px, 0 <= px < GameBoard.width b -> heightOf b px = heightOf b 0).
Proof.
  intros b Hwf. pose proof (wellFormed_shaped b Hwf) as Hs.
  set (H := fun px => Z.of_nat (stackRows (GameBoard.grid b) px)).
  assert (HH : forall px, heightOf b px = H px).
  { intros px. unfold heightOf. now rewrite getColumnHeight_stack. }
  unfold GameBoard.getBumpiness. rewrite bumpSum_sum by assumption.
  eexists. split; [reflexivity|]. rewrite Z.add_0_l.
  set (f := fun xx : nat => Z.abs (H (Z.of_nat xx) - H (Z.of_nat xx + 1))).
  change (0 <= sumZ (map f (seq 0 (Z.to_nat (GameBoard.width b - 1))))
          /\ (sumZ (map f (seq 0 (Z.to_nat (GameBoard.width b - 1)))) = 0 <->
              forall px, 0 <= px < GameBoard.width b -> heightOf b px = heightOf b 0)).
  assert (Hf : forall x, 0 <= f x) by (intros x; unfold f; lia).
  split; [now apply sumZ_nonneg|].
  rewrite (sumZ_zero nat f _ Hf). split.
  - intros Hall px Hpx. rewrite !HH.
    assert (Hn : forall n, (n < Z.to_nat (GameBoard.width b))%nat ->
                           H (Z.of_nat n) = H 0).
    { induction n as [|n IHn]; intros Hlt; [reflexivity|].
      specialize (Hall n). unfold f in Hall.
      rewrite <- IHn by lia.
      replace (Z.of_nat (S n)) with (Z.of_nat n + 1) by lia.
      assert (Hin : In n (seq 0 (Z.to_nat (GameBoard.width b - 1))))
        by (apply in_seq; lia).
      specialize (Hall Hin). lia. }
    rewrite <- (Z2Nat.id px) by lia. apply Hn. lia.
  - intros Hall x Hin. apply in_seq in Hin. unfold f.
    rewrite <- !HH. rewrite (Hall (Z.of_nat x)) by lia.
    rewrite (Hall (Z.of_nat x + 1)) by lia. lia.
Qed.

Lemma getBumpiness_zero_iff_flat_witness :
  exists v,
    GameBoard.getBumpiness bottomRowFull = Ok v
    /\ 0 <= v
    /\ (v = 0 <->
        forall px, 0 <= px < GameBoard.width bottomRowFull ->
                   heightOf bottomRowFull px = heightOf bottomRowFull 0).
Proof.
  apply (getBumpiness_zero_iff_flat bottomRowFull). reflexivity.
Defined.

(** ** The controller: moves *)

Lemma rowPositions_shift :
  forall p q dx dy yy row xx,
    Piece.x q = Piece.x p + dx -> Piece.y q = Piece.y p + dy ->
    Piece.rowPositions q yy xx row = map (shift dx dy) (Piece.rowPositions p yy xx row).
Proof.
  intros p q dx dy yy row. induction row as [|v row IH]; intros xx Hx Hy; simpl.
  - reflexivity.
  - destruct (negb (v =? 0)); simpl; rewrite IH by assumption; [|reflexivity].
    unfold shift. simpl. rewrite Hx, Hy. f_equal. f_equal; lia.
Qed.

Lemma shapePositions_shift :
  forall p q dx dy rows yy,
    Piece.x q = Piece.x p + dx -> Piece.y q = Piece.y p + dy ->
    Piece.shapePositions q yy rows
    = map (shift dx dy) (Piece.shapePositions p yy rows).
Proof.
  intros p q dx dy rows. induction rows as [|row rows IH]; intros yy Hx Hy; simpl.
  - reflexivity.
  - rewrite map_app, (rowPositions_shift p q dx dy) by assumption.
    now rewrite IH.
Qed.

(** The positions of a piece depend on its mask and origin only. *)
Lemma positions_shift :
  forall p q dx dy,
    Piece.shape q = Piece.shape p ->
    Piece.x q = Piece.x p + dx -> Piece.y q = Piece.y p + dy ->
    Piece.getOccupiedPositions q = map (shift dx dy) (Piece.getOccupiedPositions p).
Proof.
  intros p q dx dy Hsh Hx Hy. unfold Piece.getOccupiedPositions. rewrite Hsh.
  now apply shapePositions_shift.
Qed.

Lemma canPlaceLoop_shift :
  forall b dx dy ox oy positions,
    GameBoard.canPlaceLoop b (map (shift dx dy) positions) ox oy
    = GameBoard.canPlaceLoop b positions (dx + ox) (dy + oy).
Proof.
  intros b dx dy ox oy positions. induction positions as [|pos rest IH]; simpl.
  - reflexivity.
  - replace (fst pos + dx + ox) with (fst pos + (dx + ox)) by lia.
    replace (snd pos + dy + oy) with (snd pos + (dy + oy)) by lia.
    rewrite IH. reflexivity.
Qed.

(** Testing a moved piece is testing the piece at the added offset. *)
Lemma canPlacePiece_shift :
  forall b p q dx dy ox oy,
    Piece.shape q = Piece.shape p ->
    Piece.x q = Piece.x p + dx -> Piece.y q = Piece.y p + dy ->
    GameBoard.canPlacePiece b q ox oy = GameBoard.canPlacePiece b p (dx + ox) (dy + oy).
Proof.
  intros b p q dx dy ox oy Hsh Hx Hy. unfold GameBoard.canPlacePiece.
  rewrite (positions_shift p q dx dy Hsh Hx Hy). apply canPlaceLoop_shift.
Qed.

Lemma fits_shift :
  forall b p q dx dy ox oy,
    Piece.shape q = Piece.shape p ->
    Piece.x q = Piece.x p + dx -> Piece.y q = Piece.y p + dy ->
    fits b q ox oy = fits b p (dx + ox) (dy + oy).
Proof.
  intros b p q dx dy ox oy Hsh Hx Hy. unfold fits.
  now rewrite (canPlacePiece_shift b p q dx dy ox oy Hsh Hx Hy).
Qed.

(** [moveCurrentPiece] in closed form. *)
Lemma moveCurrentPiece_eq :
  forall dx dy g cur,
    TetrisGame.currentPiece g = Some cur ->
    TetrisGame.isGameOver g = false ->
    shaped (TetrisGame.board g) = true ->
    TetrisGame.moveCurrentPiece dx dy g
    = Ok (fits (TetrisGame.board g) cur dx dy, afterMove dx dy cur g).
Proof.
  intros dx dy g cur Hcur Hover Hs. unfold TetrisGame.moveCurrentPiece, afterMove.
  rewrite Hcur, Hover. rewrite canPlacePiece_total by assumption. cbn [bind].
  destruct (fits (TetrisGame.board g) cur dx dy); [|destruct (dy >? 0); reflexivity].
  cbv zeta. fold (movedTo cur (Piece.x cur + dx) (Piece.y cur + dy)).
  destruct (dy >? 0); cbn [andb]; [|reflexivity].
  assert (Hb : forall h, TetrisGame.board
                 (if negb (dx =? 0)
                  then TetrisGame.resetLockTimer
                         (TetrisGame.set_currentPiece (Some h) g)
                  else TetrisGame.set_currentPiece (Some h) g)
               = TetrisGame.board g)
    by (intros h; destruct (negb (dx =? 0)); reflexivity).
  rewrite Hb, canPlacePiece_total by assumption. reflexivity.
Qed.

Lemma moveCurrentPiece_idle :
  forall dx dy g,
    TetrisGame.currentPiece g = None \/ TetrisGame.isGameOver g = true ->
    TetrisGame.moveCurrentPiece dx dy g = Ok (false, g).
Proof.
  intros dx dy g [H | H]; unfold TetrisGame.moveCurrentPiece; rewrite H;
    [reflexivity|]. destruct (TetrisGame.currentPiece g); reflexivity.
Qed.

(** X16: [moveCurrentPiece(dx, dy)] on a running session returns true
    exactly when the current piece fits at the offset.  Then the piece is
    moved by exactly [(dx, dy)] and fits where it now is; otherwise it stays
    where it was.  In both cases the board, the score, the lines, the level
    and the queued piece are untouched.  A failed move down, and a move down
    after which the piece cannot go further, leave the session locking; a
    failed move that is not downward changes nothing.  Without a current
    piece or after game over the call returns false and changes nothing. *)
Theorem moveCurrentPiece_moves_iff_fits :
  (forall dx dy g cur,
      TetrisGame.currentPiece g = Some cur ->
      TetrisGame.isGameOver g = false ->
      shaped (TetrisGame.board g) = true ->
      exists g',
        TetrisGame.moveCurrentPiece dx dy g
        = Ok (fits (TetrisGame.board g) cur dx dy, g')
        /\ TetrisGame.board g' = TetrisGame.board g
        /\ TetrisGame.score g' = TetrisGame.score g
        /\ TetrisGame.lines g' = TetrisGame.lines g
        /\ TetrisGame.level g' = TetrisGame.level g
        /\ TetrisGame.nextPiece g' = TetrisGame.nextPiece g
        /\ (fits (TetrisGame.board g) cur dx dy = true ->
            TetrisGame.currentPiece g'
            = Some (movedTo cur (Piece.x cur + dx) (Piece.y cur + dy))
            /\ fits (TetrisGame.board g')
                 (movedTo cur (Piece.x cur + dx) (Piece.y cur + dy)) 0 0 = true
            /\ (0 < dy ->
                fits (TetrisGame.board g)
                  (movedTo cur (Piece.x cur + dx) (Piece.y cur + dy)) 0 1 = false ->
                TetrisGame.isLocking g' = true))
        /\ (fits (TetrisGame.board g) cur dx dy = false ->
            TetrisGame.currentPiece g' = Some cur
            /\ (0 < dy -> TetrisGame.isLocking g' = true)
            /\ (dy <= 0 -> g' = g)))
  /\ (forall dx dy g,
         TetrisGame.currentPiece g = None \/ TetrisGame.isGameOver g = true ->
         TetrisGame.moveCurrentPiece dx dy g = Ok (false, g)).
Proof.
  split; [|exact moveCurrentPiece_idle].
  intros dx dy g cur Hcur Hover Hs.
  exists (afterMove dx dy cur g).
  split; [now apply moveCurrentPiece_eq|].
  assert (Hlock : forall h, TetrisGame.isLocking (TetrisGame.startLocking h) = true).
  { intros h. unfold TetrisGame.startLocking.
    destruct (TetrisGame.isLocking h) eqn:E; simpl; [exact E|reflexivity]. }
  unfold afterMove.
  destruct (fits (TetrisGame.board g) cur dx dy) eqn:Hfit.
  - cbv zeta.
    set (moved := movedTo cur (Piece.x cur + dx) (Piece.y cur + dy)).
    assert (Hmoved : fits (TetrisGame.board g) moved 0 0 = true).
    { rewrite (fits_shift (TetrisGame.board g) cur moved dx dy 0 0);
        try reflexivity. now rewrite !Z.add_0_r. }
    destruct (Z.gtb_spec dy 0) as [Hdy|Hdy]; cbn [andb];
      destruct (fits (TetrisGame.board g) moved 0 1) eqn:Hbelow; cbn [negb];
      destruct (negb (dx =? 0)); unfold TetrisGame.startLocking;
      try destruct (negb (TetrisGame.isLocking _)) eqn:Hl;
      (repeat split; try reflexivity; try discriminate; try exact Hmoved;
       try (intros; lia);
       try (intros; discriminate)).
    all: try (intros _ _; cbn in Hl |- *; apply negb_false_iff in Hl; exact Hl).
  - destruct (Z.gtb_spec dy 0) as [Hdy|Hdy].
    + unfold TetrisGame.startLocking.
      destruct (negb (TetrisGame.isLocking g)) eqn:Hl;
        (repeat split; try reflexivity; try discriminate; try exact Hcur;
         try (intros; lia)).
      intros _. apply negb_false_iff in Hl. exact Hl.
    + repeat split; try reflexivity; try discriminate; try exact Hcur.
      intros; lia.
Qed.

Lemma moveCurrentPiece_moves_iff_fits_witness :
  exists g',
    TetrisGame.moveCurrentPiece 1 0 tAtWall = Ok (false, g')
    /\ TetrisGame.currentPiece g' = TetrisGame.currentPiece tAtWall.
Proof.
  destruct (proj1 moveCurrentPiece_moves_iff_fits 1 0 tAtWall
              (Piece.new TypeT (Some 7) (Some 5)) eq_refl eq_refl eq_refl)
    as (g' & Hrun & _ & _ & _ & _ & _ & _ & Hstay).
  exists g'. split; [exact Hrun|]. now apply Hstay.
Defined.

(** X17: [softDrop] on a running session moves the current piece down by
    one row and adds 1 point exactly when the piece fits one row lower;
    otherwise piece and score stay as they are. *)
Theorem softDrop_one_point_per_row :
  forall g cur,
    TetrisGame.currentPiece g = Some cur ->
    TetrisGame.isGameOver g = false ->
    shaped (TetrisGame.board g) = true ->
    exists g',
      TetrisGame.softDrop g = Ok g'
      /\ TetrisGame.board g' = TetrisGame.board g
      /\ (fits (TetrisGame.board g) cur 0 1 = true ->
          TetrisGame.score g' = Num_add (TetrisGame.score g) (Number 1)
          /\ TetrisGame.currentPiece g'
             = Some (movedTo cur (Piece.x cur) (Piece.y cur + 1)))
      /\ (fits (TetrisGame.board g) cur 0 1 = false ->
          TetrisGame.score g' = TetrisGame.score g
          /\ TetrisGame.currentPiece g' = Some cur).
Proof.
  intros g cur Hcur Hover Hs. unfold TetrisGame.softDrop.
  rewrite (moveCurrentPiece_eq 0 1 g cur Hcur Hover Hs). cbn [bind].
  eexists. split; [reflexivity|]. unfold afterMove.
  destruct (fits (TetrisGame.board g) cur 0 1) eqn:Hfit.
  - cbv zeta. change (0 =? 0) with true. change (1 >? 0) with true. cbn [negb andb].
    rewrite Z.add_0_r.
    destruct (negb (fits (TetrisGame.board g) _ 0 1));
      unfold TetrisGame.startLocking;
      try destruct (negb (TetrisGame.isLocking _));
      (repeat split; try reflexivity; intros; discriminate).
  - change (1 >? 0) with true. cbv iota. unfold TetrisGame.startLocking.
    destruct (negb (TetrisGame.isLocking g));
      (repeat split; try reflexivity; try exact Hcur; intros; discriminate).
Qed.

Lemma softDrop_one_point_per_row_witness :
  exists g',
    TetrisGame.softDrop tAtWall = Ok g'
    /\ TetrisGame.score g' = Number 1.
Proof.
  destruct (softDrop_one_point_per_row tAtWall (Piece.new TypeT (Some 7) (Some 5))
              eq_refl eq_refl eq_refl) as (g' & Hrun & _ & Hyes & _).
  exists g'. split; [exact Hrun|]. now apply Hyes.
Defined.

(** ** The controller: rotation of any piece *)

Lemma rotatePiece_eq :
  forall g cur,
    TetrisGame.currentPiece g = Some cur ->
    TetrisGame.isGameOver g = false ->
    shaped (TetrisGame.board g) = true ->
    TetrisGame.rotatePiece g
    = Ok (rotateWithKicks
            (Piece.getWallKickOffsets (Piece.rotate (Piece.copy cur))
               (Piece.rotation cur) (Z.rem (Piece.rotation cur + 1) 4))
            cur g).
Proof.
  intros g cur Hcur Hover Hs. unfold TetrisGame.rotatePiece, rotateWithKicks.
  rewrite Hcur, Hover. cbv zeta. rewrite canPlacePiece_total by assumption.
  cbn [bind].
  destruct (fits (TetrisGame.board g) (Piece.rotate (Piece.copy cur)) 0 0).
  - unfold Piece.rotate. rewrite !Z.add_0_r. reflexivity.
  - change (Piece.rotation (Piece.rotate (Piece.copy cur)))
      with (Z.rem (Piece.rotation cur + 1) 4).
    rewrite kickLoop_find by assumption.
    destruct (find _ _) as [d|]; reflexivity.
Qed.

Lemma rotateWithKicks_cases :
  forall kicks cur g,
    rotateWithKicks kicks cur g = g
    \/ exists dx dy,
         In (dx, dy) ((0, 0) :: kicks)
         /\ fits (TetrisGame.board g) (Piece.rotate (Piece.copy cur)) dx dy = true
         /\ rotateWithKicks kicks cur g
            = TetrisGame.resetLockTimer
                (TetrisGame.set_currentPiece
                   (Some (Piece.mk (Piece.type cur)
                            (Piece.rotate_shape (Piece.shape cur)) (Piece.color cur)
                            (Piece.x cur + dx) (Piece.y cur + dy)
                            (Z.rem (Piece.rotation cur + 1) 4)))
                   g).
Proof.
  intros kicks cur g. unfold rotateWithKicks.
  destruct (fits (TetrisGame.board g) (Piece.rotate (Piece.copy cur)) 0 0) eqn:H0.
  - right. exists 0, 0. split; [now left|]. split; [exact H0|reflexivity].
  - destruct (find _ kicks) as [[dx dy]|] eqn:Hfind; [|now left].
    right. exists dx, dy. apply find_some in Hfind as [Hin Hfit].
    split; [now right|]. split; [exact Hfit|reflexivity].
Qed.

(** X18: for every piece, [rotatePiece] on a running session tries the
    rotated piece in place and then the offsets that [getWallKickOffsets]
    gives for the transition from its rotation state to the next one, in
    order, and commits the first placement that fits.  The session is then
    either unchanged, or holds the rotated piece, moved by one of these
    offsets at which it fits, with the lock countdown reset; the board, the
    score, the lines and the level are never touched.  Without a current
    piece or after game over nothing changes. *)
Theorem rotatePiece_first_fitting_kick :
  (forall g cur,
      TetrisGame.currentPiece g = Some cur ->
      TetrisGame.isGameOver g = false ->
      shaped (TetrisGame.board g) = true ->
      let kicks :=
        Piece.getWallKickOffsets (Piece.rotate (Piece.copy cur))
          (Piece.rotation cur) (Z.rem (Piece.rotation cur + 1) 4) in
      exists g',
        TetrisGame.rotatePiece g = Ok g'
        /\ g' = rotateWithKicks kicks cur g
        /\ TetrisGame.board g' = TetrisGame.board g
        /\ TetrisGame.score g' = TetrisGame.score g
        /\ TetrisGame.lines g' = TetrisGame.lines g
        /\ TetrisGame.level g' = TetrisGame.level g
        /\ (g' = g
            \/ exists dx dy rotated,
                 In (dx, dy) ((0, 0) :: kicks)
                 /\ rotated
                    = Piece.mk (Piece.type cur) (Piece.rotate_shape (Piece.shape cur))
                        (Piece.color cur) (Piece.x cur + dx) (Piece.y cur + dy)
                        (Z.rem (Piece.rotation cur + 1) 4)
                 /\ TetrisGame.currentPiece g' = Some rotated
                 /\ fits (TetrisGame.board g') rotated 0 0 = true
                 /\ TetrisGame.isLocking g' = false))
  /\ (forall g,
         TetrisGame.currentPiece g = None \/ TetrisGame.isGameOver g = true ->
         TetrisGame.rotatePiece g = Ok g).
Proof.
  split.
  - intros g cur Hcur Hover Hs kicks.
    exists (rotateWithKicks kicks cur g).
    split; [now apply rotatePiece_eq|]. split; [reflexivity|].
    destruct (rotateWithKicks_cases kicks cur g)
      as [-> | (dx & dy & Hin & Hfit & ->)].
    + repeat split. now left.
    + repeat split. right. exists dx, dy. eexists.
      split; [exact Hin|]. split; [reflexivity|]. split; [reflexivity|].
      split; [|reflexivity].
      cbn [TetrisGame.board TetrisGame.resetLockTimer TetrisGame.set_lockTimer
           TetrisGame.set_isLocking TetrisGame.set_currentPiece].
      rewrite <- Hfit.
      rewrite (fits_shift (TetrisGame.board g) (Piece.rotate (Piece.copy cur)) _ dx dy 0 0);
        try reflexivity.
      now rewrite !Z.add_0_r.
  - intros g [H | H]; unfold TetrisGame.rotatePiece; rewrite H; [reflexivity|].
    destruct (TetrisGame.currentPiece g); reflexivity.
Qed.

Lemma rotatePiece_first_fitting_kick_witness :
  exists g',
    TetrisGame.rotatePiece (TetrisGame.new TypeO TypeI) = Ok g'
    /\ TetrisGame.board g' = TetrisGame.board (TetrisGame.new TypeO TypeI).
Proof.
  pose proof (proj1 rotatePiece_first_fitting_kick (TetrisGame.new TypeO TypeI)
                (Piece.new TypeO None None) eq_refl eq_refl eq_refl) as H.
  cbv zeta in H. destruct H as (g' & Hrun & _ & Hb & _).
  exists g'. split; [exact Hrun | exact Hb].
Defined.

(** ** The controller: how many lines a lock clears *)

Lemma sorted_in_range_length :
  forall l a n,
    StronglySorted Z.lt l ->
    (forall i, In i l -> a <= i < a + n) ->
    0 <= n ->
    Z.of_nat (List.length l) <= n.
Proof.
  induction l as [|i rest IH]; intros a n Hsorted Hrange Hn; [simpl; lia|].
  inversion Hsorted as [|? ? Hrest Hall]; subst.
  pose proof (Hrange i (or_introl eq_refl)) as Hi.
  rewrite Forall_forall in Hall.
  specialize (IH (i + 1) (a + n - i - 1) Hrest).
  cbn [List.length]. rewrite Nat2Z.inj_succ.
  assert (Z.of_nat (List.length rest) <= a + n - i - 1); [|lia].
  apply IH; [|lia]. intros j Hj. specialize (Hall j Hj).
  specialize (Hrange j (or_intror Hj)). lia.
Qed.

Lemma placePiece_row_untouched :
  forall b p b1 cy,
    shaped b = true ->
    GameBoard.placePiece b p = Ok b1 ->
    (forall pos, In pos (Piece.getOccupiedPositions p) -> snd pos <> cy) ->
    0 <= cy ->
    nth_error (GameBoard.grid b1) (Z.to_nat cy)
    = nth_error (GameBoard.grid b) (Z.to_nat cy).
Proof.
  intros b p b1 cy Hs Hplace Haway Hcy.
  destruct (placePiece_cells b p Hs) as (b' & Hrun & Hs1 & Hw & Hh & _ & _ & Hout).
  rewrite Hplace in Hrun. injection Hrun as <-.
  destruct (Z.lt_ge_cases cy (GameBoard.height b)) as [Hin | Hge].
  - destruct (shaped_row b cy Hs) as (row0 & Hrow0 & Hl0); [lia|].
    destruct (shaped_row b1 cy Hs1) as (row1 & Hrow1 & Hl1); [lia|].
    rewrite Hrow0, Hrow1. f_equal. apply nth_error_ext. intros n.
    assert (Hc : cellAt b1 (Z.of_nat n) cy = cellAt b (Z.of_nat n) cy).
    { apply Hout. intros [Hp _]. exact (Haway _ Hp eq_refl). }
    rewrite (cellAt_row b1 _ _ row1), (cellAt_row b _ _ row0) in Hc
      by (assumption || lia).
    now rewrite !Nat2Z.id in Hc.
  - destruct (shaped_inv b Hs) as (_ & _ & Hlen & _).
    destruct (shaped_inv b1 Hs1) as (_ & _ & Hlen1 & _).
    replace (nth_error (GameBoard.grid b1) (Z.to_nat cy)) with (@None (list Cell))
      by (symmetry; apply nth_error_None; lia).
    symmetry. apply nth_error_None. lia.
Qed.

Lemma completeRows_In :
  forall b i,
    In i (completeRows b) <->
    exists row, 0 <= i /\ nth_error (GameBoard.grid b) (Z.to_nat i) = Some row
                /\ fullRow row = true.
Proof.
  intros b i. unfold completeRows. rewrite fullRowsFrom_In. split.
  - intros (j & row & -> & Hrow & Hfull). exists row.
    simpl. rewrite Nat2Z.id. repeat split; try assumption. lia.
  - intros (row & Hi & Hrow & Hfull). exists (Z.to_nat i), row.
    simpl. repeat split; try assumption. lia.
Qed.

Lemma placePiece_full_rows_near :
  forall b p b1 i,
    shaped b = true ->
    completeRows b = [] ->
    mask4 (Piece.shape p) ->
    GameBoard.placePiece b p = Ok b1 ->
    In i (completeRows b1) ->
    Piece.y p <= i < Piece.y p + 4.
Proof.
  intros b p b1 i Hs Hnone Hm Hplace Hin.
  destruct (Z.le_gt_cases (Piece.y p) i) as [Hlo|Hlo];
    [destruct (Z.lt_ge_cases i (Piece.y p + 4)) as [Hhi|Hhi]; [lia|]|];
    exfalso;
    apply completeRows_In in Hin as (row & Hi & Hrow & Hfull);
    (rewrite (placePiece_row_untouched b p b1 i Hs Hplace) in Hrow;
     [ assert (Hb : In i (completeRows b))
         by (apply completeRows_In; exists row; auto);
       rewrite Hnone in Hb; exact Hb
     | intros pos Hp; destruct pos as [px py];
       apply getOccupiedPositions_In in Hp as (r & c & Hset & _ & Hy);
       destruct (mask4_cell_range p r c Hm Hset) as [Hr _]; simpl; lia
     | exact Hi ]).
Qed.

(** A piece with a four-by-four mask placed on a well-formed board without
    complete rows completes at most four rows. *)
Lemma clears_at_most_four :
  forall b p b1 n b2,
    wellFormed b = true ->
    completeRows b = [] ->
    mask4 (Piece.shape p) ->
    Piece.color p <> ""%string ->
    GameBoard.placePiece b p = Ok b1 ->
    GameBoard.clearLines b1 = Ok (n, b2) ->
    0 <= n <= 4.
Proof.
  intros b p b1 n b2 Hwf Hnone Hm Hcol Hplace Hclear.
  destruct (placePiece_wellFormed b p Hwf Hcol) as (b1' & Hrun & Hwf1 & _).
  rewrite Hplace in Hrun. injection Hrun as <-.
  rewrite (clearLines_closed_form b1 Hwf1) in Hclear. injection Hclear as <- _.
  split; [lia|].
  apply (sorted_in_range_length (completeRows b1) (Piece.y p) 4).
  - apply fullRowsFrom_sorted.
  - intros i Hi.
    apply (placePiece_full_rows_near b p b1 i (wellFormed_shaped b Hwf) Hnone Hm Hplace Hi).
  - lia.
Qed.

(** ** The controller: the invariant of a session *)

Lemma standard_inv :
  forall b, standard b = true <->
            wellFormed b = true /\ GameBoard.width b = 10 /\ GameBoard.height b = 20.
Proof.
  intros b. unfold standard. rewrite !andb_true_iff, !Z.eqb_eq. tauto.
Qed.

Lemma goodPiece_new : forall ty ox oy, goodPiece (Piece.new ty ox oy).
Proof.
  intros ty ox oy. unfold goodPiece. split; [apply PIECES_mask4|].
  split; [|split; [reflexivity | simpl; lia]].
  unfold Piece.getOccupiedPositions. rewrite shapePositions_length.
  destruct ty; reflexivity.
Qed.

Lemma goodPiece_color : forall p, goodPiece p -> Piece.color p <> ""%string.
Proof.
  intros p (_ & _ & Hc & _). rewrite Hc. destruct (Piece.type p); discriminate.
Qed.

Lemma goodPiece_cell : forall p, goodPiece p -> exists r c, maskSet p r c.
Proof.
  intros p (_ & Hlen & _).
  destruct (Piece.getOccupiedPositions p) as [|[px py] rest] eqn:E; [discriminate|].
  assert (Hin : In (px, py) (Piece.getOccupiedPositions p)) by (rewrite E; now left).
  apply getOccupiedPositions_In in Hin as (r & c & Hset & _). eauto.
Qed.

Lemma goodPiece_reshape :
  forall p q,
    goodPiece p ->
    Piece.shape q = Piece.shape p -> Piece.type q = Piece.type p ->
    Piece.color q = Piece.color p -> Piece.rotation q = Piece.rotation p ->
    goodPiece q.
Proof.
  intros p q (Hm & Hlen & Hc & Hr) Hsh Hty Hcol Hrot. unfold goodPiece.
  rewrite Hsh, Hty, Hcol, Hrot.
  split; [exact Hm|]. split; [|split; [exact Hc | exact Hr]].
  unfold Piece.getOccupiedPositions in *. rewrite shapePositions_length in *.
  rewrite ?Hsh. exact Hlen.
Qed.

Lemma goodPiece_rotated :
  forall p nx ny,
    goodPiece p ->
    goodPiece (Piece.mk (Piece.type p) (Piece.rotate_shape (Piece.shape p))
                 (Piece.color p) nx ny (Z.rem (Piece.rotation p + 1) 4)).
Proof.
  intros p nx ny (Hm & Hlen & Hc & Hr). unfold goodPiece. cbn [Piece.shape
    Piece.type Piece.color Piece.rotation].
  split; [now apply rotate_shape_mask4|]. split; [|split; [exact Hc|]].
  - pose proof (rotate_cell_count p Hm) as Hcount.
    unfold Piece.getOccupiedPositions in *.
    rewrite !shapePositions_length in Hcount. rewrite shapePositions_length in *.
    cbn [Piece.shape Piece.rotate] in *. lia.
  - rewrite Z.rem_mod_nonneg by lia. apply Z.mod_pos_bound. lia.
Qed.

Lemma handleLinesCleared_frame :
  forall n g,
    let h := TetrisGame.handleLinesCleared n g in
    TetrisGame.currentPiece h = TetrisGame.currentPiece g
    /\ TetrisGame.nextPiece h = TetrisGame.nextPiece g
    /\ TetrisGame.isGameOver h = TetrisGame.isGameOver g
    /\ TetrisGame.isRunning h = TetrisGame.isRunning g
    /\ TetrisGame.isPaused h = TetrisGame.isPaused g
    /\ TetrisGame.lockDelay h = TetrisGame.lockDelay g
    /\ TetrisGame.lineFlashDuration h = TetrisGame.lineFlashDuration g.
Proof.
  intros n g h. subst h. unfold TetrisGame.handleLinesCleared. cbv zeta.
  match goal with |- context [if ?c then _ else _] => destruct c end;
    repeat split; reflexivity.
Qed.

Lemma lineBase_nonneg : forall n, 0 <= lineBase n.
Proof.
  intros n. unfold lineBase.
  repeat match goal with |- context [if ?c then _ else _] => destruct c end; lia.
Qed.

Lemma scored_steady :
  forall n b2 g,
    steady g ->
    standard b2 = true -> completeRows b2 = [] -> 0 <= n <= 4 ->
    steady (scored n b2 g).
Proof.
  intros n b2 g (_ & _ & Hcur & Hnxt & Hli & Hlv & Hco & (s & Hs & Hs0) & Hld & Hlf & Hov)
    Hstd Hnone Hn.
  unfold scored. destruct (Z.gtb_spec n 0) as [Hpos|Hzero].
  - cbv zeta.
    destruct (handleLinesCleared_fields n (TetrisGame.set_board b2 g))
      as (F1 & F2 & F3 & F4 & _ & F6).
    destruct (handleLinesCleared_frame n (TetrisGame.set_board b2 g))
      as (G1 & G2 & G3 & G4 & _ & G6 & G7).
    cbv zeta in *. unfold steady.
    cbn [TetrisGame.set_lineFlashTimer TetrisGame.board TetrisGame.currentPiece
         TetrisGame.nextPiece TetrisGame.lines TetrisGame.level TetrisGame.combo
         TetrisGame.score TetrisGame.lockDelay TetrisGame.lineFlashDuration
         TetrisGame.isGameOver TetrisGame.isRunning].
    rewrite F1, F2, F3, F4, F6, G1, G2, G3, G4, G6, G7.
    cbn [TetrisGame.set_board TetrisGame.board TetrisGame.currentPiece
         TetrisGame.nextPiece TetrisGame.lines TetrisGame.level TetrisGame.combo
         TetrisGame.score TetrisGame.lockDelay TetrisGame.lineFlashDuration
         TetrisGame.isGameOver TetrisGame.isRunning].
    rewrite Hs, baseScore_table by lia.
    pose proof (lineBase_nonneg n) as Hbase.
    split; [exact Hstd|]. split; [exact Hnone|]. split; [exact Hcur|].
    split; [exact Hnxt|]. split; [lia|]. split; [lia|]. split; [lia|].
    split; [|split; [exact Hld | split; [exact Hlf | exact Hov]]].
    destruct (TetrisGame.combo g + 1 >? 1); cbn [Num_add]; eexists;
      (split; [reflexivity | nia]).
  - unfold steady. cbn. split; [exact Hstd|]. split; [exact Hnone|].
    split; [exact Hcur|]. split; [exact Hnxt|].
    repeat split; try assumption; try lia. exists s. auto.
Qed.

Lemma spawnAfterLock_sound :
  forall ty g2 g',
    steady g2 -> spawnAfterLock ty g2 = Ok g' -> sound g'.
Proof.
  intros ty g2 g' (Hstd & Hnone & _ & (nxt & Hnx & Hgood & _) & Hli & Hlv & Hco
                   & Hsc & Hld & Hlf & Hov) H.
  assert (Hnew : exists q, Some (Piece.new ty None None) = Some q /\ goodPiece q
                           /\ Piece.x q = fst (pd_spawn (PIECES (Piece.type q)))
                           /\ Piece.y q = snd (pd_spawn (PIECES (Piece.type q)))).
  { eexists. split; [reflexivity|]. split; [apply goodPiece_new|].
    split; reflexivity. }
  assert (Hover : sound (TetrisGame.gameOver
                           (TetrisGame.spawnNewPiece ty (TetrisGame.resetLockTimer g2)))).
  { split.
    - unfold steady. cbn. rewrite Hnx.
      split; [exact Hstd|]. split; [exact Hnone|]. split; [eauto|].
      split; [exact Hnew|]. repeat split; assumption.
    - intros Hc. discriminate Hc. }
  unfold spawnAfterLock in H. cbv zeta in H.
  change (TetrisGame.board (TetrisGame.spawnNewPiece ty (TetrisGame.resetLockTimer g2)))
    with (TetrisGame.board g2) in H.
  change (TetrisGame.currentPiece
            (TetrisGame.spawnNewPiece ty (TetrisGame.resetLockTimer g2)))
    with (TetrisGame.nextPiece g2) in H.
  destruct (GameBoard.isGameOver (TetrisGame.board g2)) as [over| |];
    cbn [bind] in H; try discriminate.
  destruct over; [injection H as <-; exact Hover|].
  rewrite Hnx in H.
  destruct (GameBoard.canPlacePiece (TetrisGame.board g2) nxt 0 0) as [ok| |] eqn:Hok;
    cbn [bind] in H; try discriminate.
  injection H as <-. destruct ok; cbn [negb]; [|exact Hover].
  split.
  - unfold steady. cbn. rewrite Hnx.
    split; [exact Hstd|]. split; [exact Hnone|]. split; [eauto|].
    split; [exact Hnew|]. repeat split; assumption.
  - intros _. exists nxt. cbn. split; [exact Hnx|]. unfold fits. now rewrite Hok.
Qed.

Lemma lockPiece_sound :
  forall ty g g', steady g -> TetrisGame.lockPiece ty g = Ok g' -> sound g'.
Proof.
  intros ty g g' Hst Hlock.
  pose proof Hst as (Hstd & Hnone & (cur & Hcur & Hgood) & _).
  apply standard_inv in Hstd as (Hwf & Hw & Hh).
  destruct (lockPiece_inv ty g g' cur Hcur Hlock) as (b1 & n & b2 & Hplace & Hclear & Hspawn).
  destruct (placePiece_wellFormed _ cur Hwf (goodPiece_color cur Hgood))
    as (b1' & Hrun & Hwf1 & Hw1 & Hh1 & _).
  rewrite Hplace in Hrun. injection Hrun as <-.
  destruct (clearLines_wellFormed b1 Hwf1) as (n' & b2' & Hrun2 & _ & Hwf2 & Hw2 & Hh2).
  rewrite Hclear in Hrun2. injection Hrun2 as <- <-.
  apply (spawnAfterLock_sound ty (scored n b2 g) g'); [|exact Hspawn].
  apply scored_steady; try assumption.
  - apply standard_inv. repeat split; [exact Hwf2 | lia | lia].
  - apply (clearLines_twice b1 n b2 Hwf1); [lia | exact Hclear].
  - pose proof (goodPiece_color cur Hgood) as Hcol. destruct Hgood as (Hm & _).
    apply (clears_at_most_four (TetrisGame.board g) cur b1 n b2); assumption.
Qed.

Lemma sound_startLocking : forall g, sound g -> sound (TetrisGame.startLocking g).
Proof.
  intros g H. unfold TetrisGame.startLocking.
  destruct (negb (TetrisGame.isLocking g)); exact H.
Qed.

Lemma sound_set_piece :
  forall g p,
    sound g -> goodPiece p ->
    (TetrisGame.isGameOver g = false -> fits (TetrisGame.board g) p 0 0 = true) ->
    sound (TetrisGame.set_currentPiece (Some p) g).
Proof.
  intros g p [(H1 & H2 & _ & H4 & H5) _] Hgood Hfit. split.
  - unfold steady. cbn. split; [exact H1|]. split; [exact H2|].
    split; [eauto|]. split; [exact H4 | exact H5].
  - intros Hover. exists p. cbn. split; [reflexivity|]. now apply Hfit.
Qed.

Lemma sound_current :
  forall g, sound g ->
    exists cur, TetrisGame.currentPiece g = Some cur /\ goodPiece cur
                /\ (TetrisGame.isGameOver g = false ->
                    fits (TetrisGame.board g) cur 0 0 = true).
Proof.
  intros g [(_ & _ & (cur & Hcur & Hgood) & _) Hfit].
  exists cur. split; [exact Hcur|]. split; [exact Hgood|].
  intros Hover. destruct (Hfit Hover) as (c & Hc & Hf). congruence.
Qed.

Lemma sound_shaped : forall g, sound g -> shaped (TetrisGame.board g) = true.
Proof.
  intros g [(Hstd & _) _]. apply standard_inv in Hstd as (Hwf & _).
  now apply wellFormed_shaped.
Qed.

Lemma afterMove_sound :
  forall dx dy cur g,
    sound g -> TetrisGame.currentPiece g = Some cur ->
    sound (afterMove dx dy cur g).
Proof.
  intros dx dy cur g Hs Hcur.
  destruct (sound_current g Hs) as (c & Hc & Hgood & Hfit).
  rewrite Hcur in Hc. injection Hc as <-.
  unfold afterMove. destruct (fits (TetrisGame.board g) cur dx dy) eqn:Hmove.
  - cbv zeta.
    assert (Hp : sound (TetrisGame.set_currentPiece
                          (Some (movedTo cur (Piece.x cur + dx) (Piece.y cur + dy))) g)).
    { apply sound_set_piece; [exact Hs | |].
      - apply (goodPiece_reshape cur); [exact Hgood | reflexivity..].
      - intros _. rewrite (fits_shift (TetrisGame.board g) cur _ dx dy 0 0);
          try reflexivity. now rewrite !Z.add_0_r. }
    destruct (negb (dx =? 0)); destruct (_ && _);
      try apply sound_startLocking; exact Hp.
  - destruct (dy >? 0); [now apply sound_startLocking | exact Hs].
Qed.

Lemma moveCurrentPiece_sound :
  forall dx dy g r g',
    sound g -> TetrisGame.moveCurrentPiece dx dy g = Ok (r, g') -> sound g'.
Proof.
  intros dx dy g r g' Hs Hrun.
  destruct (sound_current g Hs) as (cur & Hcur & _).
  destruct (TetrisGame.isGameOver g) eqn:Hover.
  - rewrite moveCurrentPiece_idle in Hrun by now right.
    injection Hrun as _ <-. exact Hs.
  - rewrite (moveCurrentPiece_eq dx dy g cur Hcur Hover (sound_shaped g Hs)) in Hrun.
    injection Hrun as _ <-. now apply afterMove_sound.
Qed.

Lemma rotatePiece_sound :
  forall g g', sound g -> TetrisGame.rotatePiece g = Ok g' -> sound g'.
Proof.
  intros g g' Hs Hrun.
  destruct (sound_current g Hs) as (cur & Hcur & Hgood & _).
  destruct (TetrisGame.isGameOver g) eqn:Hover.
  - unfold TetrisGame.rotatePiece in Hrun. rewrite Hcur, Hover in Hrun.
    injection Hrun as <-. exact Hs.
  - rewrite (rotatePiece_eq g cur Hcur Hover (sound_shaped g Hs)) in Hrun.
    injection Hrun as <-.
    destruct (rotateWithKicks_cases
                (Piece.getWallKickOffsets (Piece.rotate (Piece.copy cur))
                   (Piece.rotation cur) (Z.rem (Piece.rotation cur + 1) 4)) cur g)
      as [-> | (dx & dy & _ & Hfit & ->)]; [exact Hs|].
    change (sound (TetrisGame.set_currentPiece
                     (Some (Piece.mk (Piece.type cur)
                              (Piece.rotate_shape (Piece.shape cur)) (Piece.color cur)
                              (Piece.x cur + dx) (Piece.y cur + dy)
                              (Z.rem (Piece.rotation cur + 1) 4))) g)).
    apply sound_set_piece; [exact Hs | now apply goodPiece_rotated |].
    intros _. rewrite <- Hfit.
    rewrite (fits_shift (TetrisGame.board g) (Piece.rotate (Piece.copy cur)) _ dx dy 0 0);
      try reflexivity.
    now rewrite !Z.add_0_r.
Qed.

Lemma softDrop_sound :
  forall g g', sound g -> TetrisGame.softDrop g = Ok g' -> sound g'.
Proof.
  intros g g' Hs Hrun. unfold TetrisGame.softDrop in Hrun.
  destruct (TetrisGame.moveCurrentPiece 0 1 g) as [[moved g1]| |] eqn:E;
    cbn [bind] in Hrun; try discriminate Hrun.
  pose proof (moveCurrentPiece_sound 0 1 g moved g1 Hs E) as Hs1.
  injection Hrun as <-. destruct moved; [|exact Hs1].
  destruct Hs1 as [(H1 & H2 & H3 & H4 & H5 & H6 & H7 & (s & Hsc & Hs0) & H9) Hfit].
  split; [|exact Hfit].
  unfold steady. cbn. rewrite Hsc. cbn [Num_add].
  split; [exact H1|]. split; [exact H2|]. split; [exact H3|]. split; [exact H4|].
  split; [exact H5|]. split; [exact H6|]. split; [exact H7|].
  split; [|exact H9]. exists (s + 1). split; [reflexivity | lia].
Qed.

Lemma dropLoop_ge :
  forall fuel b p d r, GameBoard.dropLoop fuel b p d = Ok r -> d <= r.
Proof.
  induction fuel as [|fuel IH]; intros b p d r H; simpl in H; [discriminate|].
  destruct (GameBoard.canPlacePiece b p 0 (d - Piece.y p + 1)) as [ok| |];
    cbn [bind] in H; try discriminate.
  destruct ok.
  - apply IH in H. lia.
  - injection H as <-. lia.
Qed.

Lemma hardDrop_sound :
  forall fuel ty g g', sound g -> TetrisGame.hardDrop fuel ty g = Ok g' -> sound g'.
Proof.
  intros fuel ty g g' Hs Hrun.
  destruct (sound_current g Hs) as (cur & Hcur & Hgood & _).
  unfold TetrisGame.hardDrop in Hrun. rewrite Hcur in Hrun.
  destruct (TetrisGame.isGameOver g) eqn:Hover; [injection Hrun as <-; exact Hs|].
  destruct (GameBoard.getDropPosition fuel (TetrisGame.board g) cur) as [landing| |] eqn:Hd;
    cbn [bind] in Hrun; try discriminate Hrun.
  cbv zeta in Hrun. refine (lockPiece_sound ty _ g' _ Hrun).
  apply dropLoop_ge in Hd.
  destruct Hs as [(H1 & H2 & _ & H4 & H5 & H6 & H7 & (s & Hsc & Hs0) & H9) _].
  unfold steady. cbn. rewrite Hsc. cbn [Num_add].
  split; [exact H1|]. split; [exact H2|]. split.
  { eexists. split; [reflexivity|].
    apply (goodPiece_reshape cur); [exact Hgood | reflexivity..]. }
  split; [exact H4|]. split; [exact H5|]. split; [exact H6|]. split; [exact H7|].
  split; [|exact H9]. eexists. split; [reflexivity | lia].
Qed.

Lemma canPlacePiece_flash :
  forall b p dx dy,
    GameBoard.canPlacePiece (GameBoard.clearFlashingLines b) p dx dy
    = GameBoard.canPlacePiece b p dx dy.
Proof.
  intros b p dx dy. unfold GameBoard.canPlacePiece.
  induction (Piece.getOccupiedPositions p) as [|pos rest IH]; [reflexivity|].
  cbn [GameBoard.canPlaceLoop]. rewrite IH. reflexivity.
Qed.

Lemma clearFlashingLines_sound :
  forall g,
    sound g ->
    sound (TetrisGame.set_board (GameBoard.clearFlashingLines (TetrisGame.board g)) g).
Proof.
  intros g [Hst Hfit]. split; [exact Hst|].
  intros Hover. destruct (Hfit Hover) as (cur & Hcur & Hf).
  exists cur. split; [exact Hcur|].
  change (fits (GameBoard.clearFlashingLines (TetrisGame.board g)) cur 0 0 = true).
  unfold fits in *. now rewrite canPlacePiece_flash.
Qed.

Lemma update_sound :
  forall dt ty g g', sound g -> TetrisGame.update dt ty g = Ok g' -> sound g'.
Proof.
  intros dt ty g g' Hs H. unfold TetrisGame.update in H. cbv zeta in H.
  destruct (TetrisGame.isGameOver g) eqn:Hover; [injection H as <-; exact Hs|].
  destruct (PrimFloat.ltb 0 (TetrisGame.lineFlashTimer g)).
  { destruct (PrimFloat.leb _ _); injection H as <-;
      [apply (clearFlashingLines_sound (TetrisGame.set_lineFlashTimer _ g)) |];
      exact Hs. }
  destruct (TetrisGame.isLocking g && _).
  { refine (lockPiece_sound ty _ g' _ H).
    destruct Hs as [Hst _]. destruct (TetrisGame.isLocking g); exact Hst. }
  destruct (PrimFloat.leb _ _).
  - destruct (TetrisGame.moveCurrentPiece 0 1 _) as [[r g3]| |] eqn:Em;
      cbn [bind] in H; try discriminate H.
    injection H as <-. refine (moveCurrentPiece_sound 0 1 _ r g3 _ Em).
    destruct (TetrisGame.isLocking g); exact Hs.
  - injection H as <-. destruct (TetrisGame.isLocking g); exact Hs.
Qed.

Lemma gameLoop_sound :
  forall now ty g g', sound g -> TetrisGame.gameLoop now ty g = Ok g' -> sound g'.
Proof.
  intros now ty g g' Hs H. unfold TetrisGame.gameLoop in H. cbv zeta in H.
  destruct (negb (TetrisGame.isRunning g) || TetrisGame.isPaused g);
    [injection H as <-; exact Hs|].
  refine (update_sound _ ty _ g' _ H). exact Hs.
Qed.

Lemma spawn_fits :
  forall ty, fits (GameBoard.new 10 20) (Piece.new ty None None) 0 0 = true.
Proof. intros []; reflexivity. Qed.

Lemma fresh_sound :
  forall g ty1 ty2,
    TetrisGame.board g = GameBoard.new 10 20 ->
    TetrisGame.currentPiece g = Some (Piece.new ty1 None None) ->
    TetrisGame.nextPiece g = Some (Piece.new ty2 None None) ->
    TetrisGame.lines g = 0 -> TetrisGame.level g = 1 -> TetrisGame.combo g = 0 ->
    TetrisGame.score g = Number 0 ->
    TetrisGame.lockDelay g = 500%float ->
    TetrisGame.lineFlashDuration g = 300%float ->
    TetrisGame.isGameOver g = false ->
    sound g.
Proof.
  intros g ty1 ty2 Hb Hc Hn Hli Hlv Hco Hsc Hld Hlf Hov. split.
  - unfold steady. rewrite Hb, Hc, Hn, Hli, Hlv, Hco, Hsc, Hov.
    split; [reflexivity|]. split; [reflexivity|].
    split; [eexists; split; [reflexivity | apply goodPiece_new]|].
    split; [eexists; split; [reflexivity|]; split; [apply goodPiece_new|];
            split; reflexivity|].
    repeat split; try lia; try assumption; try discriminate.
    exists 0. split; [reflexivity | lia].
  - intros _. eexists. split; [exact Hc|]. rewrite Hb. apply spawn_fits.
Qed.

Lemma new_sound : forall ty1 ty2, sound (TetrisGame.new ty1 ty2).
Proof. intros ty1 ty2. apply (fresh_sound _ ty1 ty2); reflexivity. Qed.

Lemma reset_standard :
  forall b, standard b = true -> GameBoard.reset b = GameBoard.new 10 20.
Proof.
  intros b H. apply standard_inv in H as (_ & Hw & Hh).
  unfold GameBoard.reset, GameBoard.new. now rewrite Hw, Hh.
Qed.

Lemma restart_sound :
  forall ty1 ty2 g, sound g -> sound (TetrisGame.restart ty1 ty2 g).
Proof.
  intros ty1 ty2 g [(Hstd & _ & _ & _ & _ & _ & _ & _ & Hld & Hlf & _) _].
  apply (fresh_sound _ ty1 ty2); try reflexivity; try assumption.
  cbn. now apply reset_standard.
Qed.

Lemma run_sound :
  forall c g g', sound g -> TetrisGame.run c g = Ok g' -> sound g'.
Proof.
  intros c g g' Hs H. destruct c; simpl in H.
  - unfold TetrisGame.start in H.
    destruct (TetrisGame.isGameOver g) eqn:Hover.
    + injection H as <-. now apply restart_sound.
    + destruct (negb (TetrisGame.isRunning g)); [|injection H as <-; exact Hs].
      refine (gameLoop_sound _ _ _ g' _ H).
      destruct Hs as [(H1 & H2 & H3 & H4 & H5 & H6 & H7 & H8 & H9 & H10 & H11) Hfit].
      split; [|exact Hfit]. unfold steady. cbn.
      repeat (split; [assumption|]). intros Hc. congruence.
  - unfold TetrisGame.togglePause in H. cbv zeta in H.
    destruct (negb (TetrisGame.isRunning g)); [injection H as <-; exact Hs|].
    destruct (negb (TetrisGame.isPaused _)).
    + refine (gameLoop_sound _ _ _ g' _ H). exact Hs.
    + injection H as <-. exact Hs.
  - injection H as <-. now apply restart_sound.
  - now apply (gameLoop_sound now ty g g').
  - unfold TetrisGame.movePiece in H.
    destruct (TetrisGame.moveCurrentPiece dx dy g) as [[r g1]| |] eqn:E;
      cbn [bind] in H; try discriminate H.
    injection H as <-. now apply (moveCurrentPiece_sound dx dy g r g1).
  - now apply (rotatePiece_sound g g').
  - now apply (softDrop_sound g g').
  - now apply (hardDrop_sound fuel ty g g').
Qed.

Lemma reachable_sound : forall g, TetrisGame.reachable g -> sound g.
Proof.
  intros g H. induction H as [ty1 ty2 | c g g' Hr IH Hrun].
  - apply new_sound.
  - now apply (run_sound c g g').
Qed.

(** ** The session: what holds between any two calls *)

Lemma reachable_runs :
  forall cs g g',
    TetrisGame.reachable g -> runs cs g = Ok g' -> TetrisGame.reachable g'.
Proof.
  induction cs as [|c cs IH]; intros g g' Hr H; simpl in H.
  - injection H as <-. exact Hr.
  - destruct (TetrisGame.run c g) as [g1| |] eqn:E; cbn [bind] in H; try discriminate H.
    apply (IH g1 g'); [|exact H]. exact (TetrisGame.reachable_run c g g1 Hr E).
Qed.

(** X19: locking one tetromino on a board without a complete row completes
    at most four rows: [clearLines] after [placePiece] returns a count
    between 0 and 4. *)
Theorem lock_clears_at_most_four :
  forall b p b1 n b2,
    wellFormed b = true ->
    completeRows b = [] ->
    mask4 (Piece.shape p) ->
    Piece.color p <> ""%string ->
    GameBoard.placePiece b p = Ok b1 ->
    GameBoard.clearLines b1 = Ok (n, b2) ->
    0 <= n <= 4.
Proof. exact clears_at_most_four. Qed.

(** X20: between any two calls of a session the board is the ten by twenty
    grid of valid cells, and no row of it is complete. *)
Theorem session_board_standard :
  forall g,
    TetrisGame.reachable g ->
    standard (TetrisGame.board g) = true
    /\ completeRows (TetrisGame.board g) = [].
Proof.
  intros g Hr. destruct (reachable_sound g Hr) as [(Hstd & Hnone & _) _].
  split; assumption.
Qed.

(** X21: in a session the score is always a non-negative number (never
    NaN), the combo counter is non-negative and the two delays keep their
    constructor values. *)
Theorem session_score_is_number :
  forall g,
    TetrisGame.reachable g ->
    (exists s, TetrisGame.score g = Number s /\ 0 <= s)
    /\ 0 <= TetrisGame.combo g
    /\ TetrisGame.lockDelay g = 500%float
    /\ TetrisGame.lineFlashDuration g = 300%float.
Proof.
  intros g Hr.
  destruct (reachable_sound g Hr)
    as [(_ & _ & _ & _ & _ & _ & Hco & Hsc & Hld & Hlf & _) _].
  repeat split; assumption.
Qed.

(** X22: in a session there is always a current and a next piece, both
    tetrominoes of a catalogue colour (four set cells in a four by four
    mask, rotation index 0..3); the next piece waits at its spawn position,
    and while the game is not over the current piece lies on free cells
    inside the walls and above the floor. *)
Theorem session_piece_fits :
  forall g,
    TetrisGame.reachable g ->
    exists cur nxt,
      TetrisGame.currentPiece g = Some cur
      /\ TetrisGame.nextPiece g = Some nxt
      /\ goodPiece cur /\ goodPiece nxt
      /\ (Piece.x nxt, Piece.y nxt) = pd_spawn (PIECES (Piece.type nxt))
      /\ (TetrisGame.isGameOver g = false ->
          fits (TetrisGame.board g) cur 0 0 = true).
Proof.
  intros g Hr. pose proof (reachable_sound g Hr) as Hs.
  destruct (sound_current g Hs) as (cur & Hcur & Hgood & Hfit).
  destruct Hs as [(_ & _ & _ & (nxt & Hnx & Hgn & Hx & Hy) & _) _].
  exists cur, nxt. repeat (split; [assumption|]). split; [|exact Hfit].
  rewrite Hx, Hy. now destruct (pd_spawn _).
Qed.

Lemma moveCurrentPiece_total :
  forall dx dy g, sound g -> exists r g', TetrisGame.moveCurrentPiece dx dy g = Ok (r, g').
Proof.
  intros dx dy g Hs. destruct (sound_current g Hs) as (cur & Hcur & _).
  destruct (TetrisGame.isGameOver g) eqn:Hover.
  - rewrite moveCurrentPiece_idle by now right. eauto.
  - rewrite (moveCurrentPiece_eq dx dy g cur Hcur Hover (sound_shaped g Hs)). eauto.
Qed.

Lemma lockPiece_returns :
  forall ty g, steady g -> exists g', TetrisGame.lockPiece ty g = Ok g'.
Proof.
  intros ty g (Hstd & _ & (cur & Hcur & Hgood) & (nxt & Hnx & _) & _).
  apply standard_inv in Hstd as (Hwf & Hw & Hh).
  destruct (lockPiece_total ty g cur nxt Hcur Hnx Hwf) as (_ & _ & _ & g' & _ & _ & _ & _ & H).
  - lia.
  - now apply goodPiece_color.
  - eauto.
Qed.

Lemma hardDrop_total :
  forall fuel ty g,
    sound g -> (budget g < fuel)%nat -> exists g', TetrisGame.hardDrop fuel ty g = Ok g'.
Proof.
  intros fuel ty g Hs Hfuel.
  destruct (sound_current g Hs) as (cur & Hcur & Hgood & _).
  unfold budget in Hfuel. rewrite Hcur in Hfuel.
  unfold TetrisGame.hardDrop. rewrite Hcur.
  destruct (TetrisGame.isGameOver g); [eauto|].
  destruct (goodPiece_cell cur Hgood) as (r & c & Hset).
  pose proof (sound_shaped g Hs) as Hsh.
  set (n := Z.to_nat (GameBoard.height (TetrisGame.board g) - Piece.y cur)) in *.
  destruct (dropLoop_search (TetrisGame.board g) cur Hsh n 0) as (m & Hm & Hrun & _).
  { apply (fits_below_floor _ cur r c); [exact Hsh | exact Hset | lia]. }
  assert (Hd : GameBoard.getDropPosition fuel (TetrisGame.board g) cur
               = Ok (Piece.y cur + Z.of_nat m)).
  { unfold GameBoard.getDropPosition.
    pose proof (Hrun fuel ltac:(lia)) as Hd. now rewrite Z.add_0_r in Hd. }
  rewrite Hd. cbn [bind]. cbv zeta.
  apply lockPiece_returns.
  destruct Hs as [(H1 & H2 & _ & H4 & H5 & H6 & H7 & (s & Hsc & Hs0) & H9) _].
  unfold steady. cbn. rewrite Hsc. cbn [Num_add].
  split; [exact H1|]. split; [exact H2|]. split.
  { eexists. split; [reflexivity|].
    apply (goodPiece_reshape cur); [exact Hgood | reflexivity..]. }
  split; [exact H4|]. split; [exact H5|]. split; [exact H6|]. split; [exact H7|].
  split; [|exact H9]. eexists. split; [reflexivity | lia].
Qed.

Lemma update_total :
  forall dt ty g, sound g -> exists g', TetrisGame.update dt ty g = Ok g'.
Proof.
  intros dt ty g Hs. unfold TetrisGame.update. cbv zeta.
  destruct (TetrisGame.isGameOver g); [eauto|].
  destruct (PrimFloat.ltb 0 (TetrisGame.lineFlashTimer g)).
  { destruct (PrimFloat.leb _ _); eauto. }
  destruct (TetrisGame.isLocking g && _).
  { apply lockPiece_returns. destruct Hs as [Hst _].
    destruct (TetrisGame.isLocking g); exact Hst. }
  destruct (PrimFloat.leb _ _); [|eauto].
  match goal with
  | |- context [TetrisGame.moveCurrentPiece 0 1 ?s] =>
      destruct (moveCurrentPiece_total 0 1 s) as (r & g3 & ->)
  end.
  - destruct (TetrisGame.isLocking g); exact Hs.
  - cbn [bind]. eauto.
Qed.

Lemma gameLoop_total :
  forall now ty g, sound g -> exists g', TetrisGame.gameLoop now ty g = Ok g'.
Proof.
  intros now ty g Hs. unfold TetrisGame.gameLoop. cbv zeta.
  destruct (negb (TetrisGame.isRunning g) || TetrisGame.isPaused g); [eauto|].
  apply update_total. exact Hs.
Qed.

(** X23: no call of a session throws.  In every state a session reaches,
    each call returns normally; a hard drop does so with any iteration budget
    above the number of rows between the piece and the floor. *)
Theorem session_never_throws :
  forall g c,
    TetrisGame.reachable g -> enough c g ->
    exists g', TetrisGame.run c g = Ok g'.
Proof.
  intros g c Hr Hfuel. pose proof (reachable_sound g Hr) as Hs.
  destruct c; simpl in *.
  - unfold TetrisGame.start. destruct (TetrisGame.isGameOver g) eqn:Hover; [eauto|].
    destruct (negb (TetrisGame.isRunning g)); [|eauto].
    apply gameLoop_total.
    destruct Hs as [(H1 & H2 & H3 & H4 & H5 & H6 & H7 & H8 & H9 & H10 & H11) Hfit].
    split; [|exact Hfit]. unfold steady. cbn.
    repeat (split; [assumption|]). intros Hc. congruence.
  - unfold TetrisGame.togglePause. cbv zeta.
    destruct (negb (TetrisGame.isRunning g)); [eauto|].
    destruct (negb (TetrisGame.isPaused _)); [|eauto].
    apply gameLoop_total. exact Hs.
  - eauto.
  - now apply gameLoop_total.
  - unfold TetrisGame.movePiece.
    destruct (moveCurrentPiece_total dx dy g Hs) as (r & g1 & ->). cbn [bind]. eauto.
  - destruct (sound_current g Hs) as (cur & Hcur & _).
    destruct (TetrisGame.isGameOver g) eqn:Hover.
    + unfold TetrisGame.rotatePiece. rewrite Hcur, Hover. eauto.
    + rewrite (rotatePiece_eq g cur Hcur Hover (sound_shaped g Hs)). eauto.
  - unfold TetrisGame.softDrop.
    destruct (moveCurrentPiece_total 0 1 g Hs) as (r & g1 & ->). cbn [bind]. eauto.
  - now apply hardDrop_total.
Qed.

(** X24: game over is terminal.  Once a session has ended, every call other
    than the start and restart buttons returns the state unchanged: frames,
    pause, moves, rotations and drops have no effect. *)
Theorem game_over_is_terminal :
  forall g c,
    TetrisGame.reachable g ->
    TetrisGame.isGameOver g = true ->
    playing c = true ->
    TetrisGame.run c g = Ok g.
Proof.
  intros g c Hr Hover Hc. pose proof (reachable_sound g Hr) as Hs.
  destruct (sound_current g Hs) as (cur & Hcur & _).
  destruct Hs as [(_ & _ & _ & _ & _ & _ & _ & _ & _ & _ & Hstop) _].
  pose proof (Hstop Hover) as Hrun.
  destruct c; simpl in Hc; try discriminate Hc; simpl.
  - unfold TetrisGame.togglePause. now rewrite Hrun.
  - unfold TetrisGame.gameLoop. now rewrite Hrun.
  - unfold TetrisGame.movePiece. rewrite moveCurrentPiece_idle by now right.
    reflexivity.
  - unfold TetrisGame.rotatePiece. now rewrite Hcur, Hover.
  - unfold TetrisGame.softDrop. rewrite moveCurrentPiece_idle by now right.
    reflexivity.
  - unfold TetrisGame.hardDrop. now rewrite Hcur, Hover.
Qed.

(** X25: in a session [restart] returns the game to the state the
    constructor builds from the same two draws, except for the clock reading
    [lastTime], which it keeps. *)
Theorem restart_is_new :
  forall g ty1 ty2,
    TetrisGame.reachable g ->
    TetrisGame.restart ty1 ty2 g
    = TetrisGame.set_lastTime (TetrisGame.lastTime g) (TetrisGame.new ty1 ty2).
Proof.
  intros g ty1 ty2 Hr.
  destruct (reachable_sound g Hr)
    as [(Hstd & _ & _ & _ & _ & _ & _ & _ & Hld & Hlf & _) _].
  pose proof (reset_standard _ Hstd) as Hreset.
  destruct g. cbn in *. unfold TetrisGame.restart, TetrisGame.new. cbn.
  rewrite Hreset, Hld, Hlf. reflexivity.
Qed.

Lemma lock_clears_at_most_four_witness :
  exists b1 b2,
    GameBoard.placePiece fourAlmostFull
      (Piece.rotate (Piece.new TypeI (Some (-2)) (Some 16))) = Ok b1
    /\ GameBoard.clearLines b1 = Ok (4, b2)
    /\ 0 <= 4 <= 4.
Proof.
  eexists. eexists.
  split; [vm_compute; reflexivity|]. split; [vm_compute; reflexivity|].
  eapply (lock_clears_at_most_four fourAlmostFull
            (Piece.rotate (Piece.new TypeI (Some (-2)) (Some 16)))).
  - reflexivity.
  - reflexivity.
  - apply rotate_shape_mask4, PIECES_mask4.
  - discriminate.
  - vm_compute. reflexivity.
  - vm_compute. reflexivity.
Defined.

Lemma session_board_standard_witness :
  standard (TetrisGame.board toppedOut) = true
  /\ completeRows (TetrisGame.board toppedOut) = [].
Proof.
  apply (session_board_standard toppedOut).
  apply (reachable_runs stackOfO (TetrisGame.new TypeO TypeO)).
  - apply TetrisGame.reachable_new.
  - vm_compute. reflexivity.
Defined.

Lemma session_score_is_number_witness :
  (exists s, TetrisGame.score toppedOut = Number s /\ 0 <= s)
  /\ 0 <= TetrisGame.combo toppedOut
  /\ TetrisGame.lockDelay toppedOut = 500%float
  /\ TetrisGame.lineFlashDuration toppedOut = 300%float.
Proof.
  apply (session_score_is_number toppedOut).
  apply (reachable_runs stackOfO (TetrisGame.new TypeO TypeO)).
  - apply TetrisGame.reachable_new.
  - vm_compute. reflexivity.
Defined.

Lemma session_piece_fits_witness :
  exists cur nxt,
    TetrisGame.currentPiece (TetrisGame.new TypeT TypeO) = Some cur
    /\ TetrisGame.nextPiece (TetrisGame.new TypeT TypeO) = Some nxt
    /\ goodPiece cur /\ goodPiece nxt
    /\ (Piece.x nxt, Piece.y nxt) = pd_spawn (PIECES (Piece.type nxt))
    /\ (TetrisGame.isGameOver (TetrisGame.new TypeT TypeO) = false ->
        fits (TetrisGame.board (TetrisGame.new TypeT TypeO)) cur 0 0 = true).
Proof.
  apply (session_piece_fits (TetrisGame.new TypeT TypeO)).
  apply TetrisGame.reachable_new.
Defined.

Lemma session_never_throws_witness :
  exists g',
    TetrisGame.run (TetrisGame.HardDrop 21 TypeI) (TetrisGame.new TypeT TypeO) = Ok g'.
Proof.
  apply (session_never_throws (TetrisGame.new TypeT TypeO) (TetrisGame.HardDrop 21 TypeI)).
  - apply TetrisGame.reachable_new.
  - vm_compute. lia.
Defined.

Lemma game_over_is_terminal_witness :
  TetrisGame.isGameOver toppedOut = true
  /\ TetrisGame.run (TetrisGame.HardDrop 30 TypeT) toppedOut = Ok toppedOut.
Proof.
  split; [reflexivity|].
  apply (game_over_is_terminal toppedOut (TetrisGame.HardDrop 30 TypeT)).
  - apply (reachable_runs stackOfO (TetrisGame.new TypeO TypeO)).
    + apply TetrisGame.reachable_new.
    + vm_compute. reflexivity.
  - reflexivity.
  - reflexivity.
Defined.

Lemma restart_is_new_witness :
  TetrisGame.restart TypeT TypeO toppedOut
  = TetrisGame.set_lastTime (TetrisGame.lastTime toppedOut) (TetrisGame.new TypeT TypeO).
Proof.
  apply (restart_is_new toppedOut TypeT TypeO).
  apply (reachable_runs stackOfO (TetrisGame.new TypeO TypeO)).
  - apply TetrisGame.reachable_new.
  - vm_compute. reflexivity.
Defined.
